(** * DingTalk channel: credential cache, card registry and update throttler

    A shallow embedding of the stateful core of [src/channel.ts]:
    the module-level access-token cache read and written by
    [getAccessToken], the card registry [cardInstances], and the two
    throttler maps [cardUpdateTimestamps] and [cardUpdateTimeouts] with the
    timers that [updateInteractiveCardThrottled] arms and clears.

    The source is asynchronous JavaScript running on one event loop.  Each
    function is cut at its [await]s: the part that runs synchronously when
    the function is called, and the part that runs when the awaited network
    call completes.  A run of the program is a list of events (a call, a
    timer firing, a network completion, the periodic sweep), each handled
    atomically, exactly as the event loop does.

    Times are [Date.now()] readings, milliseconds since the epoch, as [Z]
    (the source computes on them with [+], [-] and [*] only, exact on
    integers of this size). *)

From stdpp Require Import gmap strings list fin_maps.

Local Open Scope Z_scope.

(** ** Types imported from [./types] (the fields the code reads) *)

Record DingTalkConfig := mkConfig {
  clientId : string;
  clientSecret : string
}.

(** Two applications, used in the examples. *)
Definition cfgA : DingTalkConfig := mkConfig "appA" "secretA".
Definition cfgB : DingTalkConfig := mkConfig "appB" "secretB".

(** The body of the token endpoint's response, [response.data]. *)
Record TokenInfo := mkTokenInfo {
  data_accessToken : string;
  data_expireIn : Z
}.

(** * The access-token cache *)

Module Token.

(** [let accessToken: string | null = null; let accessTokenExpiry = 0;] *)
Record cache := mkCache {
  accessToken : option string;
  accessTokenExpiry : Z
}.

Definition empty_cache : cache :=
  {| accessToken := None; accessTokenExpiry := 0 |}.

(** JavaScript truthiness of a [string | null]: [null] and the empty string
    are falsy. *)
Definition truthy (o : option string) : bool :=
  match o with
  | Some EmptyString => false
  | Some _ => true
  | None => false
  end.

(** The guard of line 173,
    [accessToken && accessTokenExpiry > now + 60000]. *)
Definition cache_hit (c : cache) (now : Z) : bool :=
  truthy (accessToken c) && (now + 60000 <? accessTokenExpiry c).

(** The body posted to the token endpoint. *)
Record request := mkRequest {
  appKey : string;
  appSecret : string
}.

Definition request_of (config : DingTalkConfig) : request :=
  {| appKey := clientId config; appSecret := clientSecret config |}.

(** [getAccessToken] up to its [await]: either it returns the cached token,
    or it starts a fetch (one [retryWithBackoff] around the POST). *)
Inductive entered :=
  | Cached (tok : string)
  | Fetch (req : request).

Definition getAccessToken_enter (config : DingTalkConfig) (now : Z) (c : cache)
  : entered :=
  match accessToken c with
  | Some tok => if cache_hit c now then Cached tok else Fetch (request_of config)
  | None => Fetch (request_of config)
  end.

(** [getAccessToken] after the POST has answered: lines 184-186, with [now]
    the reading taken when the call was entered (line 172).  Returns the new
    cache and the token handed to the caller. *)
Definition getAccessToken_resume (now : Z) (resp : TokenInfo) (c : cache)
  : cache * string :=
  ({| accessToken := Some (data_accessToken resp);
      accessTokenExpiry := now + data_expireIn resp * 1000 |},
   data_accessToken resp).

(** *** Concurrent callers

    [retryWithBackoff] lives in [../utils]; what it yields to
    [getAccessToken] (the value of the attempt that succeeded, or the error
    it throws after the last attempt) is supplied by the environment as the
    [Response] and [Failure] events. *)

Inductive call_status :=
  | Awaiting (config : DingTalkConfig) (now : Z)
  | Returned (tok : string) (fetched : bool)
  | Threw.

Record sys := mkSys {
  store : cache;
  calls : list call_status;
  fetches : list request
}.

Definition init : sys :=
  {| store := empty_cache; calls := []; fetches := [] |}.

Inductive event :=
  | Call (config : DingTalkConfig) (now : Z)
  | Response (k : nat) (resp : TokenInfo)
  | Failure (k : nat).

Definition step (s : sys) (e : event) : option sys :=
  match e with
  | Call config now =>
      match getAccessToken_enter config now (store s) with
      | Cached tok =>
          Some {| store := store s;
                  calls := calls s ++ [Returned tok false];
                  fetches := fetches s |}
      | Fetch req =>
          Some {| store := store s;
                  calls := calls s ++ [Awaiting config now];
                  fetches := fetches s ++ [req] |}
      end
  | Response k resp =>
      match calls s !! k with
      | Some (Awaiting _ now) =>
          let '(c, tok) := getAccessToken_resume now resp (store s) in
          Some {| store := c;
                  calls := <[k := Returned tok true]> (calls s);
                  fetches := fetches s |}
      | _ => None
      end
  | Failure k =>
      match calls s !! k with
      | Some (Awaiting _ _) =>
          Some {| store := store s;
                  calls := <[k := Threw]> (calls s);
                  fetches := fetches s |}
      | _ => None
      end
  end.

Fixpoint run (s : sys) (es : list event) : option sys :=
  match es with
  | [] => Some s
  | e :: es' =>
      match step s e with
      | Some s' => run s' es'
      | None => None
      end
  end.

End Token.

(** * The card registry and the update throttler *)

Module Card.

Definition CARD_UPDATE_MIN_INTERVAL : Z := 500.
Definition CARD_UPDATE_TIMEOUT : Z := 60000.
Definition CARD_CACHE_TTL : Z := 60 * 60 * 1000.

(** [CardInstance] of [./types], as line 452 builds it. *)
Record CardInstance := mkCard {
  cardBizId : string;
  conversationId : string;
  createdAt : Z;
  lastUpdated : Z
}.

(** The closures handed to [setTimeout]: the delayed update of lines
    573-589, which carries the [text] of the call that armed it and the
    promise [p] that call returned, and the inactivity callback of lines
    562-565 and 579-582. *)
Inductive callback :=
  | DelayedUpdate (id text : string) (p : nat)
  | InactivityTimeout (id : string).

(** One entry of the runtime's timer table; a handle is its position.
    [live] is false once the timer has fired or has been cleared. *)
Record timer := mkTimer {
  armed_at : Z;
  delay : Z;
  action : callback;
  live : bool
}.

Inductive settled := Pending | Resolved | Rejected.

(** Who awaits an [updateInteractiveCard] call: a direct caller, or the
    throttled wrapper, which goes on to arm the inactivity timer. *)
Inductive caller := Direct | Throttled.

(** An [updateInteractiveCard] call whose network round trip is under way. *)
Record request := mkRequest {
  r_card : string;
  r_text : string;
  r_promise : nat;
  r_caller : caller;
  r_open : bool
}.

Record state := mkState {
  cardInstances : gmap string CardInstance;
  cardUpdateTimestamps : gmap string Z;
  cardUpdateTimeouts : gmap string nat;
  timers : list timer;
  inflight : list request;
  promises : list settled;
  dispatched : list (string * string * Z)
}.

Definition init : state :=
  {| cardInstances := ∅; cardUpdateTimestamps := ∅; cardUpdateTimeouts := ∅;
     timers := []; inflight := []; promises := []; dispatched := [] |}.

Definition with_instances (f : gmap string CardInstance → gmap string CardInstance)
  (s : state) : state :=
  mkState (f (cardInstances s)) (cardUpdateTimestamps s) (cardUpdateTimeouts s)
          (timers s) (inflight s) (promises s) (dispatched s).

Definition with_timestamps (f : gmap string Z → gmap string Z) (s : state) : state :=
  mkState (cardInstances s) (f (cardUpdateTimestamps s)) (cardUpdateTimeouts s)
          (timers s) (inflight s) (promises s) (dispatched s).

Definition with_timeouts (f : gmap string nat → gmap string nat) (s : state) : state :=
  mkState (cardInstances s) (cardUpdateTimestamps s) (f (cardUpdateTimeouts s))
          (timers s) (inflight s) (promises s) (dispatched s).

Definition with_timers (f : list timer → list timer) (s : state) : state :=
  mkState (cardInstances s) (cardUpdateTimestamps s) (cardUpdateTimeouts s)
          (f (timers s)) (inflight s) (promises s) (dispatched s).

Definition with_inflight (f : list request → list request) (s : state) : state :=
  mkState (cardInstances s) (cardUpdateTimestamps s) (cardUpdateTimeouts s)
          (timers s) (f (inflight s)) (promises s) (dispatched s).

Definition with_promises (f : list settled → list settled) (s : state) : state :=
  mkState (cardInstances s) (cardUpdateTimestamps s) (cardUpdateTimeouts s)
          (timers s) (inflight s) (f (promises s)) (dispatched s).

Definition with_dispatched (f : list (string * string * Z) → list (string * string * Z))
  (s : state) : state :=
  mkState (cardInstances s) (cardUpdateTimestamps s) (cardUpdateTimeouts s)
          (timers s) (inflight s) (promises s) (f (dispatched s)).

(** ** The runtime: timers and promises *)

Definition stop_timer (t : timer) : timer :=
  {| armed_at := armed_at t; delay := delay t; action := action t; live := false |}.

(** [setTimeout(cb, d)] at time [now]: a fresh handle. *)
Definition setTimeout (cb : callback) (d : Z) (now : Z) (s : state) : state * nat :=
  (with_timers (λ ts, ts ++ [mkTimer now d cb true]) s, length (timers s)).

(** [clearTimeout(h)]: no effect on a timer that has fired or was cleared. *)
Definition clearTimeout (h : nat) (s : state) : state :=
  with_timers (alter stop_timer h) s.

Definition new_promise (s : state) : state * nat :=
  (with_promises (λ ps, ps ++ [Pending]) s, length (promises s)).

Definition settle (p : nat) (v : settled) (s : state) : state :=
  with_promises (<[p := v]>) s.

(** ** [sendInteractiveCard], lines 451-457: the registration that follows
    a successful send.  The id is the fresh [card_<uuid>] of line 396. *)
Definition sendInteractiveCard_register (id conv : string) (now : Z) (s : state)
  : state :=
  with_instances (<[id := mkCard id conv now now]>) s.

(** ** [updateInteractiveCard] *)

(** What the awaited work yields: [getAccessToken] threw (line 469, outside
    the [try]), the PUT went through, or [retryWithBackoff] threw an error
    whose [err.response?.status] is [status]. *)
Inductive outcome :=
  | AuthFailed
  | PutOk
  | PutFailed (status : option Z).

Inductive result := Value | Thrown.

(** Line 529. *)
Definition is_terminal (status : option Z) : bool :=
  match status with
  | Some c => (c =? 404) || (c =? 410) || (c =? 403)
  | None => false
  end.

Definition touch (now : Z) (i : CardInstance) : CardInstance :=
  {| cardBizId := cardBizId i; conversationId := conversationId i;
     createdAt := createdAt i; lastUpdated := now |}.

(** The call itself: the update is dispatched and its round trip starts. *)
Definition updateInteractiveCard_call (id text : string) (p : nat) (who : caller)
  (now : Z) (s : state) : state :=
  with_inflight (λ rs, rs ++ [mkRequest id text p who true])
    (with_dispatched (λ d, d ++ [(id, text, now)]) s).

(** Lines 519-536: what the call does to the registry when the round trip is
    over, and whether it returns or throws. *)
Definition updateInteractiveCard_settle (id : string) (now : Z) (out : outcome)
  (reg : gmap string CardInstance) : gmap string CardInstance * result :=
  match out with
  | AuthFailed => (reg, Thrown)
  | PutOk => (alter (touch now) id reg, Value)
  | PutFailed status =>
      (if is_terminal status then delete id reg else reg, Thrown)
  end.

(** ** [updateInteractiveCardThrottled] *)

Definition lastUpdateOf (s : state) (id : string) : Z :=
  default 0 (cardUpdateTimestamps s !! id).

(** Lines 551-554. *)
Definition clear_existing (id : string) (s : state) : state :=
  match cardUpdateTimeouts s !! id with
  | Some h => clearTimeout h s
  | None => s
  end.

(** The synchronous part of a call, lines 546-558 and 571-592. *)
Definition updateInteractiveCardThrottled (id text : string) (now : Z) (s : state)
  : state :=
  let timeSinceLastUpdate := now - lastUpdateOf s id in
  let '(s1, p) := new_promise (clear_existing id s) in
  if CARD_UPDATE_MIN_INTERVAL <=? timeSinceLastUpdate then
    updateInteractiveCard_call id text p Throttled now
      (with_timestamps (<[id := now]>) s1)
  else
    let '(s2, h) := setTimeout (DelayedUpdate id text p)
                      (CARD_UPDATE_MIN_INTERVAL - timeSinceLastUpdate) now s1 in
    with_timeouts (<[id := h]>) s2.

(** Lines 562-568 and 579-585: after the awaited update returned. *)
Definition after_update (id : string) (p : nat) (now : Z) (s : state) : state :=
  let '(s1, h) := setTimeout (InactivityTimeout id) CARD_UPDATE_TIMEOUT now s in
  settle p Resolved (with_timeouts (<[id := h]>) s1).

(** A direct call of [updateInteractiveCard] (lines 616 and 793). *)
Definition updateInteractiveCard (id text : string) (now : Z) (s : state) : state :=
  let '(s1, p) := new_promise s in
  updateInteractiveCard_call id text p Direct now s1.

(** The round trip of request [k] is over. *)
Definition complete (k : nat) (out : outcome) (now : Z) (s : state) : option state :=
  match inflight s !! k with
  | Some r =>
      if r_open r then
        let s1 := with_inflight
                    (<[k := mkRequest (r_card r) (r_text r) (r_promise r) (r_caller r) false]>) s in
        let '(reg, res) :=
          updateInteractiveCard_settle (r_card r) now out (cardInstances s1) in
        let s2 := with_instances (λ _, reg) s1 in
        Some match res, r_caller r with
             | Value, Throttled => after_update (r_card r) (r_promise r) now s2
             | Value, Direct => settle (r_promise r) Resolved s2
             | Thrown, _ => settle (r_promise r) Rejected s2
             end
      else None
  | None => None
  end.

(** Timer [h] fires: it must be live and due. *)
Definition fire (h : nat) (now : Z) (s : state) : option state :=
  match timers s !! h with
  | Some t =>
      if live t && (armed_at t + delay t <=? now) then
        let s1 := with_timers (alter stop_timer h) s in
        Some match action t with
             | DelayedUpdate id text p =>
                 updateInteractiveCard_call id text p Throttled now
                   (with_timestamps (<[id := now]>) s1)
             | InactivityTimeout id => with_timeouts (delete id) s1
             end
      else None
  | None => None
  end.

(** ** [cleanupCardCache], lines 102-115 *)

Definition evict (id : string) (s : state) : state :=
  let s1 := with_timestamps (delete id) (with_instances (delete id) s) in
  match cardUpdateTimeouts s1 !! id with
  | Some h => with_timeouts (delete id) (clearTimeout h s1)
  | None => s1
  end.

Definition stale (now : Z) (instance : CardInstance) : bool :=
  CARD_CACHE_TTL <? now - lastUpdated instance.

Definition cleanupCardCache (now : Z) (s : state) : state :=
  map_fold (λ id instance acc, if stale now instance then evict id acc else acc)
           s (cardInstances s).

(** ** The event loop *)

Inductive event :=
  | Send (id conv : string) (now : Z)
  | Update (id text : string) (now : Z)
  | UpdateThrottled (id text : string) (now : Z)
  | Fire (h : nat) (now : Z)
  | Complete (k : nat) (out : outcome) (now : Z)
  | Cleanup (now : Z).

Definition step (s : state) (e : event) : option state :=
  match e with
  | Send id conv now => Some (sendInteractiveCard_register id conv now s)
  | Update id text now => Some (updateInteractiveCard id text now s)
  | UpdateThrottled id text now => Some (updateInteractiveCardThrottled id text now s)
  | Fire h now => fire h now s
  | Complete k out now => complete k out now s
  | Cleanup now => Some (cleanupCardCache now s)
  end.

Fixpoint run (s : state) (es : list event) : option state :=
  match es with
  | [] => Some s
  | e :: es' =>
      match step s e with
      | Some s' => run s' es'
      | None => None
      end
  end.

Definition reachable (s : state) : Prop := ∃ es, run init es = Some s.

(** ** Pending delayed updates *)

Definition is_delayed_for (id : string) (t : timer) : bool :=
  match action t with
  | DelayedUpdate id' _ _ => live t && bool_decide (id' = id)
  | InactivityTimeout _ => false
  end.

(** Every live delayed update for [id] is the timer that
    [cardUpdateTimeouts] holds for [id]. *)
Definition tracked (s : state) (id : string) : bool :=
  forallb (λ '(h, t), negb (is_delayed_for id t)
                      || bool_decide (cardUpdateTimeouts s !! id = Some h))
          (imap pair (timers s)).

(** The timer a throttled call arms when it is inside the interval. *)
Definition delayed_timer (id text : string) (now : Z) (s : state) : timer :=
  mkTimer now (CARD_UPDATE_MIN_INTERVAL - (now - lastUpdateOf s id))
          (DelayedUpdate id text (length (promises s))) true.

(** Whether the sweep at [now] evicts [id], going by the registry [reg]. *)
Definition swept (now : Z) (reg : gmap string CardInstance) (id : string) : bool :=
  from_option (stale now) false (reg !! id).

(** What holds of the sweep's accumulator [r] once it has visited the
    entries [visited] of the registry of [s]. *)
Definition sweep_inv (now : Z) (s r : state) (visited : gmap string CardInstance)
  : Prop :=
  (∀ j, cardInstances r !! j
        = if swept now visited j then None else cardInstances s !! j)
  ∧ (∀ j, cardUpdateTimestamps r !! j
          = if swept now visited j then None else cardUpdateTimestamps s !! j)
  ∧ (∀ j, cardUpdateTimeouts r !! j
          = if swept now visited j then None else cardUpdateTimeouts s !! j)
  ∧ (∀ h, timers r !! h = timers s !! h
          ∨ timers r !! h = stop_timer <$> timers s !! h)
  ∧ (∀ h j, swept now visited j = true → cardUpdateTimeouts s !! j = Some h →
            timers r !! h = stop_timer <$> timers s !! h)
  ∧ (∀ h, (∀ j, swept now visited j = true → cardUpdateTimeouts s !! j ≠ Some h) →
          timers r !! h = timers s !! h)
  ∧ inflight r = inflight s ∧ promises r = promises s
  ∧ dispatched r = dispatched s.

(** Whether a timer's callback settles promise [p]. *)
Definition refers_to (p : nat) (cb : callback) : bool :=
  match cb with
  | DelayedUpdate _ _ q => bool_decide (q = p)
  | InactivityTimeout _ => false
  end.

(** Promise [p] is pending and nothing can settle it any more: every timer
    whose callback holds it is cleared, and no open request holds it. *)
Definition orphaned (p : nat) (s : state) : Prop :=
  promises s !! p = Some Pending
  ∧ (∀ h t, timers s !! h = Some t → refers_to p (action t) = true → live t = false)
  ∧ (∀ k r, inflight s !! k = Some r → r_promise r = p → r_open r = false).

(** No timer and no request of [s] holds promise [p]. *)
Definition unreferenced (p : nat) (s : state) : bool :=
  forallb (λ t, negb (refers_to p (action t))) (timers s)
  && forallb (λ r, negb (bool_decide (r_promise r = p))) (inflight s).

(** A burst of throttled calls for one card, in order. *)
Definition burst (id : string) (cs : list (string * Z)) (s : state) : state :=
  foldl (λ acc c, updateInteractiveCardThrottled id c.1 c.2 acc) s cs.

End Card.

(** * Strings, as JavaScript has them

    A JavaScript string is a sequence of UTF-16 code units; [length],
    [slice], [split], [trim] and the regular expressions of this file all
    work on code units.  Literals of the source that are plain ASCII are
    written with [units]. *)

Module Js.

Definition units (s : string) : list N :=
  Ascii.N_of_ascii <$> String.list_ascii_of_string s.

(** [WhiteSpace] and [LineTerminator] of ECMAScript: what [trim] removes
    and what [\s] matches. *)
Definition is_space (c : N) : bool :=
  bool_decide (c ∈ [9; 10; 11; 12; 13; 32; 160; 5760; 8232; 8233; 8239; 8287;
                    12288; 65279]%N)
  || ((8192 <=? c) && (c <=? 8202))%N.

Fixpoint drop_while (f : N → bool) (s : list N) : list N :=
  match s with
  | [] => []
  | c :: s' => if f c then drop_while f s' else s
  end.

Fixpoint take_until (f : N → bool) (s : list N) : list N :=
  match s with
  | [] => []
  | c :: s' => if f c then [] else c :: take_until f s'
  end.

Definition trim (s : list N) : list N :=
  reverse (drop_while is_space (reverse (drop_while is_space s))).

(** Truthiness of a string, and of a [string | undefined]. *)
Definition nonempty (s : list N) : bool :=
  match s with [] => false | _ :: _ => true end.

Definition truthy (o : option (list N)) : bool :=
  match o with Some s => nonempty s | None => false end.

(** [o || d] for a [string | undefined] on the left. *)
Definition or_else (o : option (list N)) (d : list N) : list N :=
  match o with
  | Some (c :: s) => c :: s
  | _ => d
  end.

(** An ASCII letter matched without regard to case (flag [i]; no code unit
    outside ASCII is canonicalised to an ASCII one). *)
Definition fold_case (c : N) : N :=
  if ((65 <=? c) && (c <=? 90))%N then (c + 32)%N else c.

(** [s] starts with the lower-case ASCII pattern [pat], case ignored: what
    is left of [s] after it. *)
Fixpoint after_prefix_ci (pat s : list N) : option (list N) :=
  match pat, s with
  | [], _ => Some s
  | p :: pat', c :: s' =>
      if (fold_case c =? p)%N then after_prefix_ci pat' s' else None
  | _ :: _, [] => None
  end.

(** [s.replace(/^(dingtalk|dd|ding):/i, '')], lines 77, 878 and 885. *)
Definition strip_channel_prefix (s : list N) : list N :=
  match after_prefix_ci (units "dingtalk:") s with
  | Some r => r
  | None =>
      match after_prefix_ci (units "dd:") s with
      | Some r => r
      | None =>
          match after_prefix_ci (units "ding:") s with
          | Some r => r
          | None => s
          end
      end
  end.

(** [s.startsWith(p)]. *)
Fixpoint startsWith (p s : list N) : bool :=
  match p, s with
  | [], _ => true
  | a :: p', c :: s' => (a =? c)%N && startsWith p' s'
  | _ :: _, [] => false
  end.

(** The restriction of [toLowerCase] to ASCII, for the examples. *)
Definition ascii_lower (s : list N) : list N := fold_case <$> s.

End Js.

(** * Allow-lists, lines 61-99 *)

Module Allow.
Import Js.

Record NormalizedAllowFrom := mkAllow {
  entries : list (list N);
  entriesLower : list (list N);
  hasWildcard : bool;
  hasEntries : bool
}.

Section WithLowerCase.
(** [String.prototype.toLowerCase], which maps by the Unicode tables. *)
Variable toLowerCase : list N → list N.

Definition star : list N := units "*".

Definition normalizeAllowFrom (list : option (list (list N))) : NormalizedAllowFrom :=
  let entries := filter (λ v, nonempty v = true) (trim <$> default [] list) in
  let hasWildcard := bool_decide (star ∈ entries) in
  let normalized := strip_channel_prefix <$> filter (λ v, v ≠ star) entries in
  let normalizedLower := toLowerCase <$> normalized in
  {| entries := normalized;
     entriesLower := normalizedLower;
     hasWildcard := hasWildcard;
     hasEntries := bool_decide (0 < length entries)%nat |}.

Definition isSenderAllowed (allow : NormalizedAllowFrom) (senderId : option (list N))
  : bool :=
  if negb (hasEntries allow) then true
  else if hasWildcard allow then true
  else match senderId with
       | Some (c :: s) =>
           if bool_decide (toLowerCase (c :: s) ∈ entriesLower allow) then true
           else false
       | _ => false
       end.

End WithLowerCase.
End Allow.

(** * Markdown detection and titles, lines 133-152 *)

Module Markdown.
Import Js.

(** The fields of [SendMessageOptions] the code reads. *)
Record SendMessageOptions := mkOptions {
  useMarkdown : option bool;
  title : option (list N);
  atUserId : option (list N)
}.

Definition no_options : SendMessageOptions :=
  {| useMarkdown := None; title := None; atUserId := None |}.

(** [[#*>-]] at the start of the text. *)
Definition is_leader (c : N) : bool :=
  bool_decide (c ∈ [35; 42; 62; 45]%N).

(** [[*_`#[\]]] anywhere in the text. *)
Definition is_markup (c : N) : bool :=
  bool_decide (c ∈ [42; 95; 96; 35; 91; 93]%N).

(** [[#*\s\->]], the characters stripped in front of a title. *)
Definition is_title_junk (c : N) : bool :=
  bool_decide (c ∈ [35; 42; 45; 62]%N) || is_space c.

Definition is_newline (c : N) : bool := (c =? 10)%N.

(** [/^[#*>-]|[*_`#[\]]/.test(text) || text.includes('\n')]. *)
Definition hasMarkdown (text : list N) : bool :=
  (match text with c :: _ => is_leader c | [] => false end
   || existsb is_markup text)
  || existsb is_newline text.

(** [text.split('\n')[0].replace(/^[#*\s\->]+/, '').slice(0, 20)]. *)
Definition title_of_text (text : list N) : list N :=
  take 20 (drop_while is_title_junk (take_until is_newline text)).

Definition detectMarkdownAndExtractTitle (text : list N) (options : SendMessageOptions)
  (defaultTitle : list N) : bool * list N :=
  let useMd :=
    match useMarkdown options with
    | Some false => false
    | Some true => true
    | None => hasMarkdown text
    end in
  let t :=
    or_else (title options)
      (if useMd then or_else (Some (title_of_text text)) defaultTitle
       else defaultTitle) in
  (useMd, t).

End Markdown.

(** * Targets, lines 878-899 *)

Module Target.
Import Js.

(** [\w] or [-]. *)
Definition is_id_char (c : N) : bool :=
  (((48 <=? c) && (c <=? 57)) || ((65 <=? c) && (c <=? 90))
   || ((97 <=? c) && (c <=? 122)) || (c =? 95) || (c =? 45))%N.

(** [/^[\w-]+$/.test(id)]. *)
Definition looksLikeId (id : list N) : bool :=
  nonempty id && forallb is_id_char id.

Definition normalizeEntry (raw : list N) : list N := strip_channel_prefix raw.

(** [target ? { targetId: ... } : null]. *)
Definition normalizeTarget (target : option (list N)) : option (list N) :=
  match target with
  | Some (c :: s) => Some (strip_channel_prefix (c :: s))
  | _ => None
  end.

(** [resolveTarget]: the trimmed target, or the error. *)
Definition resolveTarget (to : option (list N)) : option (list N) :=
  match trim <$> to with
  | Some (c :: s) => Some (c :: s)
  | _ => None
  end.

End Target.

(** * Configuration and accounts, lines 154-168 and 849-883 *)

Module Config.
Import Js.

(** The [channels.dingtalk] section, with the fields this file reads.  An
    account under [accounts] has the same shape.  [accounts] lists the own
    properties of the object in the order [Object.keys] reports them. *)
#[local] Unset Elimination Schemes.
Inductive DingTalkConfig := mkSection {
  clientId : option (list N);
  clientSecret : option (list N);
  robotCode : option (list N);
  dmPolicy : option (list N);
  allowFrom : option (list (list N));
  groupPolicy : option (list N);
  enabled : option bool;
  accounts : option (list (list N * DingTalkConfig))
}.
#[local] Set Elimination Schemes.

(** [{} as DingTalkConfig]. *)
Definition empty : DingTalkConfig :=
  mkSection None None None None None None None None.

(** The own property [key] of [obj], if it has one. *)
Fixpoint own_property {A} (key : list N) (obj : list (list N * A)) : option A :=
  match obj with
  | [] => None
  | (k, v) :: obj' => if bool_decide (k = key) then Some v else own_property key obj'
  end.

(** The property names a plain object inherits from [Object.prototype]
    (ECMA-262, 20.1.3 and B.2.2.1).  Each holds a function, and [__proto__]
    reads as the prototype itself: all are truthy. *)
Definition Object_prototype_keys : list (list N) :=
  units <$> ["constructor"; "hasOwnProperty"; "isPrototypeOf";
             "propertyIsEnumerable"; "toLocaleString"; "toString"; "valueOf";
             "__proto__"; "__defineGetter__"; "__defineSetter__";
             "__lookupGetter__"; "__lookupSetter__"]%string.

(** An inherited value read as a [DingTalkConfig]: a function of
    [Object.prototype], or the prototype itself, has none of the fields
    above. *)
Definition inherited : DingTalkConfig := empty.

(** [accounts[key]] for the plain object [accounts]: an own property, else
    what the prototype holds under that name, else [undefined]. *)
Definition account_at (key : list N) (accounts : list (list N * DingTalkConfig))
  : option DingTalkConfig :=
  match own_property key accounts with
  | Some account => Some account
  | None => if bool_decide (key ∈ Object_prototype_keys) then Some inherited else None
  end.

(** [cfg] is [cfg?.channels?.dingtalk]. *)
Definition getConfig (cfg : option DingTalkConfig) (accountId : option (list N))
  : DingTalkConfig :=
  match cfg with
  | None => empty
  | Some dingtalkCfg =>
      match accountId with
      | Some (c :: s) =>
          match accounts dingtalkCfg ≫= account_at (c :: s) with
          | Some account => account
          | None => dingtalkCfg
          end
      | _ => dingtalkCfg
      end
  end.

Definition isConfigured (cfg : option DingTalkConfig) (accountId : option (list N))
  : bool :=
  let config := getConfig cfg accountId in
  truthy (clientId config) && truthy (clientSecret config).

Definition default_id : list N := units "default".

Definition listAccountIds (cfg : option DingTalkConfig) : list (list N) :=
  let config := getConfig cfg None in
  match accounts config with
  | Some accs => accs.*1
  | None => if isConfigured cfg None then [default_id] else []
  end.

Record ResolvedAccount := mkResolved {
  accountId : list N;
  config : DingTalkConfig;
  account_enabled : bool
}.

(** [x.enabled !== false]. *)
Definition not_disabled (c : DingTalkConfig) : bool :=
  match enabled c with Some false => false | _ => true end.

Definition resolveAccount (cfg : option DingTalkConfig) (accountId : option (list N))
  : ResolvedAccount :=
  let config := getConfig cfg None in
  let id := or_else accountId default_id in
  match accounts config ≫= account_at id with
  | Some account => mkResolved id account (not_disabled account)
  | None => mkResolved default_id config (not_disabled config)
  end.

(** The [isConfigured] of the plugin's [config] block, line 863. *)
Definition account_isConfigured (account : ResolvedAccount) : bool :=
  truthy (clientId (config account)) && truthy (clientSecret (config account)).

End Config.

(** * Inbound messages, lines 298-345 and 634-691 *)

Module Inbound.
Import Js.

Record RichTextPart := mkPart {
  part_type : list N;
  part_text : option (list N);
  atName : option (list N)
}.

(** [data.content]. *)
Record Content := mkContent {
  richText : option (list RichTextPart);
  downloadCode : option (list N);
  recognition : option (list N);
  fileName : option (list N)
}.

(** The fields of [DingTalkInboundMessage] read before routing;
    [text_content] is [data.text?.content]. *)
Record DingTalkInboundMessage := mkInbound {
  msgtype : option (list N);
  text_content : option (list N);
  content : option Content;
  senderId : option (list N);
  senderStaffId : option (list N);
  chatbotUserId : option (list N);
  conversationType : option (list N);
  conversationId : option (list N)
}.

Record MessageContent := mkMessage {
  text : list N;
  mediaPath : option (list N);
  mediaType : option (list N);
  messageType : list N
}.

(** The bracketed placeholders of the source, by code unit. *)
Definition RICH_TEXT : list N := [91; 23500; 25991; 26412; 28040; 24687; 93]%N.
Definition PICTURE : list N := [91; 22270; 29255; 93]%N.
Definition VOICE : list N := [91; 35821; 38899; 28040; 24687; 93]%N.
Definition VIDEO : list N := [91; 35270; 39057; 93]%N.
Definition FILE : list N := [25991; 20214]%N.
Definition MESSAGE_SUFFIX : list N := [28040; 24687; 93]%N.

(** One turn of the loop of lines 310-313. *)
Definition append_part (acc : list N) (part : RichTextPart) : list N :=
  let acc1 :=
    if bool_decide (part_type part = units "text") && truthy (part_text part)
    then acc ++ default [] (part_text part) else acc in
  if bool_decide (part_type part = units "at") && truthy (atName part)
  then acc1 ++ [64%N] ++ default [] (atName part) ++ [32%N] else acc1.

Definition extractMessageContent (data : DingTalkInboundMessage) : MessageContent :=
  let msgtype := or_else (msgtype data) (units "text") in
  let code := content data ≫= downloadCode in
  if bool_decide (msgtype = units "text") then
    mkMessage (or_else (trim <$> text_content data) []) None None (units "text")
  else if bool_decide (msgtype = units "richText") then
    let parts := default [] (content data ≫= richText) in
    mkMessage (or_else (Some (trim (foldl append_part [] parts))) RICH_TEXT)
              None None (units "richText")
  else if bool_decide (msgtype = units "picture") then
    mkMessage PICTURE code (Some (units "image")) (units "picture")
  else if bool_decide (msgtype = units "audio") then
    mkMessage (or_else (content data ≫= recognition) VOICE)
              code (Some (units "audio")) (units "audio")
  else if bool_decide (msgtype = units "video") then
    mkMessage VIDEO code (Some (units "video")) (units "video")
  else if bool_decide (msgtype = units "file") then
    mkMessage ([91%N] ++ FILE ++ [58; 32]%N
               ++ or_else (content data ≫= fileName) FILE ++ [93%N])
              code (Some (units "file")) (units "file")
  else
    mkMessage (or_else (trim <$> text_content data)
                       ([91%N] ++ msgtype ++ MESSAGE_SUFFIX))
              None None msgtype.

(** [a || b] on two [string | undefined]. *)
Definition first_truthy (a b : option (list N)) : option (list N) :=
  match a with
  | Some (c :: s) => Some (c :: s)
  | _ => b
  end.

(** How [handleDingTalkMessage] disposes of a message before routing it,
    lines 640-691. *)
Inductive verdict :=
  | IgnoredSelf
  | IgnoredEmpty
  | Blocked (sender : option (list N))
  | Accepted (isDirect : bool) (sender : option (list N)) (to : option (list N))
             (commandAuthorized : bool).

Section WithLowerCase.
Variable toLowerCase : list N → list N.

Definition dispose (dingtalkConfig : Config.DingTalkConfig)
  (data : DingTalkInboundMessage) : verdict :=
  if bool_decide (senderId data = chatbotUserId data)
     || bool_decide (senderStaffId data = chatbotUserId data)
  then IgnoredSelf
  else if negb (nonempty (text (extractMessageContent data))) then IgnoredEmpty
  else
    let isDirect := bool_decide (conversationType data = Some (units "1")) in
    let sender := first_truthy (senderStaffId data) (senderId data) in
    let to := if isDirect then sender else conversationId data in
    if isDirect then
      let dmPolicy := or_else (Config.dmPolicy dingtalkConfig) (units "open") in
      if bool_decide (dmPolicy = units "allowlist") then
        if Allow.isSenderAllowed toLowerCase
             (Allow.normalizeAllowFrom toLowerCase
                (Some (default [] (Config.allowFrom dingtalkConfig))))
             sender
        then Accepted isDirect sender to true
        else Blocked sender
      else Accepted isDirect sender to true
    else Accepted isDirect sender to true.

End WithLowerCase.
End Inbound.

(** * The extension of a downloaded file, line 286 *)

Module Media.
Import Js.

Definition is_slash (c : N) : bool := (c =? 47)%N.
Definition is_semicolon (c : N) : bool := (c =? 59)%N.

(** What follows the first separator, if there is one. *)
Definition after_first (f : N → bool) (s : list N) : option (list N) :=
  match drop_while (λ c, negb (f c)) s with
  | [] => None
  | _ :: r => Some r
  end.

(** [contentType.split('/')[1]?.split(';')[0] || 'bin']. *)
Definition extension (contentType : list N) : list N :=
  match after_first is_slash contentType with
  | Some rest =>
      or_else (Some (take_until is_semicolon (take_until is_slash rest)))
              (units "bin")
  | None => units "bin"
  end.

End Media.

(** * [stopCardCacheCleanup], lines 120-131 *)

Module Shutdown.
Import Card.

(** The sweep's interval is held in [cleanupIntervalId]; the timers are
    those of the card state. *)
Definition stopCardCacheCleanup (cleanupIntervalId : option nat) (s : state)
  : option nat * state :=
  (None,
   with_timeouts (λ _, ∅)
     (map_fold (λ _ h acc, clearTimeout h acc) s (cardUpdateTimeouts s))).

End Shutdown.

(** * Invariants of runs *)

Module Runs.

(** The tokens the token endpoint has answered with in a run. *)
Fixpoint answered (es : list Token.event) : list string :=
  match es with
  | [] => []
  | Token.Response _ resp :: es' => data_accessToken resp :: answered es'
  | _ :: es' => answered es'
  end.

(** An event of the token cache that is not an answer: a call entered no
    earlier than [since], or a failed fetch. *)
Definition unanswered (since : Z) (e : Token.event) : Prop :=
  match e with
  | Token.Call _ now => since ≤ now
  | Token.Failure _ => True
  | Token.Response _ _ => False
  end.

Definition is_send (e : Card.event) : bool :=
  match e with
  | Card.Send _ _ _ => true
  | _ => false
  end.

(** The timer belongs to the card: it is the card's inactivity timer or a
    delayed update of the card. *)
Definition timer_of (id : string) (t : Card.timer) : Prop :=
  match Card.action t with
  | Card.InactivityTimeout id' => id' = id
  | Card.DelayedUpdate id' _ _ => id' = id
  end.

(** Every entry of [cardUpdateTimeouts] names a timer of its card, and
    every promise held by a timer or by a request has been created. *)
Definition well_formed (s : Card.state) : Prop :=
  (∀ id h, Card.cardUpdateTimeouts s !! id = Some h →
           ∃ t, Card.timers s !! h = Some t ∧ timer_of id t)
  ∧ (∀ h t id text p, Card.timers s !! h = Some t →
                      Card.action t = Card.DelayedUpdate id text p →
                      (p < length (Card.promises s))%nat)
  ∧ (∀ k r, Card.inflight s !! k = Some r →
            (Card.r_promise r < length (Card.promises s))%nat).

(** A promise held by a live timer is pending, no other timer holds it and
    no request does: it can be settled only through that timer. *)
Definition sole_holder (s : Card.state) : Prop :=
  ∀ h t p, Card.timers s !! h = Some t → Card.live t = true →
           Card.refers_to p (Card.action t) = true →
           Card.promises s !! p = Some Card.Pending
           ∧ (∀ h' t', Card.timers s !! h' = Some t' →
                       Card.refers_to p (Card.action t') = true → h' = h)
           ∧ (∀ k r, Card.inflight s !! k = Some r → Card.r_promise r ≠ p).

End Runs.

(** * Properties of the access-token cache *)

Section TokenFacts.
Import Token.

Lemma truthy_Some tok : truthy (Some tok) = true ↔ tok ≠ EmptyString.
Proof. destruct tok; simpl; split; congruence. Qed.

Lemma cache_hit_true c now :
  cache_hit c now = true ↔
  ∃ tok, accessToken c = Some tok ∧ tok ≠ EmptyString ∧ now + 60000 < accessTokenExpiry c.
Proof.
  unfold cache_hit. rewrite andb_true_iff, Z.ltb_lt. split.
  - intros [Ht Hlt]. destruct (accessToken c) as [tok|] eqn:E; [|discriminate].
    exists tok. by rewrite <- truthy_Some.
  - intros (tok & -> & Hne & Hlt). by rewrite truthy_Some.
Qed.

Lemma enter_hit config now c tok :
  accessToken c = Some tok → cache_hit c now = true →
  getAccessToken_enter config now c = Cached tok.
Proof. unfold getAccessToken_enter. by intros -> ->. Qed.

Lemma enter_miss config now c :
  cache_hit c now = false →
  getAccessToken_enter config now c = Fetch (request_of config).
Proof. unfold getAccessToken_enter. intros ->. by destruct (accessToken c). Qed.

Lemma enter_cached_inv config now c tok :
  getAccessToken_enter config now c = Cached tok →
  accessToken c = Some tok ∧ cache_hit c now = true.
Proof.
  unfold getAccessToken_enter.
  destruct (accessToken c) as [t|]; [|discriminate].
  destruct (cache_hit c now); [|discriminate].
  by intros [= ->].
Qed.

(** C3, as amended.  A call of [getAccessToken] returns the cached token,
    with no fetch, exactly when a non-empty token is cached and
    [now + 60000] is strictly before its expiry; otherwise it starts a fetch
    with the caller's credentials.  A token returned from the cache is
    therefore valid for more than the safety margin past the call.  A
    fetched token is stored with expiry [now + expireIn * 1000], [now] being
    the reading taken when the call was entered, and is handed back as it
    came, whatever its lifetime. *)
Theorem getAccessToken_cached_or_fetched (s : sys) (config : DingTalkConfig) (now : Z) :
  (∀ tok, accessToken (store s) = Some tok → tok ≠ EmptyString →
          now + 60000 < accessTokenExpiry (store s) →
          step s (Call config now)
          = Some (mkSys (store s) (calls s ++ [Returned tok false]) (fetches s)))
  ∧ (¬ (∃ tok, accessToken (store s) = Some tok ∧ tok ≠ EmptyString
               ∧ now + 60000 < accessTokenExpiry (store s)) →
     step s (Call config now)
     = Some (mkSys (store s) (calls s ++ [Awaiting config now])
                   (fetches s ++ [request_of config])))
  ∧ (∀ s' tok, step s (Call config now) = Some s' →
               last (calls s') = Some (Returned tok false) →
               fetches s' = fetches s ∧ accessToken (store s') = Some tok
               ∧ now + 60000 < accessTokenExpiry (store s'))
  ∧ (∀ k cfg t0 resp, calls s !! k = Some (Awaiting cfg t0) →
       step s (Response k resp)
       = Some (mkSys (mkCache (Some (data_accessToken resp))
                              (t0 + data_expireIn resp * 1000))
                     (<[k := Returned (data_accessToken resp) true]> (calls s))
                     (fetches s))).
Proof.
  split; [|split; [|split]].
  - intros tok Htok Hne Hlt. simpl.
    rewrite (enter_hit _ _ _ tok); [done | done |].
    apply cache_hit_true. eauto.
  - intros Hno. simpl. rewrite enter_miss; [done|].
    destruct (cache_hit (store s) now) eqn:E; [|done].
    apply cache_hit_true in E. contradiction.
  - intros s' tok. simpl.
    destruct (getAccessToken_enter config now (store s)) eqn:E;
      intros [= <-]; simpl; rewrite last_snoc; intros [= ]; subst.
    apply enter_cached_inv in E as [Htok E].
    apply cache_hit_true in E as (? & _ & _ & ?). done.
  - intros k cfg t0 resp Hk. simpl. by rewrite Hk.
Qed.

Lemma getAccessToken_cached_or_fetched_witness :
  let s := mkSys (mkCache (Some "tok") 100000) [] [] in
  step s (Call cfgA 1000) = Some (mkSys (store s) [Returned "tok" false] []).
Proof.
  intros s.
  apply (proj1 (getAccessToken_cached_or_fetched s cfgA 1000) "tok");
    [reflexivity | discriminate | simpl; lia].
Defined.

(** C3, counterexample: a token fetched with [expireIn = 30] is returned to
    the caller although it expires 30 s after the call was entered, less
    than the safety margin. *)
Lemma short_lived_token_is_returned :
  ∃ s, run init [Call cfgA 1000; Response 0 (mkTokenInfo "tok" 30)] = Some s
       ∧ calls s !! 0%nat = Some (Returned "tok" true)
       ∧ ¬ (1000 + 60000 ≤ accessTokenExpiry (store s)).
Proof. eexists. split; [reflexivity|]. split; [reflexivity|]. simpl. lia. Qed.

(** C2, as amended.  There is no single-flight: every call entered while
    the cache holds no valid token starts a fetch of its own, so [N] such
    calls entered before any fetch has answered start [N] fetches, and each
    call returns the token of its own fetch. *)
Theorem concurrent_misses_fetch_each (config : DingTalkConfig) (nows : list Z) (s : sys) :
  Forall (λ now, cache_hit (store s) now = false) nows →
  run s (map (Call config) nows)
  = Some (mkSys (store s) (calls s ++ map (Awaiting config) nows)
                (fetches s ++ replicate (length nows) (request_of config)))
  ∧ ∀ s' k cfg t0 resp, calls s' !! k = Some (Awaiting cfg t0) →
      ∃ s'', step s' (Response k resp) = Some s''
             ∧ calls s'' !! k = Some (Returned (data_accessToken resp) true).
Proof.
  intros Hmiss. split.
  - revert s Hmiss. induction nows as [|now nows IH]; intros s Hmiss.
    + simpl. rewrite !app_nil_r. by destruct s.
    + apply Forall_cons in Hmiss as [Hnow Hrest]. simpl.
      rewrite enter_miss by done.
      rewrite IH by done. simpl.
      by rewrite <- !app_assoc.
  - intros s' k cfg t0 resp Hk. simpl. rewrite Hk. eexists. split; [done|].
    simpl. apply list_lookup_insert_eq. by eapply lookup_lt_Some.
Qed.

Lemma concurrent_misses_fetch_each_witness :
  run init (map (Call cfgA) [1000; 1000; 1001])
  = Some (mkSys empty_cache
                [Awaiting cfgA 1000; Awaiting cfgA 1000; Awaiting cfgA 1001]
                [request_of cfgA; request_of cfgA; request_of cfgA]).
Proof.
  apply (concurrent_misses_fetch_each cfgA [1000; 1000; 1001] init).
  repeat constructor.
Defined.

(** C2, counterexample: two calls for one identity, entered at the same
    instant on an empty cache, start two fetches and return two different
    tokens. *)
Lemma two_concurrent_calls_two_fetches :
  ∃ s, run init [Call cfgA 1000; Call cfgA 1000;
                 Response 0 (mkTokenInfo "t1" 7200);
                 Response 1 (mkTokenInfo "t2" 7200)] = Some s
       ∧ fetches s = [request_of cfgA; request_of cfgA]
       ∧ length (fetches s) ≠ 1%nat
       ∧ calls s = [Returned "t1" true; Returned "t2" true].
Proof. eexists. split; [reflexivity|]. simpl. repeat split; done. Qed.

(** C6, as amended.  The cache is one module-level slot, not a map keyed by
    identity: while the cached token is valid, a call returns it whichever
    configuration the caller passes; a call that misses fetches with the
    caller's own [clientId] and [clientSecret]; and the answer of any fetch
    overwrites the one slot. *)
Theorem one_slot_for_all_identities (s : sys) (cfg1 cfg2 : DingTalkConfig) (now : Z) :
  (cache_hit (store s) now = true →
     step s (Call cfg1 now) = step s (Call cfg2 now)
     ∧ ∃ tok, accessToken (store s) = Some tok
              ∧ step s (Call cfg1 now)
                = Some (mkSys (store s) (calls s ++ [Returned tok false]) (fetches s)))
  ∧ (cache_hit (store s) now = false →
     step s (Call cfg1 now)
     = Some (mkSys (store s) (calls s ++ [Awaiting cfg1 now])
                   (fetches s ++ [mkRequest (clientId cfg1) (clientSecret cfg1)])))
  ∧ (∀ k t0 resp, calls s !! k = Some (Awaiting cfg1 t0) →
       ∃ s', step s (Response k resp) = Some s'
             ∧ accessToken (store s') = Some (data_accessToken resp)).
Proof.
  split; [|split].
  - intros Hc. pose proof Hc as (tok & Htok & Hne & Hlt)%cache_hit_true.
    simpl. rewrite !(enter_hit _ _ _ tok) by done. eauto.
  - intros Hmiss. simpl. by rewrite enter_miss.
  - intros k t0 resp Hk. simpl. rewrite Hk. by eexists.
Qed.

Lemma one_slot_for_all_identities_witness :
  let s := mkSys (mkCache (Some "token-of-B") 7201000) [] [request_of cfgB] in
  step s (Call cfgA 2000) = step s (Call cfgB 2000).
Proof.
  intros s.
  apply (proj1 (one_slot_for_all_identities s cfgA cfgB 2000)). reflexivity.
Defined.

(** C6, counterexample: a token fetched with identity B's credentials is
    returned to a later call made for identity A, with no fetch for A. *)
Lemma token_of_B_served_to_A :
  clientId cfgA ≠ clientId cfgB
  ∧ ∃ s, run init [Call cfgB 1000; Response 0 (mkTokenInfo "token-of-B" 7200);
                   Call cfgA 2000] = Some s
         ∧ calls s !! 1%nat = Some (Returned "token-of-B" false)
         ∧ fetches s = [request_of cfgB].
Proof. split; [discriminate|]. eexists. split; [reflexivity|]. split; reflexivity. Qed.

End TokenFacts.

(** * Properties of the registry and the throttler *)

Section CardFacts.
Import Card.

Implicit Types (s : state) (id text : string) (now : Z) (h k p : nat).

(** ** One throttled call *)

Lemma clear_existing_fields id s :
  cardInstances (clear_existing id s) = cardInstances s
  ∧ cardUpdateTimestamps (clear_existing id s) = cardUpdateTimestamps s
  ∧ cardUpdateTimeouts (clear_existing id s) = cardUpdateTimeouts s
  ∧ inflight (clear_existing id s) = inflight s
  ∧ promises (clear_existing id s) = promises s
  ∧ dispatched (clear_existing id s) = dispatched s
  ∧ length (timers (clear_existing id s)) = length (timers s).
Proof.
  unfold clear_existing. destruct (cardUpdateTimeouts s !! id); simpl;
    rewrite ?length_alter; done.
Qed.

Lemma throttled_immediate id text now s :
  CARD_UPDATE_MIN_INTERVAL ≤ now - lastUpdateOf s id →
  updateInteractiveCardThrottled id text now s
  = updateInteractiveCard_call id text (length (promises s)) Throttled now
      (with_timestamps (<[id := now]>)
         (with_promises (λ ps, ps ++ [Pending]) (clear_existing id s))).
Proof.
  intros Hge. unfold updateInteractiveCardThrottled, new_promise.
  destruct (clear_existing_fields id s) as (_ & _ & _ & _ & -> & _).
  by rewrite (proj2 (Z.leb_le _ _) Hge).
Qed.

Lemma throttled_delayed id text now s :
  now - lastUpdateOf s id < CARD_UPDATE_MIN_INTERVAL →
  updateInteractiveCardThrottled id text now s
  = with_timeouts (<[id := length (timers s)]>)
      (with_timers (λ ts, ts ++ [delayed_timer id text now s])
         (with_promises (λ ps, ps ++ [Pending]) (clear_existing id s))).
Proof.
  intros Hlt. unfold updateInteractiveCardThrottled, new_promise, setTimeout, delayed_timer.
  destruct (clear_existing_fields id s) as (_ & _ & _ & _ & -> & _ & Hlen).
  rewrite (proj2 (Z.leb_gt _ _) Hlt). simpl. by rewrite Hlen.
Qed.

Lemma immediate_dispatched id text now s :
  CARD_UPDATE_MIN_INTERVAL ≤ now - lastUpdateOf s id →
  dispatched (updateInteractiveCardThrottled id text now s)
  = dispatched s ++ [(id, text, now)].
Proof.
  intros Hge. rewrite throttled_immediate by done. simpl.
  by destruct (clear_existing_fields id s) as (_ & _ & _ & _ & _ & -> & _).
Qed.

Lemma immediate_lastUpdateOf id text now s :
  CARD_UPDATE_MIN_INTERVAL ≤ now - lastUpdateOf s id →
  lastUpdateOf (updateInteractiveCardThrottled id text now s) id = now.
Proof.
  intros Hge. rewrite throttled_immediate by done.
  unfold lastUpdateOf. simpl. by rewrite lookup_insert_eq.
Qed.

Lemma throttled_registry id text now s :
  cardInstances (updateInteractiveCardThrottled id text now s) = cardInstances s.
Proof.
  destruct (Z_lt_le_dec (now - lastUpdateOf s id) CARD_UPDATE_MIN_INTERVAL).
  - rewrite throttled_delayed by done. simpl. apply clear_existing_fields.
  - rewrite throttled_immediate by done. simpl. apply clear_existing_fields.
Qed.

Lemma fire_delayed h now s t id text p :
  timers s !! h = Some t → live t = true → action t = DelayedUpdate id text p →
  armed_at t + delay t ≤ now →
  fire h now s
  = Some (updateInteractiveCard_call id text p Throttled now
            (with_timestamps (<[id := now]>) (with_timers (alter stop_timer h) s))).
Proof.
  intros Ht Hlive Hact Hdue. unfold fire. rewrite Ht, Hlive, Hact.
  by rewrite (proj2 (Z.leb_le _ _) Hdue).
Qed.

Lemma fire_inactivity h now s t id :
  timers s !! h = Some t → live t = true → action t = InactivityTimeout id →
  armed_at t + delay t ≤ now →
  fire h now s
  = Some (with_timeouts (delete id) (with_timers (alter stop_timer h) s)).
Proof.
  intros Ht Hlive Hact Hdue. unfold fire. rewrite Ht, Hlive, Hact.
  by rewrite (proj2 (Z.leb_le _ _) Hdue).
Qed.

Lemma fire_dead h now s t :
  timers s !! h = Some t → live t = false → fire h now s = None.
Proof. intros Ht Hdead. unfold fire. by rewrite Ht, Hdead. Qed.

(** C8.  A throttled call reads the card's last recorded dispatch from
    [cardUpdateTimestamps] (line 547; a card with no entry counts as last
    dispatched at the epoch).  At least [CARD_UPDATE_MIN_INTERVAL] after it,
    the update is dispatched at once: it is handed to
    [updateInteractiveCard], its round trip is under way and the time is
    recorded.  A card with no recorded dispatch is therefore never
    throttled (the clock reads at least 500), also right after
    [sendInteractiveCard] registered it.  Otherwise nothing is dispatched
    now and nothing is recorded: a timer is armed with delay exactly
    [CARD_UPDATE_MIN_INTERVAL - elapsed]; it cannot fire before the interval
    is over, and when it fires it dispatches the call's text and records the
    time.  Two dispatches at least the interval apart, the first made by a
    call or by a timer, are both dispatched, in that order, and both round
    trips are under way. *)
Theorem throttled_now_or_after_remaining (s : state) (id text : string) (now : Z) :
  let s' := updateInteractiveCardThrottled id text now s in
  let last := default 0 (cardUpdateTimestamps s !! id) in
  let p := length (promises s) in
  let h := length (timers s) in
  (CARD_UPDATE_MIN_INTERVAL ≤ now - last →
     dispatched s' = dispatched s ++ [(id, text, now)]
     ∧ inflight s' = inflight s ++ [mkRequest id text p Throttled true]
     ∧ cardUpdateTimestamps s' !! id = Some now
     ∧ length (timers s') = length (timers s))
  ∧ (cardUpdateTimestamps s !! id = None → CARD_UPDATE_MIN_INTERVAL ≤ now →
     dispatched s' = dispatched s ++ [(id, text, now)]
     ∧ ∀ conv t0,
         dispatched (updateInteractiveCardThrottled id text now
                       (sendInteractiveCard_register id conv t0 s))
         = dispatched s ++ [(id, text, now)])
  ∧ (now - last < CARD_UPDATE_MIN_INTERVAL →
     dispatched s' = dispatched s
     ∧ inflight s' = inflight s
     ∧ cardUpdateTimestamps s' = cardUpdateTimestamps s
     ∧ cardUpdateTimeouts s' !! id = Some h
     ∧ timers s' !! h
       = Some (mkTimer now (CARD_UPDATE_MIN_INTERVAL - (now - last))
                       (DelayedUpdate id text p) true)
     ∧ ∀ t,
         (t < now + (CARD_UPDATE_MIN_INTERVAL - (now - last)) → fire h t s' = None)
         ∧ (now + (CARD_UPDATE_MIN_INTERVAL - (now - last)) ≤ t →
            ∃ s'', fire h t s' = Some s''
                   ∧ dispatched s'' = dispatched s ++ [(id, text, t)]
                   ∧ inflight s'' = inflight s ++ [mkRequest id text p Throttled true]
                   ∧ cardUpdateTimestamps s'' !! id = Some t
                   ∧ ∀ text2 now2, CARD_UPDATE_MIN_INTERVAL ≤ now2 - t →
                       dispatched (updateInteractiveCardThrottled id text2 now2 s'')
                       = dispatched s ++ [(id, text, t); (id, text2, now2)]))
  ∧ (∀ text2 now2,
       CARD_UPDATE_MIN_INTERVAL ≤ now - last →
       CARD_UPDATE_MIN_INTERVAL ≤ now2 - now →
       dispatched (updateInteractiveCardThrottled id text2 now2 s')
       = dispatched s ++ [(id, text, now); (id, text2, now2)]
       ∧ inflight (updateInteractiveCardThrottled id text2 now2 s')
         = inflight s ++ [mkRequest id text p Throttled true;
                          mkRequest id text2 (S p) Throttled true]).
Proof.
  intros s' last p h. subst s' last p h.
  change (default 0 (cardUpdateTimestamps s !! id)) with (lastUpdateOf s id).
  destruct (clear_existing_fields id s) as (_ & Hts & _ & Hin & Hpr & Hd & Hlen).
  split; [|split; [|split]].
  - intros Hge. rewrite throttled_immediate by done. simpl.
    rewrite Hd, Hin, lookup_insert_eq, Hlen. done.
  - intros Hnone Hnow.
    assert (Hlast : lastUpdateOf s id = 0) by (unfold lastUpdateOf; by rewrite Hnone).
    split; [apply immediate_dispatched; lia|].
    intros conv t0. rewrite immediate_dispatched; [done|].
    unfold lastUpdateOf. simpl. rewrite Hnone. simpl. lia.
  - intros Hlt. rewrite throttled_delayed by done. unfold delayed_timer. simpl.
    split; [done|]. split; [done|]. split; [done|].
    split; [by rewrite lookup_insert_eq|].
    assert (Hnew : (timers (clear_existing id s)
                    ++ [mkTimer now (CARD_UPDATE_MIN_INTERVAL - (now - lastUpdateOf s id))
                          (DelayedUpdate id text (length (promises s))) true])
                   !! length (timers s)
                   = Some (mkTimer now (CARD_UPDATE_MIN_INTERVAL - (now - lastUpdateOf s id))
                             (DelayedUpdate id text (length (promises s))) true)).
    { rewrite <- Hlen. apply list_lookup_middle. done. }
    split; [done|].
    intros t. split.
    + intros Hearly. unfold fire. simpl. rewrite Hnew. simpl.
      by rewrite (proj2 (Z.leb_gt _ _) Hearly).
    + intros Hdue. eexists. split.
      { eapply fire_delayed; [exact Hnew | done | done | done]. }
      simpl. rewrite Hd, Hin, lookup_insert_eq.
      split; [done|]. split; [done|]. split; [done|].
      intros text2 now2 Hge2. rewrite immediate_dispatched.
      * simpl. rewrite Hd. by rewrite <- app_assoc.
      * unfold lastUpdateOf. simpl. by rewrite lookup_insert_eq.
  - intros text2 now2 Hge1 Hge2.
    assert (Hge3 : CARD_UPDATE_MIN_INTERVAL
                   ≤ now2 - lastUpdateOf (updateInteractiveCardThrottled id text now s) id).
    { by rewrite immediate_lastUpdateOf. }
    split.
    + rewrite immediate_dispatched by done.
      rewrite immediate_dispatched by done. by rewrite <- app_assoc.
    + rewrite (throttled_immediate id text2 now2) by done. simpl.
      destruct (clear_existing_fields id (updateInteractiveCardThrottled id text now s))
        as (_ & _ & _ & -> & _).
      rewrite throttled_immediate by done. simpl.
      rewrite Hin, length_app, <- app_assoc. simpl.
      by rewrite Hpr, Nat.add_1_r.
Qed.

Lemma throttled_now_or_after_remaining_witness :
  let s := updateInteractiveCardThrottled "card" "a" 1000 init in
  let s' := updateInteractiveCardThrottled "card" "b" 1100 s in
  dispatched (updateInteractiveCardThrottled "card" "b" 1600 s)
  = dispatched init ++ [("card", "a", 1000); ("card", "b", 1600)]
  ∧ dispatched s' = dispatched s
  ∧ fire (length (timers s)) 1499 s' = None
  ∧ ∃ s'', fire (length (timers s)) 1500 s' = Some s''
           ∧ dispatched s'' = dispatched s ++ [("card", "b", 1500)].
Proof.
  intros s s'.
  destruct (throttled_now_or_after_remaining init "card" "a" 1000)
    as (_ & _ & _ & Htwo).
  destruct (throttled_now_or_after_remaining s "card" "b" 1100)
    as (_ & _ & Hlate & _).
  split.
  { apply (Htwo "b" 1600); vm_compute; discriminate. }
  destruct (Hlate ltac:(vm_compute; reflexivity)) as (Hd & _ & _ & _ & _ & Hfire).
  split; [exact Hd|]. split.
  - apply (proj1 (Hfire 1499)). vm_compute. reflexivity.
  - destruct (proj2 (Hfire 1500) ltac:(vm_compute; discriminate))
      as (s'' & Hs'' & Hd'' & _).
    exists s''. split; [exact Hs'' | exact Hd''].
Defined.

(** ** [updateInteractiveCard] and terminal statuses *)

Lemma is_terminal_true status :
  is_terminal status = true ↔ status = Some 404 ∨ status = Some 410 ∨ status = Some 403.
Proof.
  unfold is_terminal. destruct status as [c|].
  - rewrite !orb_true_iff, !Z.eqb_eq. split.
    + intros [[->| ->]| ->]; auto.
    + intros [[= ->]|[[= ->]|[= ->]]]; auto.
  - split; [discriminate|]. intros [?|[?|?]]; discriminate.
Qed.

(** C5.  When the card-update call fails with status 404, 410 or 403, the
    card's record is removed from [cardInstances] and the error is thrown on
    to the caller (the caller's promise is rejected); with any other status,
    or none, [cardInstances] is left exactly as it was, [lastUpdated]
    included, and the error is thrown on all the same. *)
Theorem terminal_status_evicts (s : state) (k : nat) (r : request) (now : Z)
    (status : option Z) :
  inflight s !! k = Some r → r_open r = true →
  (r_promise r < length (promises s))%nat →
  ∃ s', complete k (PutFailed status) now s = Some s'
        ∧ promises s' !! r_promise r = Some Rejected
        ∧ (status = Some 404 ∨ status = Some 410 ∨ status = Some 403 →
           updateInteractiveCard_settle (r_card r) now (PutFailed status) (cardInstances s)
           = (delete (r_card r) (cardInstances s), Thrown)
           ∧ cardInstances s' = delete (r_card r) (cardInstances s)
           ∧ cardInstances s' !! r_card r = None)
        ∧ (¬ (status = Some 404 ∨ status = Some 410 ∨ status = Some 403) →
           updateInteractiveCard_settle (r_card r) now (PutFailed status) (cardInstances s)
           = (cardInstances s, Thrown)
           ∧ cardInstances s' = cardInstances s).
Proof.
  intros Hk Hopen Hp. unfold complete. rewrite Hk, Hopen. simpl.
  eexists. split; [reflexivity|]. simpl.
  split; [by apply list_lookup_insert_eq|].
  split.
  - intros Hterm%is_terminal_true. rewrite Hterm.
    repeat split. apply lookup_delete_eq.
  - intros Hnot. destruct (is_terminal status) eqn:E.
    + apply is_terminal_true in E. contradiction.
    + done.
Qed.

Lemma terminal_status_evicts_witness :
  ∃ s, run init [Send "card" "conv" 1000; Update "card" "text" 2000] = Some s
       ∧ ∃ s', complete 0 (PutFailed (Some 404)) 2100 s = Some s'
               ∧ promises s' !! 0%nat = Some Rejected.
Proof.
  exists (updateInteractiveCard "card" "text" 2000
            (sendInteractiveCard_register "card" "conv" 1000 init)).
  split; [reflexivity|].
  destruct (terminal_status_evicts
              (updateInteractiveCard "card" "text" 2000
                 (sendInteractiveCard_register "card" "conv" 1000 init))
              0 (mkRequest "card" "text" 0 Direct true) 2100 (Some 404))
    as (s' & Hs' & Hp & _);
    [vm_compute; reflexivity | vm_compute; reflexivity | vm_compute; lia |].
  exists s'. split; [exact Hs' | exact Hp].
Defined.

(** ** Inactivity and unknown cards *)

(** C4, as amended.  When a card's inactivity timer fires, the one effect is
    that the card's entry leaves [cardUpdateTimeouts]: the registry, the
    recorded dispatch time and the dispatch log are as before, and no
    finalized state is recorded anywhere.  A later throttled call for that
    card, like a throttled call for a card the registry does not know, is
    not refused: at least [CARD_UPDATE_MIN_INTERVAL] after the last recorded
    dispatch it is dispatched at once, and the registry is not consulted. *)
Theorem inactivity_only_drops_timer_entry (s : state) (h : nat) (t : timer)
    (id : string) (now : Z) :
  timers s !! h = Some t → live t = true → action t = InactivityTimeout id →
  armed_at t + delay t ≤ now →
  (∃ s', fire h now s = Some s'
         ∧ cardInstances s' = cardInstances s
         ∧ cardUpdateTimestamps s' = cardUpdateTimestamps s
         ∧ cardUpdateTimeouts s' = delete id (cardUpdateTimeouts s)
         ∧ dispatched s' = dispatched s
         ∧ ∀ text now', CARD_UPDATE_MIN_INTERVAL ≤ now' - lastUpdateOf s id →
             dispatched (updateInteractiveCardThrottled id text now' s')
             = dispatched s ++ [(id, text, now')])
  ∧ (∀ s0 id0 text now', cardInstances s0 !! id0 = None →
       CARD_UPDATE_MIN_INTERVAL ≤ now' - lastUpdateOf s0 id0 →
       dispatched (updateInteractiveCardThrottled id0 text now' s0)
       = dispatched s0 ++ [(id0, text, now')]
       ∧ cardInstances (updateInteractiveCardThrottled id0 text now' s0) !! id0 = None).
Proof.
  intros Ht Hlive Hact Hdue. split.
  - rewrite (fire_inactivity h now s t id) by done.
    eexists. split; [reflexivity|]. simpl. repeat split.
    intros text now' Hge. by rewrite immediate_dispatched.
  - intros s0 id0 text now' Hunknown Hge.
    split; [by apply immediate_dispatched|].
    by rewrite throttled_registry.
Qed.

Lemma inactivity_only_drops_timer_entry_witness :
  ∃ s, run init [Send "card" "conv" 1000; UpdateThrottled "card" "a" 2000;
                 Complete 0 PutOk 2100] = Some s
       ∧ ∃ s', fire 0 62100 s = Some s'
               ∧ cardUpdateTimeouts s' = delete "card" (cardUpdateTimeouts s).
Proof.
  eexists. split; [vm_compute; reflexivity|].
  match goal with |- ∃ s', fire _ _ ?s = _ ∧ _ =>
    destruct (proj1 (inactivity_only_drops_timer_entry s 0
                (mkTimer 2100 60000 (InactivityTimeout "card") true) "card" 62100
                ltac:(vm_compute; reflexivity) eq_refl eq_refl
                ltac:(vm_compute; discriminate)))
      as (s' & Hs' & _ & _ & Hto & _)
  end.
  exists s'. split; [exact Hs' | exact Hto].
Defined.

(** C4, counterexample: a card whose inactivity timer has fired, and a card
    the registry has never seen, both get their next throttled update
    dispatched. *)
Lemma update_after_inactivity_is_dispatched :
  ∃ s, run init [Send "card" "conv" 1000; UpdateThrottled "card" "a" 2000;
                 Complete 0 PutOk 2100; Fire 0 62100;
                 UpdateThrottled "card" "late" 70000;
                 UpdateThrottled "ghost" "x" 80000] = Some s
       ∧ cardInstances s !! "ghost" = None
       ∧ dispatched s = [("card", "a", 2000); ("card", "late", 70000);
                         ("ghost", "x", 80000)]
       ∧ promises s = [Resolved; Pending; Pending].
Proof.
  eexists. split; [vm_compute; reflexivity|].
  repeat split; vm_compute; reflexivity.
Qed.

(** ** Coalescing of a burst *)

Lemma tracked_spec s id :
  tracked s id = true ↔
  ∀ h t, timers s !! h = Some t → is_delayed_for id t = true →
         cardUpdateTimeouts s !! id = Some h.
Proof.
  unfold tracked. rewrite forallb_forall. split.
  - intros Hall h t Ht Hd.
    specialize (Hall (h, t)). simpl in Hall.
    rewrite Hd in Hall. simpl in Hall.
    assert (Hin : In (h, t) (imap pair (timers s))).
    { apply list_elem_of_In, elem_of_lookup_imap. eauto. }
    apply Hall in Hin. by apply bool_decide_eq_true in Hin.
  - intros Hall [h t] Hin%list_elem_of_In.
    apply elem_of_lookup_imap in Hin as (i & y & [= -> ->] & Hy).
    destruct (is_delayed_for id y) eqn:E; [|done]. simpl.
    apply bool_decide_eq_true_2. eauto.
Qed.

Lemma stopped_not_delayed id t : is_delayed_for id (stop_timer t) = false.
Proof. unfold is_delayed_for. simpl. by destruct (action t). Qed.

(** With the pending timers tracked, [clear_existing] leaves no live
    delayed update for the card. *)
Lemma clear_existing_clears id s h t :
  tracked s id = true →
  timers (clear_existing id s) !! h = Some t →
  is_delayed_for id t = false.
Proof.
  intros Htr0 Ht. pose proof (proj1 (tracked_spec s id) Htr0) as Htr.
  destruct (is_delayed_for id t) eqn:E; [|done]. exfalso.
  unfold clear_existing in Ht.
  destruct (cardUpdateTimeouts s !! id) as [h0|] eqn:Hmap.
  - simpl in Ht. destruct (decide (h0 = h)) as [->|Hne].
    + rewrite list_lookup_alter_eq in Ht.
      destruct (timers s !! h) as [t0|]; [|discriminate].
      injection Ht as <-. by rewrite stopped_not_delayed in E.
    + rewrite list_lookup_alter_ne in Ht by done.
      specialize (Htr h t Ht E). congruence.
  - specialize (Htr h t Ht E). congruence.
Qed.

Section OneDelayedCall.
Variables (s : state) (id text : string) (now : Z).
Hypothesis Htracked : tracked s id = true.
Hypothesis Hthrottled : now - lastUpdateOf s id < CARD_UPDATE_MIN_INTERVAL.

Lemma delayed_call_timers :
  timers (updateInteractiveCardThrottled id text now s)
  = timers (clear_existing id s) ++ [delayed_timer id text now s].
Proof. by rewrite throttled_delayed. Qed.

Lemma delayed_call_mine :
  timers (updateInteractiveCardThrottled id text now s) !! length (timers s)
  = Some (delayed_timer id text now s).
Proof.
  rewrite delayed_call_timers.
  destruct (clear_existing_fields id s) as (_ & _ & _ & _ & _ & _ & <-).
  by apply list_lookup_middle.
Qed.

Lemma delayed_call_sole h t :
  timers (updateInteractiveCardThrottled id text now s) !! h = Some t →
  is_delayed_for id t = true → h = length (timers s).
Proof.
  rewrite delayed_call_timers. intros Ht Hd.
  destruct (clear_existing_fields id s) as (_ & _ & _ & _ & _ & _ & Hlen).
  apply lookup_app_Some in Ht as [Hold|[Hge Hnew]].
  - rewrite (clear_existing_clears id s h t) in Hd; done.
  - apply list_lookup_singleton_Some in Hnew as [Hz _]. lia.
Qed.

Lemma delayed_call_fields :
  dispatched (updateInteractiveCardThrottled id text now s) = dispatched s
  ∧ cardUpdateTimestamps (updateInteractiveCardThrottled id text now s)
    = cardUpdateTimestamps s
  ∧ cardUpdateTimeouts (updateInteractiveCardThrottled id text now s)
    = <[id := length (timers s)]> (cardUpdateTimeouts s)
  ∧ length (timers (updateInteractiveCardThrottled id text now s))
    = S (length (timers s))
  ∧ length (promises (updateInteractiveCardThrottled id text now s))
    = S (length (promises s)).
Proof.
  rewrite throttled_delayed by done. simpl.
  destruct (clear_existing_fields id s) as (_ & -> & -> & _ & -> & -> & Hlen).
  rewrite !length_app, Hlen. simpl. repeat split; lia.
Qed.

Lemma delayed_call_tracked :
  tracked (updateInteractiveCardThrottled id text now s) id = true.
Proof.
  apply tracked_spec. intros h t Ht Hd.
  rewrite (delayed_call_sole h t Ht Hd).
  destruct delayed_call_fields as (_ & _ & -> & _).
  apply lookup_insert_eq.
Qed.

End OneDelayedCall.

(** A burst of throttled calls, all inside the interval, dispatches nothing,
    keeps the recorded dispatch time, and keeps the pending timers tracked. *)
Lemma burst_throttled id (cs : list (string * Z)) s :
  tracked s id = true →
  Forall (λ c, c.2 - lastUpdateOf s id < CARD_UPDATE_MIN_INTERVAL) cs →
  tracked (burst id cs s) id = true
  ∧ dispatched (burst id cs s) = dispatched s
  ∧ lastUpdateOf (burst id cs s) id = lastUpdateOf s id
  ∧ length (timers (burst id cs s)) = (length (timers s) + length cs)%nat
  ∧ length (promises (burst id cs s)) = (length (promises s) + length cs)%nat.
Proof.
  intros Htr Hall. induction cs as [|[c t] cs IH] using rev_ind.
  - simpl. rewrite !Nat.add_0_r. done.
  - apply Forall_app in Hall as [Hcs Hlast].
    apply Forall_inv in Hlast. simpl in Hlast.
    destruct (IH Hcs) as (Htr' & Hd & Hlu & Hlt & Hlp).
    unfold burst in *. rewrite foldl_snoc. simpl.
    rewrite <- Hlu in Hlast.
    destruct (delayed_call_fields _ id c t Hlast) as (Hd1 & Hts & _ & Hlt1 & Hlp1).
    split; [by apply delayed_call_tracked|].
    split; [congruence|].
    split; [unfold lastUpdateOf in *; by rewrite Hts|].
    rewrite !length_app. simpl. split; lia.
Qed.

(** C1, as amended.  Take a card whose pending delayed update, if any, is
    the timer recorded for it in [cardUpdateTimeouts], and a sequence of
    throttled calls that all arrive less than [CARD_UPDATE_MIN_INTERVAL]
    after the card's last recorded dispatch.  Each call clears the timer of
    the call before it and arms its own, so nothing is dispatched during the
    burst and exactly one delayed update remains armed: the last call's,
    recorded in [cardUpdateTimeouts] and carrying the last call's text.
    The timers of the earlier calls cannot fire, and when the remaining one
    fires, it dispatches the text of the last call. *)
Theorem burst_coalesces_to_last (s : state) (id : string)
    (cs : list (string * Z)) (text_last : string) (t_last : Z) :
  tracked s id = true →
  Forall (λ c, c.2 - lastUpdateOf s id < CARD_UPDATE_MIN_INTERVAL)
         (cs ++ [(text_last, t_last)]) →
  let s' := burst id (cs ++ [(text_last, t_last)]) s in
  let h := (length (timers s) + length cs)%nat in
  dispatched s' = dispatched s
  ∧ cardUpdateTimeouts s' !! id = Some h
  ∧ timers s' !! h
    = Some (mkTimer t_last (CARD_UPDATE_MIN_INTERVAL - (t_last - lastUpdateOf s id))
                    (DelayedUpdate id text_last (length (promises s) + length cs)) true)
  ∧ (∀ h' t, timers s' !! h' = Some t → is_delayed_for id t = true → h' = h)
  ∧ (∀ h' t text p now, timers s' !! h' = Some t →
       action t = DelayedUpdate id text p → h' ≠ h → fire h' now s' = None)
  ∧ (∀ now, lastUpdateOf s id + CARD_UPDATE_MIN_INTERVAL ≤ now →
       ∃ s'', fire h now s' = Some s''
              ∧ dispatched s'' = dispatched s ++ [(id, text_last, now)]).
Proof.
  intros Htr Hall s' h.
  apply Forall_app in Hall as [Hcs Hlast].
  apply Forall_inv in Hlast. simpl in Hlast.
  destruct (burst_throttled id cs s Htr Hcs) as (Htr' & Hd & Hlu & Hlt & Hlp).
  assert (Hs' : s' = updateInteractiveCardThrottled id text_last t_last (burst id cs s)).
  { subst s'. unfold burst. by rewrite foldl_snoc. }
  rewrite <- Hlu in Hlast.
  pose proof (delayed_call_fields _ id text_last t_last Hlast) as (Hd1 & _ & Hto & _).
  pose proof (delayed_call_mine _ id text_last t_last Hlast) as Hmine.
  pose proof (delayed_call_sole _ id text_last t_last Htr' Hlast) as Hsole.
  rewrite <- Hs' in Hd1, Hto, Hmine, Hsole.
  unfold delayed_timer in Hmine. rewrite Hlt, Hlu, Hlp in Hmine.
  rewrite Hlt in Hsole, Hto. rewrite Hlu in Hlast.
  fold h in Hmine, Hsole, Hto.
  assert (Hdisp : dispatched s' = dispatched s) by congruence.
  split; [done|].
  split; [rewrite Hto; apply lookup_insert_eq|].
  split; [done|].
  split; [done|].
  split.
  - intros h' t text p now Ht Hact Hne.
    destruct (live t) eqn:Hlive; [|by eapply fire_dead].
    exfalso. apply Hne, (Hsole h' t Ht).
    unfold is_delayed_for. rewrite Hact, Hlive. simpl.
    by apply bool_decide_eq_true_2.
  - intros now Hdue. eexists. split.
    + eapply fire_delayed; [exact Hmine | done | done | simpl; lia].
    + simpl. by rewrite Hdisp.
Qed.

Lemma burst_coalesces_to_last_witness :
  let s := updateInteractiveCardThrottled "card" "a" 1000 init in
  dispatched (burst "card" [("b", 1100); ("c", 1400)] s) = dispatched s.
Proof.
  intros s.
  apply (burst_coalesces_to_last s "card" [("b", 1100)] "c" 1400).
  - vm_compute. reflexivity.
  - repeat constructor.
Defined.

(** C1, counterexample: two calls 100 ms apart on an idle card are both
    dispatched, the first at once and the second when its timer fires. *)
Lemma idle_card_burst_dispatches_twice :
  ∃ s, run init [UpdateThrottled "card" "a" 1000; UpdateThrottled "card" "b" 1100;
                 Fire 0 1500] = Some s
       ∧ dispatched s = [("card", "a", 1000); ("card", "b", 1500)]
       ∧ ¬ (length (dispatched s) ≤ 1)%nat.
Proof.
  eexists. split; [vm_compute; reflexivity|]. split; [vm_compute; reflexivity|].
  intros Hle. vm_compute in Hle. lia.
Qed.

(** ** The periodic sweep *)

Lemma stop_timer_idem (o : option timer) :
  stop_timer <$> (stop_timer <$> o) = stop_timer <$> o.
Proof. by destruct o. Qed.

Lemma swept_insert now (m : gmap string CardInstance) i x j :
  m !! i = None →
  swept now (<[i := x]> m) j = if decide (i = j) then stale now x else swept now m j.
Proof.
  intros Hi. unfold swept. rewrite lookup_insert. by case_decide.
Qed.

Lemma swept_fresh now (m : gmap string CardInstance) i :
  m !! i = None → swept now m i = false.
Proof. unfold swept. by intros ->. Qed.

Lemma evict_fields id s :
  cardInstances (evict id s) = delete id (cardInstances s)
  ∧ cardUpdateTimestamps (evict id s) = delete id (cardUpdateTimestamps s)
  ∧ cardUpdateTimeouts (evict id s) = delete id (cardUpdateTimeouts s)
  ∧ timers (evict id s)
    = match cardUpdateTimeouts s !! id with
      | Some h => alter stop_timer h (timers s)
      | None => timers s
      end
  ∧ inflight (evict id s) = inflight s
  ∧ promises (evict id s) = promises s
  ∧ dispatched (evict id s) = dispatched s.
Proof.
  unfold evict. simpl.
  destruct (cardUpdateTimeouts s !! id) eqn:E; simpl; repeat split.
  symmetry. by apply delete_id.
Qed.

Lemma sweep_inv_step now s r (m : gmap string CardInstance) i x :
  m !! i = None → sweep_inv now s r m →
  sweep_inv now s (if stale now x then evict i r else r) (<[i := x]> m).
Proof.
  intros Hi (Hreg & Hts & Hto & Hany & Hstop & Hkeep & Hin & Hpr & Hd).
  pose proof (swept_fresh now m i Hi) as Hfresh.
  destruct (stale now x) eqn:Hx.
  - destruct (evict_fields i r) as (Er & Ets & Eto & Etm & Ein & Epr & Ed).
    assert (Hh : cardUpdateTimeouts r !! i = cardUpdateTimeouts s !! i).
    { by rewrite Hto, Hfresh. }
    rewrite Hh in Etm.
    assert (Hlook : ∀ h, timers (evict i r) !! h
                         = if bool_decide (cardUpdateTimeouts s !! i = Some h)
                           then stop_timer <$> timers r !! h else timers r !! h).
    { intros h. rewrite Etm. destruct (cardUpdateTimeouts s !! i) as [h0|] eqn:E0.
      - case_bool_decide as Hb.
        + injection Hb as ->. apply list_lookup_alter_eq.
        + apply list_lookup_alter_ne. congruence.
      - by rewrite bool_decide_eq_false_2. }
    repeat split.
    + intros j. rewrite Er, swept_insert, Hx by done. case_decide as Hij.
      * subst. apply lookup_delete_eq.
      * rewrite lookup_delete_ne by done. apply Hreg.
    + intros j. rewrite Ets, swept_insert, Hx by done. case_decide as Hij.
      * subst. apply lookup_delete_eq.
      * rewrite lookup_delete_ne by done. apply Hts.
    + intros j. rewrite Eto, swept_insert, Hx by done. case_decide as Hij.
      * subst. apply lookup_delete_eq.
      * rewrite lookup_delete_ne by done. apply Hto.
    + intros h. rewrite Hlook. case_bool_decide.
      * right. destruct (Hany h) as [-> | ->]; [done | apply stop_timer_idem].
      * apply Hany.
    + intros h j. rewrite swept_insert, Hx by done. rewrite Hlook.
      case_decide as Hij; intros Hsw Hj.
      * subst j. rewrite bool_decide_eq_true_2 by done.
        destruct (Hany h) as [-> | ->]; [done | apply stop_timer_idem].
      * rewrite (Hstop h j Hsw Hj). case_bool_decide; [apply stop_timer_idem | done].
    + intros h Hnone. rewrite Hlook.
      rewrite bool_decide_eq_false_2.
      * apply Hkeep. intros j Hsw. apply Hnone.
        rewrite swept_insert by done. case_decide; [|done]. by subst.
      * apply Hnone. rewrite swept_insert by done. by rewrite decide_True.
    + by rewrite Ein.
    + by rewrite Epr.
    + by rewrite Ed.
  - assert (Hsame : ∀ j, swept now (<[i := x]> m) j = swept now m j).
    { intros j. rewrite swept_insert by done. case_decide; [|done].
      subst. by rewrite Hfresh. }
    repeat split; try done.
    + intros j. rewrite Hsame. apply Hreg.
    + intros j. rewrite Hsame. apply Hts.
    + intros j. rewrite Hsame. apply Hto.
    + intros h j. rewrite Hsame. apply Hstop.
    + intros h Hnone. apply Hkeep. intros j. rewrite <- Hsame. apply Hnone.
Qed.

Lemma cleanup_inv now s : sweep_inv now s (cleanupCardCache now s) (cardInstances s).
Proof.
  unfold cleanupCardCache.
  apply (map_fold_weak_ind (sweep_inv now s)).
  - unfold sweep_inv, swept. setoid_rewrite lookup_empty. simpl.
    repeat split; auto.
    intros h j Hf. discriminate.
  - intros i x m r Hi IH. by apply sweep_inv_step.
Qed.

Lemma swept_stale now (reg : gmap string CardInstance) id instance :
  reg !! id = Some instance →
  swept now reg id = bool_decide (CARD_CACHE_TTL < now - lastUpdated instance).
Proof.
  intros Hid. unfold swept, stale. rewrite Hid. simpl.
  case_bool_decide; [by apply Z.ltb_lt | by apply Z.ltb_ge; lia].
Qed.

(** ** Throttler entries and the registry *)

(** C9, as amended.  The throttler's entries are not confined to the
    registry.  [updateInteractiveCardThrottled] records an entry for
    whichever card id it is called with (the dispatch time when it
    dispatches at once, the timer when it delays) and neither reads nor
    changes [cardInstances]; an update that fails, with a terminal status or
    any other, leaves both throttler maps as they were.  The sweep is what
    keeps them in step: for every record it evicts, no entry is left in
    [cardUpdateTimestamps] or [cardUpdateTimeouts]. *)
Theorem throttler_entries_follow_calls (s : state) (id text : string) (now : Z) :
  (cardInstances (updateInteractiveCardThrottled id text now s) = cardInstances s
   ∧ (CARD_UPDATE_MIN_INTERVAL ≤ now - lastUpdateOf s id →
      cardUpdateTimestamps (updateInteractiveCardThrottled id text now s) !! id
      = Some now)
   ∧ (now - lastUpdateOf s id < CARD_UPDATE_MIN_INTERVAL →
      cardUpdateTimeouts (updateInteractiveCardThrottled id text now s) !! id
      = Some (length (timers s))))
  ∧ (∀ k r status, inflight s !! k = Some r → r_open r = true →
       ∃ s', complete k (PutFailed status) now s = Some s'
             ∧ cardUpdateTimestamps s' = cardUpdateTimestamps s
             ∧ cardUpdateTimeouts s' = cardUpdateTimeouts s)
  ∧ (∀ instance, cardInstances s !! id = Some instance →
       CARD_CACHE_TTL < now - lastUpdated instance →
       cardInstances (cleanupCardCache now s) !! id = None
       ∧ cardUpdateTimestamps (cleanupCardCache now s) !! id = None
       ∧ cardUpdateTimeouts (cleanupCardCache now s) !! id = None).
Proof.
  split; [|split].
  - split; [apply throttled_registry|]. split.
    + intros Hge. rewrite throttled_immediate by done. simpl.
      apply lookup_insert_eq.
    + intros Hlt. destruct (delayed_call_fields s id text now Hlt) as (_ & _ & -> & _).
      apply lookup_insert_eq.
  - intros k r status Hk Hopen. unfold complete. rewrite Hk, Hopen. simpl.
    eexists. split; [reflexivity|]. done.
  - intros instance Hid Hold.
    destruct (cleanup_inv now s) as (Hreg & Hts & Hto & _).
    assert (Hsw : swept now (cardInstances s) id = true).
    { rewrite (swept_stale _ _ _ _ Hid). by apply bool_decide_eq_true_2. }
    by rewrite Hreg, Hts, Hto, Hsw.
Qed.

Lemma throttler_entries_follow_calls_witness :
  cardUpdateTimestamps (updateInteractiveCardThrottled "ghost" "x" 1000 init) !! "ghost"
  = Some 1000.
Proof.
  apply (proj1 (proj2 (proj1 (throttler_entries_follow_calls init "ghost" "x" 1000)))).
  vm_compute. discriminate.
Defined.

(** C9, counterexample: after one throttled call for an id the registry has
    never held, the throttler has an entry for that id and the registry has
    none. *)
Lemma throttler_entry_without_record :
  ∃ s, reachable s
       ∧ cardUpdateTimestamps s !! "ghost" = Some 1000
       ∧ cardInstances s !! "ghost" = None
       ∧ ¬ (dom (cardUpdateTimestamps s) ∪ dom (cardUpdateTimeouts s)
            ⊆ dom (cardInstances s)).
Proof.
  exists (updateInteractiveCardThrottled "ghost" "x" 1000 init).
  split; [by exists [UpdateThrottled "ghost" "x" 1000]|].
  assert (Hts : cardUpdateTimestamps (updateInteractiveCardThrottled "ghost" "x" 1000 init)
                !! "ghost" = Some 1000) by (vm_compute; reflexivity).
  assert (Hreg : cardInstances (updateInteractiveCardThrottled "ghost" "x" 1000 init)
                 !! "ghost" = None) by (vm_compute; reflexivity).
  split; [done|]. split; [done|].
  intros Hsub.
  assert (Hin : "ghost" ∈ dom (cardInstances (updateInteractiveCardThrottled "ghost" "x" 1000 init))).
  { apply Hsub, elem_of_union_l, elem_of_dom. by rewrite Hts. }
  apply elem_of_dom in Hin as [? Hin]. congruence.
Qed.

(** ** A superseded call whose timer is no longer the recorded one *)

(** C10, evaluated where it fails.  Call [a] is dispatched at once and is
    still in flight when call [b] arms its timer (handle 0) and records it
    in [cardUpdateTimeouts].  The round trip of [a] then completes and
    records its inactivity timer (handle 1) in the same entry.  The newer
    call [c] clears handle 1, not handle 0: the timer of [b] stays live,
    fires, dispatches [b] after [c] was scheduled, and the promise of [b]
    is resolved. *)
Theorem newer_call_misses_pending_timer :
  ∃ s, run init [UpdateThrottled "card" "a" 1000; UpdateThrottled "card" "b" 1100;
                 Complete 0 PutOk 1200; UpdateThrottled "card" "c" 1300] = Some s
       ∧ timers s !! 0%nat = Some (mkTimer 1100 400 (DelayedUpdate "card" "b" 1) true)
       ∧ timers s !! 1%nat = Some (mkTimer 1200 60000 (InactivityTimeout "card") false)
       ∧ tracked s "card" = false
       ∧ ∃ s', run s [Fire 0 1500; Fire 2 1500; Complete 1 PutOk 1600] = Some s'
               ∧ dispatched s' = [("card", "a", 1000); ("card", "b", 1500);
                                  ("card", "c", 1500)]
               ∧ promises s' !! 1%nat = Some Resolved.
Proof.
  eexists. split; [vm_compute; reflexivity|].
  do 3 (split; [vm_compute; reflexivity|]).
  eexists. split; [vm_compute; reflexivity|]. split; vm_compute; reflexivity.
Qed.

(** ** A superseded call whose timer is the recorded one *)

Lemma clear_existing_timers id s h :
  timers (clear_existing id s) !! h = timers s !! h
  ∨ timers (clear_existing id s) !! h = stop_timer <$> timers s !! h.
Proof.
  unfold clear_existing. destruct (cardUpdateTimeouts s !! id) as [h0|]; [|by left].
  simpl. destruct (decide (h0 = h)) as [->|Hne].
  - right. apply list_lookup_alter_eq.
  - left. by apply list_lookup_alter_ne.
Qed.

Lemma stopped_stays_dead (ts ts' : list timer) p :
  (∀ h, ts' !! h = ts !! h ∨ ts' !! h = stop_timer <$> ts !! h) →
  (∀ h t, ts !! h = Some t → refers_to p (action t) = true → live t = false) →
  ∀ h t, ts' !! h = Some t → refers_to p (action t) = true → live t = false.
Proof.
  intros Hany Hold h t Ht Hp. destruct (Hany h) as [E|E]; rewrite E in Ht.
  - eauto.
  - destruct (ts !! h); [|discriminate]. by injection Ht as <-.
Qed.

Lemma alter_stop_any (ts : list timer) h0 h :
  alter stop_timer h0 ts !! h = ts !! h
  ∨ alter stop_timer h0 ts !! h = stop_timer <$> ts !! h.
Proof.
  destruct (decide (h0 = h)) as [->|Hne].
  - right. apply list_lookup_alter_eq.
  - left. by apply list_lookup_alter_ne.
Qed.

Lemma orphaned_bound p s : orphaned p s → (p < length (promises s))%nat.
Proof. intros (Hp & _). by eapply lookup_lt_Some. Qed.

Lemma orphaned_call id text who now p s :
  orphaned p s →
  orphaned p (updateInteractiveCard_call id text (length (promises s)) who now
                (with_promises (λ ps, ps ++ [Pending]) s)).
Proof.
  intros Ho. pose proof (orphaned_bound p s Ho) as Hlt.
  destruct Ho as (Hp & Ht & Hr). repeat split; simpl.
  - by rewrite lookup_app_l.
  - done.
  - intros k r [Hold|[_ Hnew]]%lookup_app_Some Hrp; [eauto|].
    apply list_lookup_singleton_Some in Hnew as [_ <-]. simpl in Hrp. lia.
Qed.

Lemma orphaned_throttled id text now p s :
  orphaned p s → orphaned p (updateInteractiveCardThrottled id text now s).
Proof.
  intros Ho. pose proof (orphaned_bound p s Ho) as Hlt.
  destruct Ho as (Hp & Ht & Hr).
  destruct (clear_existing_fields id s) as (_ & _ & _ & Hin & Hpr & _ & _).
  pose proof (stopped_stays_dead _ _ p (clear_existing_timers id s) Ht) as Ht'.
  destruct (Z_lt_le_dec (now - lastUpdateOf s id) CARD_UPDATE_MIN_INTERVAL).
  - rewrite throttled_delayed by done. repeat split; simpl.
    + rewrite Hpr. by rewrite lookup_app_l.
    + intros h t [Hold|[_ Hnew]]%lookup_app_Some Href; [eauto|].
      apply list_lookup_singleton_Some in Hnew as [_ <-]. simpl in Href.
      apply bool_decide_eq_true in Href. lia.
    + rewrite Hin. done.
  - rewrite throttled_immediate by done. repeat split; simpl.
    + rewrite Hpr. by rewrite lookup_app_l.
    + done.
    + rewrite Hin. intros k r [Hold|[_ Hnew]]%lookup_app_Some Hrp; [eauto|].
      apply list_lookup_singleton_Some in Hnew as [_ <-]. simpl in Hrp. lia.
Qed.

Lemma orphaned_fire h now p s s' :
  orphaned p s → fire h now s = Some s' → orphaned p s'.
Proof.
  intros (Hp & Ht & Hr). unfold fire.
  destruct (timers s !! h) as [t|] eqn:Hh; [|discriminate].
  destruct (live t) eqn:Hlive; [|discriminate]. simpl.
  destruct (armed_at t + delay t <=? now); [|discriminate].
  pose proof (stopped_stays_dead _ _ p (alter_stop_any (timers s) h) Ht) as Ht'.
  destruct (action t) as [id text q|id] eqn:Hact; intros [= <-];
    repeat split; simpl; try done.
  intros k r [Hold|[_ Hnew]]%lookup_app_Some Hrp; [eauto|].
  apply list_lookup_singleton_Some in Hnew as [_ <-]. simpl in Hrp. subst q.
  specialize (Ht h t Hh). rewrite Hact in Ht. simpl in Ht.
  rewrite bool_decide_eq_true_2 in Ht by done. specialize (Ht eq_refl). congruence.
Qed.

Lemma orphaned_complete k out now p s s' :
  orphaned p s → complete k out now s = Some s' → orphaned p s'.
Proof.
  intros (Hp & Ht & Hr). unfold complete.
  destruct (inflight s !! k) as [r|] eqn:Hk; [|discriminate].
  destruct (r_open r) eqn:Hopen; [|discriminate].
  assert (Hne : r_promise r ≠ p).
  { intros Heq. specialize (Hr k r Hk Heq). congruence. }
  assert (Hclosed : ∀ k' r', <[k := mkRequest (r_card r) (r_text r) (r_promise r)
                                      (r_caller r) false]> (inflight s) !! k' = Some r' →
                             r_promise r' = p → r_open r' = false).
  { intros k' r' Hk' Hrp. destruct (decide (k = k')) as [->|Hkk].
    - rewrite list_lookup_insert_eq in Hk' by (by eapply lookup_lt_Some).
      by injection Hk' as <-.
    - rewrite list_lookup_insert_ne in Hk' by done. eauto. }
  destruct (updateInteractiveCard_settle (r_card r) now out (cardInstances s))
    as [reg res] eqn:Hset. simpl. rewrite Hset.
  intros [= <-]. destruct res, (r_caller r); repeat split; simpl;
    rewrite ?list_lookup_insert_ne by done; try done.
  intros h t [Hold|[_ Hnew]]%lookup_app_Some Href; [eauto|].
  apply list_lookup_singleton_Some in Hnew as [_ <-]. discriminate.
Qed.

Lemma orphaned_cleanup now p s : orphaned p s → orphaned p (cleanupCardCache now s).
Proof.
  intros (Hp & Ht & Hr).
  destruct (cleanup_inv now s) as (_ & _ & _ & Hany & _ & _ & Hin & Hpr & _).
  repeat split.
  - by rewrite Hpr.
  - by apply (stopped_stays_dead (timers s)).
  - by rewrite Hin.
Qed.

Lemma orphaned_step p s e s' : orphaned p s → step s e = Some s' → orphaned p s'.
Proof.
  intros Ho. destruct e as [id conv now|id text now|id text now|h now|k out now|now];
    simpl.
  - intros [= <-]. exact Ho.
  - intros [= <-]. by apply orphaned_call.
  - intros [= <-]. by apply orphaned_throttled.
  - by apply orphaned_fire.
  - by apply orphaned_complete.
  - intros [= <-]. by apply orphaned_cleanup.
Qed.

Lemma orphaned_run p es : ∀ s s', orphaned p s → run s es = Some s' → orphaned p s'.
Proof.
  induction es as [|e es IH]; intros s s' Ho; simpl.
  - by intros [= <-].
  - destruct (step s e) as [s1|] eqn:Hstep; [|discriminate].
    apply IH. by eapply orphaned_step.
Qed.

Lemma unreferenced_spec p s :
  unreferenced p s = true →
  (∀ h t, timers s !! h = Some t → refers_to p (action t) = false)
  ∧ (∀ k r, inflight s !! k = Some r → r_promise r ≠ p).
Proof.
  unfold unreferenced. rewrite andb_true_iff, !List.forallb_forall.
  intros [Ht Hr]. split.
  - intros h t Hh. apply negb_true_iff, Ht, list_elem_of_In, list_elem_of_lookup. eauto.
  - intros k r Hk Heq.
    assert (Hin : In r (inflight s)) by (apply list_elem_of_In, list_elem_of_lookup; eauto).
    apply Hr, negb_true_iff in Hin. by apply bool_decide_eq_false in Hin.
Qed.

(** When the timer a delayed call armed is still the one recorded for the
    card, the next throttled call inside the interval clears it, and the
    promise of the earlier call stays pending whatever happens afterwards. *)
Lemma superseded_promise_never_settles (s : state) (id b c : string) (t1 t2 : Z)
    (es : list event) (s' : state) :
  tracked s id = true →
  unreferenced (length (promises s)) s = true →
  t1 - lastUpdateOf s id < CARD_UPDATE_MIN_INTERVAL →
  t2 - lastUpdateOf s id < CARD_UPDATE_MIN_INTERVAL →
  run (updateInteractiveCardThrottled id c t2
         (updateInteractiveCardThrottled id b t1 s)) es = Some s' →
  promises s' !! length (promises s) = Some Pending
  ∧ ∀ h t, timers s' !! h = Some t →
           refers_to (length (promises s)) (action t) = true →
           live t = false ∧ ∀ now, fire h now s' = None.
Proof.
  intros Htr Hun Hlt1 Hlt2 Hrun.
  destruct (unreferenced_spec _ _ Hun) as (Hnt & Hnr).
  set (s1 := updateInteractiveCardThrottled id b t1 s) in *.
  assert (Hlu : lastUpdateOf s1 id = lastUpdateOf s id).
  { destruct (delayed_call_fields s id b t1 Hlt1) as (_ & Hts & _).
    unfold lastUpdateOf. subst s1. by rewrite Hts. }
  assert (Hlt2' : t2 - lastUpdateOf s1 id < CARD_UPDATE_MIN_INTERVAL) by (by rewrite Hlu).
  assert (Horph : orphaned (length (promises s))
                    (updateInteractiveCardThrottled id c t2 s1)).
  { rewrite (throttled_delayed id c t2 s1 Hlt2').
    destruct (clear_existing_fields id s1) as (_ & _ & _ & Hin1 & Hpr1 & _ & _).
    assert (Hs1 : s1 = _) by (subst s1; apply (throttled_delayed id b t1 s Hlt1)).
    destruct (clear_existing_fields id s) as (_ & _ & _ & Hin0 & Hpr0 & _ & Hlen0).
    assert (Hmap : cardUpdateTimeouts s1 !! id = Some (length (timers s))).
    { rewrite Hs1. simpl. apply lookup_insert_eq. }
    repeat split; simpl.
    - rewrite Hpr1, Hs1. simpl. rewrite Hpr0.
      rewrite lookup_app_l by (rewrite length_app; simpl; lia).
      by apply list_lookup_middle.
    - intros h t [Hold|[_ Hnew]]%lookup_app_Some Href.
      + unfold clear_existing in Hold. rewrite Hmap in Hold. simpl in Hold.
        rewrite Hs1 in Hold. simpl in Hold.
        destruct (decide (length (timers s) = h)) as [<-|Hne].
        * rewrite list_lookup_alter_eq in Hold.
          destruct (_ !! length (timers s)); [|discriminate]. by injection Hold as <-.
        * rewrite list_lookup_alter_ne in Hold by done.
          apply lookup_app_Some in Hold as [Hold|[Hge Hnew]].
          -- destruct (clear_existing_timers id s h) as [E|E]; rewrite E in Hold.
             ++ rewrite (Hnt h t Hold) in Href. discriminate.
             ++ destruct (timers s !! h) as [t0|] eqn:Ht0; [|discriminate].
                injection Hold as <-. simpl in Href.
                rewrite (Hnt h t0 Ht0) in Href. discriminate.
          -- apply list_lookup_singleton_Some in Hnew as [Hz _]. lia.
      + apply list_lookup_singleton_Some in Hnew as [_ <-]. simpl in Href.
        apply bool_decide_eq_true in Href.
        destruct (delayed_call_fields s id b t1 Hlt1) as (_ & _ & _ & _ & Hlp).
        fold s1 in Hlp. lia.
    - rewrite Hin1, Hs1. simpl. rewrite Hin0.
      intros k r Hk Heq. by destruct (Hnr k r Hk). }
  pose proof (orphaned_run _ es _ s' Horph Hrun) as (Hp & Ht & _).
  split; [done|].
  intros h t Hh Href. pose proof (Ht h t Hh Href) as Hdead.
  split; [done|]. intros now. by eapply fire_dead.
Qed.

Example superseded_promise_stays_pending :
  ∃ s', run init [UpdateThrottled "card" "a" 1000; Complete 0 PutOk 1050;
                  UpdateThrottled "card" "b" 1100; UpdateThrottled "card" "c" 1300;
                  Fire 2 1500; Complete 1 PutOk 1600] = Some s'
        ∧ promises s' = [Resolved; Pending; Resolved]
        ∧ dispatched s' = [("card", "a", 1000); ("card", "c", 1500)].
Proof.
  eexists. split; [vm_compute; reflexivity|]. split; vm_compute; reflexivity.
Qed.

End CardFacts.

(** * Properties of the string helpers *)

Section JsFacts.
Import Js.

Lemma drop_while_split f s :
  ∃ k, s = k ++ drop_while f s ∧ Forall (λ c, f c = true) k.
Proof.
  induction s as [|c s IH]; simpl.
  - by exists [].
  - destruct (f c) eqn:E.
    + destruct IH as (k & Hk & Hall). exists (c :: k). split.
      * simpl. by rewrite <- Hk.
      * by constructor.
    + by exists [].
Qed.

Lemma drop_while_head f s c r : drop_while f s = c :: r → f c = false.
Proof.
  induction s as [|a s IH]; simpl; [discriminate|].
  destruct (f a) eqn:E; [done|]. by intros [= <- _].
Qed.

Lemma drop_while_keep f s :
  (∀ c r, s = c :: r → f c = false) → drop_while f s = s.
Proof.
  destruct s as [|c s]; [done|]. intros H. simpl. by rewrite (H c s).
Qed.

Lemma drop_while_all f s : Forall (λ c, f c = true) s → drop_while f s = [].
Proof. induction 1 as [|c s Hc _ IH]; simpl; [done|]. by rewrite Hc. Qed.

(** What [trim] returns is a segment of its argument with nothing but
    white space on either side. *)
Lemma trim_split s :
  ∃ l r, s = l ++ trim s ++ r
         ∧ Forall (λ c, is_space c = true) l ∧ Forall (λ c, is_space c = true) r.
Proof.
  unfold trim.
  destruct (drop_while_split is_space s) as (l & Hl & Hlall).
  destruct (drop_while_split is_space (reverse (drop_while is_space s)))
    as (k & Hk & Hkall).
  exists l, (reverse k). split; [|split; [done|]].
  - rewrite <- reverse_app, <- Hk, reverse_involutive. exact Hl.
  - by apply Forall_reverse.
Qed.

Lemma trim_ends s :
  (∀ c r, trim s = c :: r → is_space c = false)
  ∧ (∀ c r, trim s = r ++ [c] → is_space c = false).
Proof.
  unfold trim. split.
  - intros c r Hcr.
    destruct (drop_while_split is_space (reverse (drop_while is_space s)))
      as (k & Hk & _).
    apply (f_equal reverse) in Hk. rewrite reverse_involutive, reverse_app in Hk.
    rewrite Hcr in Hk. simpl in Hk.
    by apply (drop_while_head is_space s c (r ++ reverse k)).
  - intros c r Hcr. apply (f_equal reverse) in Hcr.
    rewrite reverse_involutive, reverse_snoc in Hcr.
    by apply (drop_while_head _ _ _ _ Hcr).
Qed.

Lemma trim_fixed s :
  (∀ c r, s = c :: r → is_space c = false) →
  (∀ c r, s = r ++ [c] → is_space c = false) →
  trim s = s.
Proof.
  intros Hhead Hlast. unfold trim.
  rewrite (drop_while_keep is_space s Hhead).
  rewrite drop_while_keep.
  { apply reverse_involutive. }
  intros c r Hcr. apply (Hlast c (reverse r)).
  apply (f_equal reverse) in Hcr.
  by rewrite reverse_involutive, reverse_cons in Hcr.
Qed.

Lemma trim_idem s : trim (trim s) = trim s.
Proof. destruct (trim_ends s). by apply trim_fixed. Qed.

Lemma trim_blank s : Forall (λ c, is_space c = true) s → trim s = [].
Proof. intros H. unfold trim. by rewrite (drop_while_all is_space s H). Qed.

Lemma after_prefix_ci_split pat s r :
  after_prefix_ci pat s = Some r →
  ∃ p, s = p ++ r ∧ fold_case <$> p = pat.
Proof.
  revert s. induction pat as [|a pat IH]; intros s; simpl.
  - intros [= <-]. by exists [].
  - destruct s as [|c s]; [discriminate|].
    destruct (fold_case c =? a)%N eqn:E; [|discriminate].
    apply N.eqb_eq in E. intros (p & -> & Hp)%IH.
    exists (c :: p). split; [done|]. by rewrite fmap_cons, E, Hp.
Qed.

(** What the prefix pattern removes ends in a colon. *)
Lemma strip_channel_prefix_cases s :
  strip_channel_prefix s = s
  ∨ ∃ p, s = p ++ 58%N :: strip_channel_prefix s.
Proof.
  unfold strip_channel_prefix.
  destruct (after_prefix_ci (units "dingtalk:") s) as [r|] eqn:E1.
  { right. apply after_prefix_ci_split in E1 as (p & -> & Hp).
    do 9 (destruct p as [|? p]; [discriminate|]). destruct p; [|discriminate].
    injection Hp as _ _ _ _ _ _ _ _ H. unfold fold_case in H.
    eexists [_; _; _; _; _; _; _; _]. simpl. repeat f_equal.
    destruct (_ && _)%N eqn:Hr in H; [|done].
    apply andb_true_iff in Hr as [?%N.leb_le ?%N.leb_le]. lia. }
  destruct (after_prefix_ci (units "dd:") s) as [r|] eqn:E2.
  { right. apply after_prefix_ci_split in E2 as (p & -> & Hp).
    do 3 (destruct p as [|? p]; [discriminate|]). destruct p; [|discriminate].
    injection Hp as _ _ H. unfold fold_case in H.
    eexists [_; _]. simpl. repeat f_equal.
    destruct (_ && _)%N eqn:Hr in H; [|done].
    apply andb_true_iff in Hr as [?%N.leb_le ?%N.leb_le]. lia. }
  destruct (after_prefix_ci (units "ding:") s) as [r|] eqn:E3.
  { right. apply after_prefix_ci_split in E3 as (p & -> & Hp).
    do 5 (destruct p as [|? p]; [discriminate|]). destruct p; [|discriminate].
    injection Hp as _ _ _ _ H. unfold fold_case in H.
    eexists [_; _; _; _]. simpl. repeat f_equal.
    destruct (_ && _)%N eqn:Hr in H; [|done].
    apply andb_true_iff in Hr as [?%N.leb_le ?%N.leb_le]. lia. }
  by left.
Qed.

End JsFacts.

(** * Properties of targets and ids *)

Section TargetFacts.
Import Js Target.

Lemma trim_nil_blank s : trim s = [] → Forall (λ c, is_space c = true) s.
Proof.
  intros H. destruct (trim_split s) as (l & r & Hs & Hl & Hr).
  rewrite H in Hs. simpl in Hs. rewrite Hs. by apply Forall_app.
Qed.

Lemma id_char_not_space c : is_id_char c = true → is_space c = false.
Proof.
  unfold is_id_char, is_space. intros H.
  apply orb_false_iff. split.
  - apply bool_decide_eq_false_2. intros Hin.
    repeat (apply elem_of_cons in Hin as [->|Hin]; [by vm_compute in H|]).
    by apply elem_of_nil in Hin.
  - apply andb_false_iff.
    destruct (8192 <=? c)%N eqn:E1; [right|by left].
    apply N.leb_le in E1. apply N.leb_gt.
    repeat (apply orb_true_iff in H as [H|H]);
      repeat (apply andb_true_iff in H as [H ?]);
      repeat match goal with
             | H : (_ <=? _)%N = true |- _ => apply N.leb_le in H
             | H : (_ =? _)%N = true |- _ => apply N.eqb_eq in H
             end; lia.
Qed.

(** X1.  [resolveTarget] answers with the trimmed target, which is not
    empty, neither starts nor ends with white space and is accepted
    unchanged when passed again; it fails exactly when the target is absent
    or consists of white space only. *)
Theorem resolveTarget_trimmed (to : option (list N)) :
  (∀ r, resolveTarget to = Some r →
        r ≠ []
        ∧ (∃ s, to = Some s ∧ r = trim s)
        ∧ (∀ c r', r = c :: r' → is_space c = false)
        ∧ (∀ c r', r = r' ++ [c] → is_space c = false)
        ∧ resolveTarget (Some r) = Some r)
  ∧ (resolveTarget to = None
     ↔ to = None ∨ ∃ s, to = Some s ∧ Forall (λ c, is_space c = true) s).
Proof.
  unfold resolveTarget. split.
  - intros r Hr. destruct to as [s|]; [|discriminate]. simpl in Hr.
    destruct (trim s) as [|c t] eqn:Ht; [discriminate|]. injection Hr as <-.
    destruct (trim_ends s) as [Hh Hl]. rewrite Ht in Hh, Hl.
    split; [done|]. split; [eauto|]. split; [done|]. split; [done|].
    simpl. rewrite <- Ht, trim_idem. by rewrite Ht.
  - split.
    + destruct to as [s|]; [|by left]. simpl.
      destruct (trim s) as [|c t] eqn:Ht; [|discriminate].
      intros _. right. exists s. split; [done|]. by apply trim_nil_blank.
    + intros [->|(s & -> & Hs)]; [done|]. simpl. by rewrite trim_blank.
Qed.

Lemma resolveTarget_trimmed_witness :
  resolveTarget (Some (units "  cid123 ")) = Some (units "cid123")
  ∧ resolveTarget (Some (units "cid123")) = Some (units "cid123").
Proof.
  assert (H : resolveTarget (Some (units "  cid123 ")) = Some (units "cid123"))
    by (vm_compute; reflexivity).
  split; [exact H|].
  exact (proj2 (proj2 (proj2 (proj2
           (proj1 (resolveTarget_trimmed (Some (units "  cid123 "))) _ H))))).
Defined.

(** Word characters and hyphens are untouched by the prefix pattern and by
    [trim]. *)
Lemma plain_id_fixed (id : list N) :
  looksLikeId id = true → strip_channel_prefix id = id ∧ trim id = id.
Proof.
  unfold looksLikeId. intros [Hne Hall]%andb_true_iff.
  rewrite List.forallb_forall in Hall.
  assert (Hchar : ∀ c, c ∈ id → is_id_char c = true).
  { intros c Hc. by apply Hall, list_elem_of_In. }
  split.
  - destruct (strip_channel_prefix_cases id) as [H|(p & Hp)]; [done|].
    assert (Hin : 58%N ∈ id).
    { rewrite Hp. apply elem_of_app. right. by left. }
    apply Hchar in Hin. by vm_compute in Hin.
  - apply trim_fixed.
    + intros c r ->. apply id_char_not_space, Hchar. by left.
    + intros c r ->. apply id_char_not_space, Hchar.
      apply elem_of_app. right. by left.
Qed.

(** X2.  An id that [looksLikeId] accepts (word characters and hyphens
    only) needs no normalisation: [normalizeTarget], [normalizeEntry] and
    [resolveTarget] all return it unchanged. *)
Theorem plain_id_is_normal (id : list N) :
  looksLikeId id = true →
  normalizeTarget (Some id) = Some id
  ∧ normalizeEntry id = id
  ∧ resolveTarget (Some id) = Some id.
Proof.
  intros Hid. destruct (plain_id_fixed id Hid) as (Hstrip & Htrim).
  destruct id as [|c s]; [discriminate|].
  unfold normalizeTarget, normalizeEntry, resolveTarget. simpl.
  rewrite Hstrip, Htrim. done.
Qed.

Lemma plain_id_is_normal_witness :
  normalizeTarget (Some (units "ding-robot_7")) = Some (units "ding-robot_7").
Proof.
  apply (plain_id_is_normal (units "ding-robot_7")). vm_compute. reflexivity.
Defined.

End TargetFacts.

(** * Properties of allow-lists *)

Section AllowFacts.
Import Js Allow.
Variable toLowerCase : list N → list N.

Lemma nonempty_true s : nonempty s = true ↔ s ≠ [].
Proof. destruct s; simpl; split; congruence. Qed.

Lemma kept_entries (l : list (list N)) v :
  v ∈ filter (λ v, nonempty v = true) (trim <$> l)
  ↔ v ≠ [] ∧ ∃ e, e ∈ l ∧ v = trim e.
Proof.
  rewrite list_elem_of_filter, list_elem_of_fmap, nonempty_true.
  split; intros [? (e & ? & ?)]; split; eauto.
Qed.

(** Each of the three ways in is enough. *)
Lemma allowed_intro (allowFrom : option (list (list N))) (senderId : option (list N)) :
  (∀ e, e ∈ default [] allowFrom → trim e = [])
  ∨ (∃ e, e ∈ default [] allowFrom ∧ trim e = star)
  ∨ (∃ c s e, senderId = Some (c :: s) ∧ e ∈ default [] allowFrom
              ∧ trim e ≠ [] ∧ trim e ≠ star
              ∧ toLowerCase (strip_channel_prefix (trim e)) = toLowerCase (c :: s)) →
  isSenderAllowed toLowerCase (normalizeAllowFrom toLowerCase allowFrom) senderId = true.
Proof.
  unfold isSenderAllowed, normalizeAllowFrom. simpl.
  set (l := default [] allowFrom).
  set (kept := filter (λ v, nonempty v = true) (trim <$> l)).
  intros Hin.
  case_bool_decide as Hlen; [simpl|done].
  case_bool_decide as Hstar; [done|].
  destruct Hin as [Hb|[(e & He & Heq)|(c & s & e & -> & He & Hne & Hns & Heq)]].
  - exfalso. destruct kept as [|v k] eqn:Hk; [simpl in Hlen; lia|].
    assert (Hv : v ∈ kept) by (rewrite Hk; by left).
    apply kept_entries in Hv as (Hv & e & He & Heq).
    apply Hv. rewrite Heq. by apply Hb.
  - exfalso. apply Hstar, kept_entries.
    split; [by vm_compute|]. exists e. by rewrite Heq.
  - rewrite bool_decide_eq_true_2; [done|].
    apply list_elem_of_fmap. exists (strip_channel_prefix (trim e)).
    split; [done|]. apply list_elem_of_fmap. exists (trim e). split; [done|].
    apply list_elem_of_filter. split; [done|].
    apply kept_entries. eauto.
Qed.

(** X3.  A sender passes the allow-list exactly when the list has no entry
    that is not blank, or an entry that trims to ["*"], or the sender has a
    non-empty id whose lower-casing equals the lower-casing of an entry,
    trimmed and with one leading [dingtalk:], [dd:] or [ding:] removed.
    The wildcard is looked for before prefixes are removed. *)
Theorem allowed_iff (allowFrom : option (list (list N))) (senderId : option (list N)) :
  isSenderAllowed toLowerCase (normalizeAllowFrom toLowerCase allowFrom) senderId = true
  ↔ (∀ e, e ∈ default [] allowFrom → trim e = [])
    ∨ (∃ e, e ∈ default [] allowFrom ∧ trim e = star)
    ∨ (∃ c s e, senderId = Some (c :: s) ∧ e ∈ default [] allowFrom
                ∧ trim e ≠ [] ∧ trim e ≠ star
                ∧ toLowerCase (strip_channel_prefix (trim e)) = toLowerCase (c :: s)).
Proof.
  split; [|apply allowed_intro].
  unfold isSenderAllowed, normalizeAllowFrom. simpl.
  set (l := default [] allowFrom).
  set (kept := filter (λ v, nonempty v = true) (trim <$> l)).
  case_bool_decide as Hlen; simpl.
  - case_bool_decide as Hstar.
    + intros _. right. left.
      apply kept_entries in Hstar as (_ & e & He & Heq). eauto.
    + intros Hok. right. right.
      destruct senderId as [[|c s]|]; try discriminate.
      case_bool_decide as Hin; [|discriminate].
      apply list_elem_of_fmap in Hin as (n & Hn & Hin).
      apply list_elem_of_fmap in Hin as (v & -> & Hin).
      apply list_elem_of_filter in Hin as [Hv Hin].
      apply kept_entries in Hin as (Hne & e & He & ->).
      exists c, s, e. repeat split; try done.
  - intros _. left. intros e He.
    destruct (trim e) as [|c t] eqn:Ht; [done|].
    assert (Hin : trim e ∈ kept).
    { apply kept_entries. split; [by rewrite Ht|eauto]. }
    destruct kept; [by apply elem_of_nil in Hin|]. simpl in Hlen. lia.
Qed.

(** X4.  [normalizeAllowFrom] does not depend on white space around the
    entries, on blank entries, or on whether an empty list is given as
    [undefined] or as an empty array. *)
Theorem normalizeAllowFrom_ignores_blanks (l1 l2 : list (list N)) (blank : list N) :
  Forall (λ c, is_space c = true) blank →
  normalizeAllowFrom toLowerCase (Some (l1 ++ blank :: l2))
  = normalizeAllowFrom toLowerCase (Some (l1 ++ l2))
  ∧ normalizeAllowFrom toLowerCase (Some (trim <$> (l1 ++ l2)))
    = normalizeAllowFrom toLowerCase (Some (l1 ++ l2))
  ∧ normalizeAllowFrom toLowerCase None = normalizeAllowFrom toLowerCase (Some []).
Proof.
  intros Hblank. unfold normalizeAllowFrom. simpl.
  split; [|split; [|done]].
  - rewrite !fmap_app, fmap_cons, !filter_app.
    rewrite (trim_blank blank Hblank).
    rewrite filter_cons_False by (simpl; congruence). done.
  - rewrite <- list_fmap_compose.
    assert (Heq : (trim ∘ trim) <$> (l1 ++ l2) = trim <$> (l1 ++ l2)).
    { apply list_fmap_ext. intros _ e _. simpl. apply trim_idem. }
    by rewrite Heq.
Qed.

End AllowFacts.

Lemma normalizeAllowFrom_ignores_blanks_witness :
  Allow.normalizeAllowFrom Js.ascii_lower
    (Some [Js.units "dd:Alice"; Js.units "  "; Js.units "bob"])
  = Allow.normalizeAllowFrom Js.ascii_lower
      (Some [Js.units "dd:Alice"; Js.units "bob"]).
Proof.
  apply (proj1 (normalizeAllowFrom_ignores_blanks Js.ascii_lower
                  [Js.units "dd:Alice"] [Js.units "bob"] (Js.units "  ")
                  ltac:(repeat constructor))).
Defined.

Lemma allowed_iff_witness :
  Allow.isSenderAllowed Js.ascii_lower
    (Allow.normalizeAllowFrom Js.ascii_lower (Some [Js.units " dd:Alice "]))
    (Some (Js.units "ALICE")) = true.
Proof.
  apply (proj2 (allowed_iff Js.ascii_lower (Some [Js.units " dd:Alice "])
                  (Some (Js.units "ALICE")))).
  right. right. exists 65%N, (Js.units "LICE"), (Js.units " dd:Alice ").
  repeat split; try (vm_compute; congruence). by left.
Defined.

(** * Properties of markdown detection and titles *)

Ltac in_list :=
  solve [apply list_elem_of_In; simpl; repeat (first [left; reflexivity | right])].

Section MarkdownFacts.
Import Js Markdown.

Lemma take_until_split f s :
  ∃ rest, s = take_until f s ++ rest
          ∧ Forall (λ c, f c = false) (take_until f s).
Proof.
  induction s as [|c s IH]; simpl.
  - by exists [].
  - destruct (f c) eqn:E.
    + by exists (c :: s).
    + destruct IH as (rest & Hs & Hall). exists rest. split.
      * simpl. by rewrite <- Hs.
      * by constructor.
Qed.

Lemma title_of_text_shape text :
  (length (title_of_text text) ≤ 20)%nat
  ∧ (10%N ∉ title_of_text text)
  ∧ (∀ c t, title_of_text text = c :: t → is_title_junk c = false)
  ∧ ∃ a b, text = a ++ title_of_text text ++ b.
Proof.
  unfold title_of_text.
  destruct (take_until_split is_newline text) as (rest & Htext & Hline).
  destruct (drop_while_split is_title_junk (take_until is_newline text))
    as (k & Hk & _).
  set (line := take_until is_newline text) in *.
  set (body := drop_while is_title_junk line) in *.
  split; [rewrite length_take; lia|]. split; [|split].
  - intros Hin. apply elem_of_take in Hin as (i & Hi & _).
    assert (Hb : 10%N ∈ line).
    { rewrite Hk. apply elem_of_app. right. by eapply list_elem_of_lookup_2. }
    rewrite Forall_forall in Hline. specialize (Hline _ Hb). done.
  - intros c t Ht. destruct body as [|c' body'] eqn:Hb; [discriminate|].
    simpl in Ht. injection Ht as <- _.
    by apply (drop_while_head is_title_junk line c' body').
  - exists k, (drop 20 body ++ rest).
    rewrite (app_assoc (take 20 body)), take_drop, app_assoc, <- Hk. exact Htext.
Qed.

(** X5.  The title [detectMarkdownAndExtractTitle] returns is the caller's
    title when a non-empty one is given.  Otherwise it is either the default
    title, or, for markdown only, a non-empty piece of the text's first line:
    at most 20 code units, with no line break, starting after any leading
    [#], [*], [-], [>] and white space.  It is never empty when the default
    title is not, and with [useMarkdown: false] it does not depend on the
    text at all. *)
Theorem title_given_default_or_short (text : list N) (options : SendMessageOptions)
    (defaultTitle : list N) :
  let r := detectMarkdownAndExtractTitle text options defaultTitle in
  (∀ c t, title options = Some (c :: t) → r.2 = c :: t)
  ∧ (truthy (title options) = false →
     r.2 = defaultTitle
     ∨ (r.1 = true ∧ r.2 ≠ [] ∧ (length r.2 ≤ 20)%nat ∧ (10%N ∉ r.2)
        ∧ (∀ c t, r.2 = c :: t → is_title_junk c = false)
        ∧ ∃ a b, text = a ++ r.2 ++ b))
  ∧ (defaultTitle ≠ [] → r.2 ≠ [])
  ∧ (useMarkdown options = Some false →
     r = (false, or_else (title options) defaultTitle)).
Proof.
  unfold detectMarkdownAndExtractTitle. simpl.
  destruct (title_of_text_shape text) as (Hlen & Hnl & Hhead & Hseg).
  split; [|split; [|split]].
  - by intros c t ->.
  - intros Hno.
    assert (Htitle : ∀ x, or_else (title options) x = x).
    { intros x. destruct (title options) as [[|c t]|]; try done. }
    rewrite Htitle.
    destruct (match useMarkdown options with
              | Some false => false | Some true => true | None => hasMarkdown text
              end); [|by left].
    simpl. destruct (title_of_text text) as [|c t] eqn:E; [by left|].
    right. repeat split; try done.
  - intros Hd. destruct (title options) as [[|c t]|]; simpl; try done;
      destruct (match useMarkdown options with
                | Some false => false | Some true => true | None => hasMarkdown text
                end); try done;
      by destruct (title_of_text text).
  - by intros ->.
Qed.

Lemma title_given_default_or_short_witness :
  (detectMarkdownAndExtractTitle (units "## Weekly report for the whole team")
     no_options (units "Clawdbot")).2 ≠ [].
Proof.
  apply (proj1 (proj2 (proj2 (title_given_default_or_short
           (units "## Weekly report for the whole team") no_options (units "Clawdbot"))))).
  vm_compute. discriminate.
Defined.

(** X6.  With no [useMarkdown] option, a text is sent as markdown exactly
    when it starts with [>] or [-], or contains one of [*], [_], a backquote,
    [#], [[], []] or a line break; the leading [#] and [*] of the pattern add
    nothing to that. *)
Theorem markdown_detected_iff (text : list N) (defaultTitle : list N) :
  (detectMarkdownAndExtractTitle text no_options defaultTitle).1 = true
  ↔ (∃ c t, text = c :: t ∧ (c = 62 ∨ c = 45)%N)
    ∨ (∃ c, c ∈ text ∧ c ∈ [42; 95; 96; 35; 91; 93; 10]%N).
Proof.
  unfold detectMarkdownAndExtractTitle, hasMarkdown. simpl.
  rewrite !orb_true_iff, !existsb_exists. split.
  - intros [[Hlead|(c & Hc & Hm)]|(c & Hc & Hn)].
    + destruct text as [|c t]; [discriminate|].
      unfold is_leader in Hlead. apply bool_decide_eq_true in Hlead.
      repeat (apply elem_of_cons in Hlead as [->|Hlead]).
      * right. exists 35%N. split; [by left|]. in_list.
      * right. exists 42%N. split; [by left|]. in_list.
      * left. eauto.
      * left. eauto.
      * by apply elem_of_nil in Hlead.
    + right. exists c. split; [by apply list_elem_of_In|].
      unfold is_markup in Hm. apply bool_decide_eq_true in Hm.
      repeat (apply elem_of_cons in Hm as [->|Hm]; [in_list|]).
      by apply elem_of_nil in Hm.
    + right. exists c. split; [by apply list_elem_of_In|].
      apply N.eqb_eq in Hn as ->. in_list.
  - intros [(c & t & -> & [-> | ->])|(c & Hc & Hin)].
    + by left; left.
    + by left; left.
    + destruct (decide (c = 10%N)) as [->|Hne].
      * right. exists 10%N. split; [by apply list_elem_of_In|done].
      * left. right. exists c. split; [by apply list_elem_of_In|].
        unfold is_markup. apply bool_decide_eq_true_2.
        repeat (apply elem_of_cons in Hin as [->|Hin]; [in_list|]).
        apply elem_of_cons in Hin as [->|Hin]; [done|by apply elem_of_nil in Hin].
Qed.

End MarkdownFacts.

(** * Properties of configuration lookup *)

Section ConfigFacts.
Import Js Config.

Lemma or_else_nonempty o d : d ≠ [] → or_else o d ≠ [].
Proof. destruct o as [[|c s]|]; simpl; congruence. Qed.

Lemma own_property_unlisted {A} (key : list N) (obj : list (list N * A)) :
  key ∉ obj.*1 → own_property key obj = None.
Proof.
  induction obj as [|[k v] obj IH]; simpl; [done|].
  intros Hnot. apply not_elem_of_cons in Hnot as [Hne Hnot].
  rewrite bool_decide_eq_false_2 by done. by apply IH.
Qed.

Lemma own_property_found {A} (key : list N) (obj : list (list N * A)) :
  key ∈ obj.*1 → ∃ v, (key, v) ∈ obj ∧ own_property key obj = Some v.
Proof.
  induction obj as [|[k v] obj IH]; simpl.
  - intros H. by apply elem_of_nil in H.
  - intros Hin. case_bool_decide as Hk.
    + subst. exists v. split; [by left|done].
    + apply elem_of_cons in Hin as [->|Hin]; [done|].
      destruct (IH Hin) as (v' & Hmem & Hat).
      exists v'. split; [by right|done].
Qed.

Lemma account_at_own key (accs : list (list N * DingTalkConfig)) :
  key ∈ accs.*1 →
  ∃ account, (key, account) ∈ accs ∧ account_at key accs = Some account.
Proof.
  intros Hin. destruct (own_property_found _ _ Hin) as (account & Hmem & Hp).
  exists account. split; [done|]. unfold account_at. by rewrite Hp.
Qed.

Lemma account_at_inherited key (accs : list (list N * DingTalkConfig)) :
  key ∉ accs.*1 → key ∈ Object_prototype_keys →
  account_at key accs = Some inherited.
Proof.
  intros Hnot Hin. unfold account_at.
  rewrite (own_property_unlisted _ _ Hnot). by rewrite bool_decide_eq_true_2.
Qed.

Lemma account_at_missing key (accs : list (list N * DingTalkConfig)) :
  key ∉ accs.*1 → key ∉ Object_prototype_keys → account_at key accs = None.
Proof.
  intros Hnot Hin. unfold account_at.
  rewrite (own_property_unlisted _ _ Hnot). by rewrite bool_decide_eq_false_2.
Qed.

(** X7.  [resolveAccount] and [getConfig] choose the same configuration once
    the missing account id is read as ["default"]: [resolveAccount] looks an
    absent or empty id up under [accounts.default], which [getConfig] with
    no id never does.  The id reported is the one asked for whenever
    [accounts] has it as a key, with that account's configuration, and also
    whenever [accounts] is present and the id is a name inherited from
    [Object.prototype], then with a configuration that has no field.  In
    every other case ["default"] is reported with the top-level section. *)
Theorem resolveAccount_agrees_with_getConfig (cfg : option DingTalkConfig)
    (a : option (list N)) :
  let id := or_else a default_id in
  let top := getConfig cfg None in
  let r := resolveAccount cfg a in
  config r = getConfig cfg (Some id)
  ∧ account_isConfigured r = isConfigured cfg (Some id)
  ∧ (∀ accs, accounts top = Some accs → id ∈ accs.*1 →
       accountId r = id ∧ (id, config r) ∈ accs
       ∧ account_enabled r = not_disabled (config r))
  ∧ (∀ accs, accounts top = Some accs → id ∉ accs.*1 →
       id ∈ Object_prototype_keys →
       r = mkResolved id inherited true)
  ∧ ((∀ accs, accounts top = Some accs →
        (id ∉ accs.*1) ∧ id ∉ Object_prototype_keys) →
       r = mkResolved default_id top (not_disabled top)).
Proof.
  intros id top r. subst id top r.
  assert (Hid : or_else a default_id ≠ []) by (by apply or_else_nonempty).
  unfold account_isConfigured, isConfigured, resolveAccount.
  destruct (or_else a default_id) as [|c s] eqn:E; [done|].
  destruct cfg as [d|]; simpl.
  - destruct (accounts d) as [accs|] eqn:Hacc; simpl.
    + split; [by destruct (account_at (c :: s) accs)|].
      split; [by destruct (account_at (c :: s) accs)|].
      split; [|split].
      * intros ? [= <-] Hin.
        destruct (account_at_own _ _ Hin) as (account & Hmem & ->). done.
      * intros ? [= <-] Hnot Hin. by rewrite account_at_inherited.
      * intros Hnone. destruct (Hnone accs eq_refl) as [Hnot Hin].
        by rewrite account_at_missing.
    + repeat split; try done.
  - repeat split; try done.
Qed.

Lemma resolveAccount_agrees_with_getConfig_witness :
  let ops := mkSection (Some (units "k2")) (Some (units "s2")) None None None None
               (Some false) None in
  let d := mkSection (Some (units "key")) (Some (units "secret")) None None None None
             None (Some [(units "ops", ops)]) in
  accountId (resolveAccount (Some d) (Some (units "ops"))) = units "ops"
  ∧ resolveAccount (Some d) (Some (units "toString"))
    = mkResolved (units "toString") inherited true
  ∧ resolveAccount (Some d) None = mkResolved default_id d (not_disabled d).
Proof.
  intros ops d.
  destruct (resolveAccount_agrees_with_getConfig (Some d) (Some (units "ops")))
    as (_ & _ & Hown & _).
  destruct (resolveAccount_agrees_with_getConfig (Some d) (Some (units "toString")))
    as (_ & _ & _ & Hinh & _).
  destruct (resolveAccount_agrees_with_getConfig (Some d) None)
    as (_ & _ & _ & _ & Hnone).
  split; [|split].
  - apply (Hown [(units "ops", ops)] eq_refl). by left.
  - apply (Hinh [(units "ops", ops)] eq_refl).
    + intros H. apply list_elem_of_singleton in H. vm_compute in H. discriminate H.
    + vm_compute. do 5 right. by left.
  - apply Hnone. intros accs [= <-]. split.
    + intros H. apply list_elem_of_singleton in H. vm_compute in H. discriminate H.
    + vm_compute. intros H.
      repeat (apply elem_of_cons in H as [H|H]; [discriminate|]).
      by apply elem_of_nil in H.
Defined.

(** X8.  An account id that is neither a key of [accounts] nor a name
    inherited from [Object.prototype] is not an error: [getConfig] and
    [isConfigured] answer for the top-level section, and [resolveAccount]
    reports the account as ["default"].  An inherited name that is not a
    key (["constructor"], ["toString"], ["__proto__"], ...) does not fall
    back when [accounts] is present: the lookup finds the inherited value,
    so [getConfig] answers with a configuration that has no field,
    [isConfigured] is false whatever the top-level credentials are, and
    [resolveAccount] reports an enabled account of that name, which is not
    configured. *)
Theorem unknown_account_falls_back_unless_inherited (d : DingTalkConfig)
    (id : list N) :
  id ≠ [] →
  (∀ accs, accounts d = Some accs → id ∉ accs.*1) →
  (id ∉ Object_prototype_keys ∨ accounts d = None →
     getConfig (Some d) (Some id) = d
     ∧ isConfigured (Some d) (Some id) = isConfigured (Some d) None
     ∧ resolveAccount (Some d) (Some id) = mkResolved default_id d (not_disabled d))
  ∧ (id ∈ Object_prototype_keys → is_Some (accounts d) →
     getConfig (Some d) (Some id) = inherited
     ∧ isConfigured (Some d) (Some id) = false
     ∧ resolveAccount (Some d) (Some id) = mkResolved id inherited true
     ∧ account_isConfigured (resolveAccount (Some d) (Some id)) = false).
Proof.
  intros Hne Hnot. unfold account_isConfigured, isConfigured, resolveAccount, getConfig.
  destruct id as [|c s]; [done|]. simpl.
  destruct (accounts d) as [accs|] eqn:Hacc; simpl.
  - specialize (Hnot accs eq_refl). split.
    + intros [Hin|?]; [|done]. by rewrite account_at_missing.
    + intros Hin _. by rewrite account_at_inherited.
  - split; [done|]. by intros _ [? ?].
Qed.

Lemma unknown_account_falls_back_unless_inherited_witness :
  let d := mkSection (Some (units "key")) (Some (units "secret")) None None None None
             None (Some [(units "ops", empty)]) in
  getConfig (Some d) (Some (units "sales")) = d
  ∧ isConfigured (Some d) None = true
  ∧ isConfigured (Some d) (Some (units "constructor")) = false
  ∧ resolveAccount (Some d) (Some (units "constructor"))
    = mkResolved (units "constructor") inherited true.
Proof.
  intros d.
  assert (Hown : ∀ id, id ≠ units "ops" →
                       ∀ accs, accounts d = Some accs → id ∉ accs.*1).
  { intros id Hid accs [= <-]. simpl. by intros ->%list_elem_of_singleton. }
  destruct (unknown_account_falls_back_unless_inherited d (units "sales")
              ltac:(intros H; vm_compute in H; discriminate H)
              (Hown (units "sales")
                 ltac:(intros H; vm_compute in H; discriminate H))) as (Hfall & _).
  destruct (unknown_account_falls_back_unless_inherited d (units "constructor")
              ltac:(intros H; vm_compute in H; discriminate H)
              (Hown (units "constructor")
                 ltac:(intros H; vm_compute in H; discriminate H))) as (_ & Hinh).
  split.
  { apply Hfall. left. vm_compute.
    intros H. repeat (apply elem_of_cons in H as [H|H]; [discriminate|]).
    by apply elem_of_nil in H. }
  split; [vm_compute; reflexivity|].
  destruct (Hinh ltac:(by left) ltac:(by eexists)) as (_ & Hc & Hr & _).
  split; [exact Hc | exact Hr].
Defined.

(** X9.  When [accounts] is present, [listAccountIds] is its keys, whatever
    the top-level credentials are: an empty [accounts] object lists no
    account even if the top-level section is configured.  Without
    [accounts] the list is [["default"]] exactly when the top-level section
    has both credentials.  Every non-empty id listed resolves to an account
    of that id. *)
Theorem listAccountIds_resolve (cfg : option DingTalkConfig) :
  (∀ accs, accounts (getConfig cfg None) = Some accs → listAccountIds cfg = accs.*1)
  ∧ (accounts (getConfig cfg None) = None →
     listAccountIds cfg = (if isConfigured cfg None then [default_id] else []))
  ∧ (∀ id, id ∈ listAccountIds cfg → id ≠ [] →
           accountId (resolveAccount cfg (Some id)) = id).
Proof.
  unfold listAccountIds. split; [|split].
  - by intros accs ->.
  - by intros ->.
  - intros id Hin Hne. unfold resolveAccount.
    destruct id as [|c s]; [done|]. simpl.
    destruct (accounts (getConfig cfg None)) as [accs|] eqn:E; simpl.
    + by destruct (account_at_own _ _ Hin) as (account & _ & ->).
    + destruct (isConfigured cfg None).
      * by apply list_elem_of_singleton in Hin as ->.
      * by apply elem_of_nil in Hin.
Qed.

Lemma listAccountIds_resolve_witness :
  let d := mkSection (Some (units "key")) (Some (units "secret")) None None None None
             None (Some []) in
  listAccountIds (Some d) = [] ∧ isConfigured (Some d) None = true.
Proof.
  intros d. split; [|vm_compute; reflexivity].
  apply (proj1 (listAccountIds_resolve (Some d)) []). reflexivity.
Defined.

End ConfigFacts.

(** * Properties of inbound messages *)

Section InboundFacts.
Import Js Inbound.
#[local] Arguments or_else : simpl never.

Lemma or_else_nil o d : or_else o d = [] → d = [].
Proof. by destruct o as [[|c s]|]. Qed.

(** X10.  [extractMessageContent] reports the message type it was given
    (["text"] when there is none).  Its text is empty only for a text
    message whose content is absent or white space; every other kind of
    message gets a non-empty text.  A media path is returned only for
    picture, audio, video and file messages, and is the download code. *)
Theorem extractMessageContent_text (data : DingTalkInboundMessage) :
  let m := extractMessageContent data in
  messageType m = or_else (msgtype data) (units "text")
  ∧ (text m = [] →
     messageType m = units "text"
     ∧ (text_content data = None
        ∨ ∃ s, text_content data = Some s ∧ Forall (λ c, is_space c = true) s))
  ∧ (messageType m = units "text" → text m = or_else (trim <$> text_content data) [])
  ∧ (∀ p, mediaPath m = Some p →
          messageType m ∈ [units "picture"; units "audio"; units "video"; units "file"]
          ∧ content data ≫= downloadCode = Some p).
Proof.
  unfold extractMessageContent.
  set (ty := or_else (msgtype data) (units "text")).
  repeat case_bool_decide; simpl.
  - split; [done|]. split; [|done].
    intros Hnil. split; [done|].
    destruct (text_content data) as [s|]; [|by left]. right. exists s.
    split; [done|]. unfold or_else in Hnil. simpl in Hnil. apply trim_nil_blank.
    by destruct (trim s).
  - split; [done|]. split; [|split; [by intros ?; congruence|done]].
    by intros ?%or_else_nil.
  - split; [done|]. split; [done|]. split; [by intros ?; congruence|].
    intros p Hp. split; [in_list|done].
  - split; [done|]. split; [|split; [by intros ?; congruence|]].
    + by intros ?%or_else_nil.
    + intros p Hp. split; [in_list|done].
  - split; [done|]. split; [done|]. split; [by intros ?; congruence|].
    intros p Hp. split; [in_list|done].
  - split; [done|]. split; [done|]. split; [by intros ?; congruence|].
    intros p Hp. split; [in_list|done].
  - split; [done|]. split; [|done].
    by intros ?%or_else_nil.
Qed.

Lemma extractMessageContent_text_witness :
  content (mkInbound (Some (units "picture")) None
             (Some (mkContent None (Some (units "code-1")) None None))
             None None None None None) ≫= downloadCode
  = Some (units "code-1").
Proof.
  apply (proj2 (proj2 (proj2 (proj2 (extractMessageContent_text
           (mkInbound (Some (units "picture")) None
              (Some (mkContent None (Some (units "code-1")) None None))
              None None None None None)))) (units "code-1") eq_refl)).
Defined.

End InboundFacts.

Section GateFacts.
Import Js Inbound.
Variable toLowerCase : list N → list N.

Lemma some_entry_not_blank (l : list (list N)) :
  ¬ (∀ e, e ∈ l → trim e = []) → ∃ e, e ∈ l ∧ trim e ≠ [].
Proof.
  induction l as [|e l IH]; intros Hnot.
  - exfalso. apply Hnot. intros e He. by apply elem_of_nil in He.
  - destruct (decide (trim e = [])) as [He|He].
    + destruct IH as (e' & He' & Hne).
      * intros Hb. apply Hnot. intros y [->|Hy]%elem_of_cons; auto.
      * exists e'. split; [by right|done].
    + exists e. split; [by left|done].
Qed.

(** X11.  [handleDingTalkMessage] blocks a message only when it is a direct
    message, the policy is ["allowlist"], the allow-list has an entry that is
    not blank, none of its entries is the wildcard, and the sender's id
    ([senderStaffId], else [senderId]) matches no entry.  So group messages
    are never blocked, any other policy admits every direct message, and so
    does ["allowlist"] with an empty allow-list. *)
Theorem blocked_only_by_allowlist (dingtalkConfig : Config.DingTalkConfig)
    (data : DingTalkInboundMessage) (who : option (list N)) :
  dispose toLowerCase dingtalkConfig data = Blocked who →
  conversationType data = Some (units "1")
  ∧ Config.dmPolicy dingtalkConfig = Some (units "allowlist")
  ∧ who = first_truthy (senderStaffId data) (senderId data)
  ∧ (∃ e, e ∈ default [] (Config.allowFrom dingtalkConfig) ∧ trim e ≠ [])
  ∧ (∀ e, e ∈ default [] (Config.allowFrom dingtalkConfig) → trim e ≠ Allow.star)
  ∧ (∀ c s e, who = Some (c :: s) →
              e ∈ default [] (Config.allowFrom dingtalkConfig) → trim e ≠ [] →
              toLowerCase (strip_channel_prefix (trim e)) ≠ toLowerCase (c :: s)).
Proof.
  unfold dispose.
  destruct (_ || _); [discriminate|].
  destruct (negb _); [discriminate|].
  case_bool_decide as Hdirect; [|discriminate].
  case_bool_decide as Hpolicy; [|discriminate].
  destruct (Allow.isSenderAllowed _ _ _) eqn:Hallow; [discriminate|].
  intros [= <-].
  pose proof (allowed_intro toLowerCase
                (Some (default [] (Config.allowFrom dingtalkConfig)))
                (first_truthy (senderStaffId data) (senderId data))) as Hiff.
  simpl in Hiff.
  assert (Hnot : ¬ ((∀ e, e ∈ default [] (Config.allowFrom dingtalkConfig) → trim e = [])
                    ∨ (∃ e, e ∈ default [] (Config.allowFrom dingtalkConfig)
                            ∧ trim e = Allow.star)
                    ∨ (∃ c s e, first_truthy (senderStaffId data) (senderId data)
                                = Some (c :: s)
                                ∧ e ∈ default [] (Config.allowFrom dingtalkConfig)
                                ∧ trim e ≠ [] ∧ trim e ≠ Allow.star
                                ∧ toLowerCase (strip_channel_prefix (trim e))
                                  = toLowerCase (c :: s)))).
  { intros H. apply Hiff in H. congruence. }
  split; [done|]. split.
  { destruct (Config.dmPolicy dingtalkConfig) as [[|c s]|]; simpl in Hpolicy;
      try discriminate. by rewrite Hpolicy. }
  split; [done|].
  assert (Hstar : ∀ e, e ∈ default [] (Config.allowFrom dingtalkConfig) →
                       trim e ≠ Allow.star).
  { intros e He Heq. apply Hnot. right. left. eauto. }
  split; [|split; [done|]].
  - apply some_entry_not_blank. intros Hb. apply Hnot. by left.
  - intros c s e Hwho He Hne Heq. apply Hnot. right. right.
    exists c, s, e. repeat split; auto.
Qed.

(** X12.  Whatever is accepted is accepted with [CommandAuthorized] true:
    nothing in the handler ever clears it.  A direct message is answered to
    its sender, a group message to the conversation. *)
Theorem accepted_is_authorized (dingtalkConfig : Config.DingTalkConfig)
    (data : DingTalkInboundMessage) (isDirect : bool) (who to : option (list N))
    (authorized : bool) :
  dispose toLowerCase dingtalkConfig data = Accepted isDirect who to authorized →
  authorized = true
  ∧ text (extractMessageContent data) ≠ []
  ∧ senderId data ≠ chatbotUserId data
  ∧ senderStaffId data ≠ chatbotUserId data
  ∧ who = first_truthy (senderStaffId data) (senderId data)
  ∧ to = (if isDirect then who else conversationId data).
Proof.
  unfold dispose.
  destruct (bool_decide (senderId data = chatbotUserId data)) eqn:E1;
    [discriminate|].
  destruct (bool_decide (senderStaffId data = chatbotUserId data)) eqn:E2;
    [discriminate|].
  apply bool_decide_eq_false in E1, E2. simpl.
  destruct (text (extractMessageContent data)) as [|c t] eqn:Ht; [discriminate|].
  simpl.
  case_bool_decide as Hdirect.
  - case_bool_decide as Hpolicy.
    + destruct (Allow.isSenderAllowed _ _ _); [|discriminate].
      intros [= <- <- <- <-]. repeat split; done.
    + intros [= <- <- <- <-]. repeat split; done.
  - intros [= <- <- <- <-]. repeat split; done.
Qed.

(** X13.  Listing a plain id (word characters and hyphens) admits the sender
    of exactly that id, wherever in the allow-list it is put. *)
Theorem listed_plain_id_is_allowed (before after : list (list N)) (id : list N) :
  Target.looksLikeId id = true →
  Allow.isSenderAllowed toLowerCase
    (Allow.normalizeAllowFrom toLowerCase (Some (before ++ id :: after)))
    (Some id) = true.
Proof.
  intros Hid.
  destruct (plain_id_fixed id Hid) as (Hstrip & Htrim).
  destruct id as [|c s]; [discriminate|].
  apply allowed_intro. simpl.
  destruct (decide (c :: s = Allow.star)) as [Hstar|Hstar].
  - right. left. exists (c :: s). split; [|by rewrite Htrim].
    apply elem_of_app. right. by left.
  - right. right. exists c, s, (c :: s). rewrite Htrim.
    split; [done|]. split; [apply elem_of_app; right; by left|].
    split; [done|]. split; [done|]. by rewrite Hstrip.
Qed.

End GateFacts.

Lemma blocked_only_by_allowlist_witness :
  let cfg := Config.mkSection None None None (Some (Js.units "allowlist"))
               (Some [Js.units "dd:alice"]) None None None in
  let data := Inbound.mkInbound None (Some (Js.units "hi")) None
                (Some (Js.units "bob")) None (Some (Js.units "robot"))
                (Some (Js.units "1")) (Some (Js.units "cid1")) in
  Inbound.dispose Js.ascii_lower cfg data = Inbound.Blocked (Some (Js.units "bob"))
  ∧ Config.dmPolicy cfg = Some (Js.units "allowlist").
Proof.
  intros cfg data.
  assert (H : Inbound.dispose Js.ascii_lower cfg data
              = Inbound.Blocked (Some (Js.units "bob"))) by (vm_compute; reflexivity).
  split; [exact H|].
  exact (proj1 (proj2 (blocked_only_by_allowlist Js.ascii_lower cfg data _ H))).
Defined.

Lemma accepted_is_authorized_witness :
  let data := Inbound.mkInbound None (Some (Js.units "hi")) None
                (Some (Js.units "bob")) None (Some (Js.units "robot"))
                (Some (Js.units "2")) (Some (Js.units "cid1")) in
  Inbound.dispose Js.ascii_lower Config.empty data
  = Inbound.Accepted false (Some (Js.units "bob")) (Some (Js.units "cid1")) true.
Proof.
  intros data.
  assert (H : ∃ a, Inbound.dispose Js.ascii_lower Config.empty data
              = Inbound.Accepted false (Some (Js.units "bob"))
                  (Some (Js.units "cid1")) a) by (eexists; vm_compute; reflexivity).
  destruct H as [a H].
  rewrite H. f_equal.
  exact (proj1 (accepted_is_authorized Js.ascii_lower Config.empty data _ _ _ _ H)).
Defined.

Lemma listed_plain_id_is_allowed_witness :
  Allow.isSenderAllowed Js.ascii_lower
    (Allow.normalizeAllowFrom Js.ascii_lower
       (Some ([Js.units "dd:alice"] ++ Js.units "user-42" :: [])))
    (Some (Js.units "user-42")) = true.
Proof.
  apply (listed_plain_id_is_allowed Js.ascii_lower [Js.units "dd:alice"] []
           (Js.units "user-42")).
  vm_compute. reflexivity.
Defined.

(** * Properties of the file extension *)

Section MediaFacts.
Import Js Media.

Lemma take_until_none f s c : c ∈ take_until f s → f c = false.
Proof.
  destruct (take_until_split f s) as (rest & _ & Hall).
  rewrite Forall_forall in Hall. apply Hall.
Qed.

Lemma take_until_sub f s c : c ∈ take_until f s → c ∈ s.
Proof.
  destruct (take_until_split f s) as (rest & Hs & _).
  intros Hc. rewrite Hs. apply elem_of_app. by left.
Qed.

(** X14.  The extension taken from a content type is never empty and
    contains neither a slash nor a semicolon; a content type without a
    slash gives ["bin"]. *)
Theorem extension_is_safe (contentType : list N) :
  extension contentType ≠ []
  ∧ (47%N ∉ extension contentType)
  ∧ (59%N ∉ extension contentType)
  ∧ ((47%N ∉ contentType) → extension contentType = units "bin").
Proof.
  assert (Hbin : units "bin" ≠ [] ∧ (47%N ∉ units "bin") ∧ (59%N ∉ units "bin")).
  { split; [by vm_compute|].
    split; intros Hin; vm_compute in Hin;
      repeat (apply elem_of_cons in Hin as [Hin|Hin]; [discriminate|]);
      by apply elem_of_nil in Hin. }
  destruct Hbin as (Hb1 & Hb2 & Hb3).
  unfold extension, after_first.
  destruct (drop_while_split (λ c, negb (is_slash c)) contentType)
    as (k & Hk & Hall).
  destruct (drop_while (λ c, negb (is_slash c)) contentType) as [|c rest] eqn:E.
  - done.
  - assert (Hc : c = 47%N).
    { apply drop_while_head in E. apply negb_false_iff in E.
      by apply N.eqb_eq in E. }
    assert (Hslash : 47%N ∈ contentType).
    { rewrite Hk, Hc. apply elem_of_app. right. by left. }
    destruct (take_until is_semicolon (take_until is_slash rest)) as [|x xs] eqn:Ex.
    + simpl. split; [done|]. split; [done|]. split; [done|].
      intros Hno. by destruct Hno.
    + simpl. rewrite <- Ex. split; [by rewrite Ex|]. split; [|split].
      * intros Hin. apply take_until_sub, take_until_none in Hin. done.
      * intros Hin. apply take_until_none in Hin. done.
      * intros Hno. by destruct Hno.
Qed.

Lemma extension_is_safe_witness : extension (units "text-plain") = units "bin".
Proof.
  apply (proj2 (proj2 (proj2 (extension_is_safe (units "text-plain"))))).
  intros Hin. vm_compute in Hin.
  repeat (apply elem_of_cons in Hin as [Hin|Hin]; [discriminate|]).
  by apply elem_of_nil in Hin.
Defined.

End MediaFacts.

(** * Properties of runs of the throttler *)

Section RunFacts.
Import Card Runs.

Implicit Types (s : state) (id text : string) (now : Z) (h k p : nat).

Lemma complete_fields k out now s s' :
  complete k out now s = Some s' →
  dispatched s' = dispatched s
  ∧ cardUpdateTimestamps s' = cardUpdateTimestamps s
  ∧ length (inflight s') = length (inflight s)
  ∧ length (promises s') = length (promises s)
  ∧ ∃ r, inflight s !! k = Some r ∧ r_open r = true
         ∧ cardInstances s'
           = (updateInteractiveCard_settle (r_card r) now out (cardInstances s)).1
         ∧ ((out = PutOk ∧ r_caller r = Throttled
             ∧ timers s' = timers s ++ [mkTimer now CARD_UPDATE_TIMEOUT
                                           (InactivityTimeout (r_card r)) true]
             ∧ cardUpdateTimeouts s'
               = <[r_card r := length (timers s)]> (cardUpdateTimeouts s)
             ∧ promises s' = <[r_promise r := Resolved]> (promises s))
            ∨ (out = PutOk ∧ r_caller r = Direct
               ∧ timers s' = timers s
               ∧ cardUpdateTimeouts s' = cardUpdateTimeouts s
               ∧ promises s' = <[r_promise r := Resolved]> (promises s))
            ∨ (out ≠ PutOk
               ∧ timers s' = timers s
               ∧ cardUpdateTimeouts s' = cardUpdateTimeouts s
               ∧ promises s' = <[r_promise r := Rejected]> (promises s))).
Proof.
  unfold complete.
  destruct (inflight s !! k) as [r|] eqn:Hk; [|discriminate].
  destruct (r_open r) eqn:Hopen; [|discriminate].
  destruct out as [| |status]; simpl.
  - intros [= <-]. simpl. rewrite !length_insert.
    repeat split; try done. exists r. repeat split; try done. right. right. done.
  - destruct (r_caller r) eqn:Hcaller; intros [= <-]; simpl;
      rewrite !length_insert.
    + repeat split; try done. exists r. repeat split; try done. right. left. done.
    + repeat split; try done. exists r. repeat split; try done. left. done.
  - intros [= <-]. simpl. rewrite !length_insert.
    repeat split; try done. exists r. repeat split; try done. right. right. done.
Qed.

Lemma fire_fields h now s s' :
  fire h now s = Some s' →
  ∃ t, timers s !! h = Some t ∧ live t = true ∧ armed_at t + delay t ≤ now
       ∧ timers s' = alter stop_timer h (timers s)
       ∧ cardInstances s' = cardInstances s
       ∧ promises s' = promises s
       ∧ ((∃ id text p, action t = DelayedUpdate id text p
             ∧ dispatched s' = dispatched s ++ [(id, text, now)]
             ∧ inflight s' = inflight s ++ [mkRequest id text p Throttled true]
             ∧ cardUpdateTimestamps s' = <[id := now]> (cardUpdateTimestamps s)
             ∧ cardUpdateTimeouts s' = cardUpdateTimeouts s)
          ∨ (∃ id, action t = InactivityTimeout id
               ∧ dispatched s' = dispatched s
               ∧ inflight s' = inflight s
               ∧ cardUpdateTimestamps s' = cardUpdateTimestamps s
               ∧ cardUpdateTimeouts s' = delete id (cardUpdateTimeouts s))).
Proof.
  unfold fire. destruct (timers s !! h) as [t|] eqn:Ht; [|discriminate].
  destruct (live t) eqn:Hlive; [|discriminate]. simpl.
  destruct (armed_at t + delay t <=? now) eqn:Hdue; [|discriminate].
  apply Z.leb_le in Hdue.
  destruct (action t) as [id text p|id] eqn:Hact; intros [= <-]; simpl;
    exists t; repeat split; try done.
  - left. exists id, text, p. done.
  - right. exists id. done.
Qed.

Lemma throttled_fields id text now s :
  let s' := updateInteractiveCardThrottled id text now s in
  cardInstances s' = cardInstances s
  ∧ ((CARD_UPDATE_MIN_INTERVAL ≤ now - lastUpdateOf s id
      ∧ dispatched s' = dispatched s ++ [(id, text, now)]
      ∧ timers s' = timers (clear_existing id s)
      ∧ cardUpdateTimeouts s' = cardUpdateTimeouts s
      ∧ inflight s' = inflight s ++ [mkRequest id text (length (promises s)) Throttled true]
      ∧ promises s' = promises s ++ [Pending])
     ∨ (now - lastUpdateOf s id < CARD_UPDATE_MIN_INTERVAL
        ∧ dispatched s' = dispatched s
        ∧ timers s' = timers (clear_existing id s) ++ [delayed_timer id text now s]
        ∧ cardUpdateTimeouts s' = <[id := length (timers s)]> (cardUpdateTimeouts s)
        ∧ inflight s' = inflight s
        ∧ promises s' = promises s ++ [Pending])).
Proof.
  intros s'. subst s'. split; [apply throttled_registry|].
  destruct (clear_existing_fields id s) as (_ & _ & Hto & Hin & Hpr & Hd & _).
  destruct (Z_lt_le_dec (now - lastUpdateOf s id) CARD_UPDATE_MIN_INTERVAL).
  - right. rewrite throttled_delayed by done. simpl.
    rewrite Hto, Hin, Hpr, Hd. done.
  - left. rewrite throttled_immediate by done. simpl.
    rewrite Hto, Hin, Hpr, Hd. done.
Qed.

(** ** The dispatch log *)

Lemma step_dispatched s e s' :
  step s e = Some s' →
  dispatched s' = dispatched s
  ∨ ∃ id text now, dispatched s' = dispatched s ++ [(id, text, now)].
Proof.
  destruct e as [id conv now|id text now|id text now|h now|k out now|now]; simpl.
  - intros [= <-]. by left.
  - intros [= <-]. right. by exists id, text, now.
  - intros [= <-].
    destruct (throttled_fields id text now s) as (_ & [(_ & -> & _)|(_ & -> & _)]);
      [right; by exists id, text, now | by left].
  - intros (t & _ & _ & _ & _ & _ & _ & [(id & text & p & _ & -> & _)|(id & _ & -> & _)])%fire_fields;
      [right; by exists id, text, now | by left].
  - intros (-> & _)%complete_fields. by left.
  - intros [= <-]. left.
    by destruct (cleanup_inv now s) as (_ & _ & _ & _ & _ & _ & _ & _ & ->).
Qed.

(** X15.  The dispatch log only ever grows at its end, by at most one entry
    per event; a completion, a sweep and a registration add nothing. *)
Theorem dispatch_log_is_append_only (es : list event) (s s' : state) :
  run s es = Some s' →
  dispatched s `prefix_of` dispatched s'
  ∧ (length (dispatched s') ≤ length (dispatched s) + length es)%nat
  ∧ (∀ e, es = [e] →
          match e with
          | Complete _ _ _ | Cleanup _ | Send _ _ _ => dispatched s' = dispatched s
          | _ => True
          end).
Proof.
  intros Hrun. split; [|split].
  - revert s Hrun. induction es as [|e es IH]; intros s; simpl.
    + by intros [= <-].
    + destruct (step s e) as [s1|] eqn:Hstep; [|discriminate].
      intros Hrun. etrans; [|by apply IH].
      destruct (step_dispatched _ _ _ Hstep) as [->|(id & text & now & ->)];
        [done | by apply prefix_app_r].
  - revert s Hrun. induction es as [|e es IH]; intros s; simpl.
    + intros [= <-]. lia.
    + destruct (step s e) as [s1|] eqn:Hstep; [|discriminate].
      intros Hrun%IH.
      destruct (step_dispatched _ _ _ Hstep) as [E|(id & text & now & E)];
        rewrite E in Hrun; rewrite ?length_app in Hrun; simpl in Hrun; lia.
  - intros e ->. simpl in Hrun.
    destruct (step s e) as [s1|] eqn:Hstep; [|discriminate].
    injection Hrun as <-.
    destruct e as [id conv now|id text now|id text now|h now|k out now|now];
      simpl in Hstep; try done.
    + by injection Hstep as <-.
    + by apply complete_fields in Hstep as (-> & _).
    + injection Hstep as <-.
      by destruct (cleanup_inv now s) as (_ & _ & _ & _ & _ & _ & _ & _ & ->).
Qed.

Lemma dispatch_log_is_append_only_witness :
  ∃ s', run init [UpdateThrottled "card" "a" 1000; Complete 0 PutOk 1100;
                  Cleanup 2000] = Some s'
        ∧ (length (dispatched s') ≤ length (dispatched init) + 3)%nat.
Proof.
  eexists. split; [vm_compute; reflexivity|].
  match goal with |- (length (dispatched ?s') ≤ _)%nat =>
    exact (proj1 (proj2 (dispatch_log_is_append_only
             [UpdateThrottled "card" "a" 1000; Complete 0 PutOk 1100; Cleanup 2000]
             init s' ltac:(vm_compute; reflexivity))))
  end.
Defined.

(** ** Timers *)

Lemma weaker_timers_trans (t t1 : timer) (o : option timer) :
  (o = Some t1 ∨ o = Some (stop_timer t1)) →
  (t1 = t ∨ t1 = stop_timer t) →
  o = Some t ∨ o = Some (stop_timer t).
Proof. intros [-> | ->] [-> | ->]; auto. Qed.

Lemma step_timers s e s' h t :
  step s e = Some s' → timers s !! h = Some t →
  timers s' !! h = Some t ∨ timers s' !! h = Some (stop_timer t).
Proof.
  intros Hstep Ht.
  assert (Hstop : ∀ h0, alter stop_timer h0 (timers s) !! h = Some t
                        ∨ alter stop_timer h0 (timers s) !! h = Some (stop_timer t)).
  { intros h0. destruct (alter_stop_any (timers s) h0 h) as [-> | ->];
      rewrite Ht; auto. }
  assert (Hclear : ∀ id, timers (clear_existing id s) !! h = Some t
                         ∨ timers (clear_existing id s) !! h = Some (stop_timer t)).
  { intros id. destruct (clear_existing_timers id s h) as [-> | ->];
      rewrite Ht; auto. }
  destruct e as [id conv now|id text now|id text now|h0 now|k out now|now];
    simpl in Hstep.
  - injection Hstep as <-. by left.
  - injection Hstep as <-. by left.
  - injection Hstep as <-.
    destruct (throttled_fields id text now s)
      as (_ & [(_ & _ & -> & _)|(_ & _ & -> & _)]); [apply Hclear|].
    destruct (Hclear id) as [E|E]; [left|right];
      rewrite lookup_app_l; try done; by eapply lookup_lt_Some.
  - apply fire_fields in Hstep as (t0 & _ & _ & _ & -> & _). apply Hstop.
  - apply complete_fields in Hstep
      as (_ & _ & _ & _ & r & _ & _ & _ & [(_ & _ & -> & _)|[(_ & _ & -> & _)|(_ & -> & _)]]);
      [|by left|by left].
    left. rewrite lookup_app_l; [done|]. by eapply lookup_lt_Some.
  - injection Hstep as <-.
    destruct (cleanup_inv now s) as (_ & _ & _ & Hany & _).
    destruct (Hany h) as [-> | ->]; rewrite Ht; auto.
Qed.

Lemma run_timers (es : list event) : ∀ (s s' : state) (h : nat) (t : timer),
  run s es = Some s' → timers s !! h = Some t →
  timers s' !! h = Some t ∨ timers s' !! h = Some (stop_timer t).
Proof.
  induction es as [|e es IH]; intros s s' h t; simpl.
  - intros [= <-] Ht. by left.
  - destruct (step s e) as [s1|] eqn:Hstep; [|discriminate].
    intros Hrun Ht.
    destruct (step_timers _ _ _ h t Hstep Ht) as [H1|H1].
    + by apply (IH s1).
    + destruct (IH s1 _ _ _ Hrun H1) as [-> | ->]; by right.
Qed.

(** X16.  A timer keeps its handle, its callback and its due time for the
    rest of the run, and once it has fired or been cleared it stays so: no
    timer fires twice. *)
Theorem timers_fire_at_most_once (es : list event) (s s' : state) (h : nat)
    (t : timer) :
  run s es = Some s' → timers s !! h = Some t →
  (timers s' !! h = Some t ∨ timers s' !! h = Some (stop_timer t))
  ∧ (live t = false → ∀ now, fire h now s' = None)
  ∧ (∀ s0 now0, fire h now0 s0 = Some s → ∀ now, fire h now s' = None).
Proof.
  intros Hrun Ht.
  pose proof (run_timers es s s' h t Hrun Ht) as Hkeep.
  assert (Hdead : live t = false → ∀ now, fire h now s' = None).
  { intros Hlive now. destruct Hkeep as [E|E]; eapply fire_dead; eauto. }
  split; [done|]. split; [done|].
  intros s0 now0 Hfire now.
  apply fire_fields in Hfire as (t0 & Ht0 & _ & _ & Htimers & _).
  apply Hdead. rewrite Htimers in Ht.
  rewrite list_lookup_alter_eq, Ht0 in Ht. by injection Ht as <-.
Qed.

Lemma timers_fire_at_most_once_witness :
  ∃ s, run init [UpdateThrottled "card" "a" 1000; UpdateThrottled "card" "b" 1100;
                 Fire 0 1500] = Some s
       ∧ ∃ s', run s [Complete 0 PutOk 1600; Complete 1 PutOk 1700] = Some s'
               ∧ ∀ now, fire 0 now s' = None.
Proof.
  eexists. split; [vm_compute; reflexivity|].
  match goal with |- ∃ s', run ?s _ = _ ∧ _ => pose (s0 := s) end.
  eexists. split; [vm_compute; reflexivity|].
  match goal with |- ∀ now, fire 0 now ?s' = None =>
    exact (proj1 (proj2 (timers_fire_at_most_once
             [Complete 0 PutOk 1600; Complete 1 PutOk 1700] s0 s' 0%nat
             (mkTimer 1100 400 (DelayedUpdate "card" "b" 1) false)
             ltac:(vm_compute; reflexivity) ltac:(vm_compute; reflexivity)))
           eq_refl)
  end.
Defined.

End RunFacts.

(** * The sweep and the timers of an evicted card *)

Section SweepFacts.
Import Card Runs.

Implicit Types (s : state) (id text : string) (now : Z) (h k p : nat).

Lemma cleanup_timers_length now s :
  length (timers (cleanupCardCache now s)) = length (timers s).
Proof.
  destruct (cleanup_inv now s) as (_ & _ & _ & Hany & _).
  destruct (Nat.lt_trichotomy (length (timers (cleanupCardCache now s)))
                              (length (timers s))) as [Hlt|[Heq|Hgt]]; [|done|].
  - exfalso. apply lookup_lt_is_Some_2 in Hlt as [t Ht].
    destruct (Hany (length (timers (cleanupCardCache now s)))) as [E|E];
      rewrite Ht, lookup_ge_None_2 in E by done; discriminate.
  - exfalso. apply lookup_lt_is_Some_2 in Hgt as [t Ht].
    destruct (Hany (length (timers s))) as [E|E];
      rewrite Ht, lookup_ge_None_2 in E by done; discriminate.
Qed.

(** C7, as amended.  One run of [cleanupCardCache] removes from the registry
    exactly the records whose [now - lastUpdated] exceeds [CARD_CACHE_TTL].
    For each removed record it also drops the card's recorded dispatch time
    and the card's entry in [cardUpdateTimeouts], and clears the timer that
    entry held, all in the same turn of the event loop: that timer never
    fires, whatever happens afterwards.  A record whose age does not exceed
    the TTL is left as it was, with its throttler entries; every timer that
    is not recorded for an evicted card is left as it was, and so are the
    requests in flight, the promises and the dispatch log.  In particular a
    throttled update of the evicted card that is in flight is not
    cancelled: when its round trip ends well after the sweep, an inactivity
    timer is armed and recorded for the card, which is no longer in the
    registry, and that timer fires [CARD_UPDATE_TIMEOUT] later. *)
Theorem sweep_evicts_exactly_stale (s : state) (now : Z) (id : string) :
  let s' := cleanupCardCache now s in
  (∀ instance, cardInstances s !! id = Some instance →
     CARD_CACHE_TTL < now - lastUpdated instance →
     cardInstances s' !! id = None
     ∧ cardUpdateTimestamps s' !! id = None
     ∧ cardUpdateTimeouts s' !! id = None
     ∧ (∀ h t, cardUpdateTimeouts s !! id = Some h → timers s !! h = Some t →
          timers s' !! h = Some (stop_timer t)
          ∧ ∀ es s'', run s' es = Some s'' → ∀ now', fire h now' s'' = None)
     ∧ (∀ k r now', inflight s !! k = Some r → r_open r = true →
          r_card r = id → r_caller r = Throttled →
          ∃ s'', complete k PutOk now' s' = Some s''
                 ∧ cardInstances s'' !! id = None
                 ∧ cardUpdateTimeouts s'' !! id = Some (length (timers s))
                 ∧ timers s'' !! length (timers s)
                   = Some (mkTimer now' CARD_UPDATE_TIMEOUT (InactivityTimeout id) true)
                 ∧ ∃ s3, fire (length (timers s)) (now' + CARD_UPDATE_TIMEOUT) s''
                         = Some s3))
  ∧ (∀ instance, cardInstances s !! id = Some instance →
       now - lastUpdated instance ≤ CARD_CACHE_TTL →
       cardInstances s' !! id = Some instance
       ∧ cardUpdateTimestamps s' !! id = cardUpdateTimestamps s !! id
       ∧ cardUpdateTimeouts s' !! id = cardUpdateTimeouts s !! id)
  ∧ (cardInstances s !! id = None →
       cardInstances s' !! id = None
       ∧ cardUpdateTimestamps s' !! id = cardUpdateTimestamps s !! id
       ∧ cardUpdateTimeouts s' !! id = cardUpdateTimeouts s !! id)
  ∧ (∀ h, (∀ j instance, cardInstances s !! j = Some instance →
                         CARD_CACHE_TTL < now - lastUpdated instance →
                         cardUpdateTimeouts s !! j ≠ Some h) →
          timers s' !! h = timers s !! h)
  ∧ inflight s' = inflight s
  ∧ promises s' = promises s
  ∧ dispatched s' = dispatched s.
Proof.
  intros s'. subst s'.
  destruct (cleanup_inv now s)
    as (Hreg & Hts & Hto & Hany & Hstop & Hkeep & Hin & Hpr & Hd).
  split; [|split; [|split; [|split]]].
  - intros instance Hid Hold.
    assert (Hsw : swept now (cardInstances s) id = true).
    { rewrite (swept_stale _ _ _ _ Hid). by apply bool_decide_eq_true_2. }
    rewrite Hreg, Hts, Hto, Hsw. do 3 (split; [done|]). split.
    + intros h t Hh Ht.
      assert (Hdead : timers (cleanupCardCache now s) !! h = Some (stop_timer t)).
      { by rewrite (Hstop h id Hsw Hh), Ht. }
      split; [done|]. intros es s'' Hrun now'.
      destruct (run_timers es _ _ h _ Hrun Hdead) as [E|E]; by eapply fire_dead.
    + intros k r now' Hk Hopen Hcard Hcaller.
      unfold complete. rewrite Hin, Hk, Hopen. simpl. rewrite Hcaller, Hcard.
      eexists. split; [reflexivity|]. simpl.
      rewrite cleanup_timers_length, lookup_insert_eq.
      split. { by rewrite lookup_alter_eq, Hreg, Hsw. }
      split; [done|].
      assert (Hnew : (timers (cleanupCardCache now s)
                      ++ [mkTimer now' CARD_UPDATE_TIMEOUT (InactivityTimeout id) true])
                     !! length (timers s)
                     = Some (mkTimer now' CARD_UPDATE_TIMEOUT (InactivityTimeout id) true)).
      { rewrite <- (cleanup_timers_length now s). by apply list_lookup_middle. }
      split; [done|].
      unfold fire. simpl. rewrite Hnew. simpl.
      rewrite (proj2 (Z.leb_le _ _)) by lia. by eexists.
  - intros instance Hid Hyoung.
    assert (Hsw : swept now (cardInstances s) id = false).
    { rewrite (swept_stale _ _ _ _ Hid). apply bool_decide_eq_false_2. lia. }
    by rewrite Hreg, Hts, Hto, Hsw.
  - intros Hid.
    assert (Hsw : swept now (cardInstances s) id = false) by (by apply swept_fresh).
    by rewrite Hreg, Hts, Hto, Hsw.
  - intros h Hnone. apply Hkeep. intros j Hsw.
    unfold swept in Hsw. destruct (cardInstances s !! j) as [instance|] eqn:Hj;
      [|discriminate].
    apply (Hnone j instance Hj). simpl in Hsw. by apply Z.ltb_lt in Hsw.
  - done.
Qed.

Lemma sweep_evicts_exactly_stale_witness :
  ∃ s, run init [Send "old" "conv" 1000; Send "new" "conv" 3000000;
                 UpdateThrottled "old" "a" 3601000;
                 UpdateThrottled "old" "b" 3601100] = Some s
       ∧ cardUpdateTimeouts s !! "old" = Some 0%nat
       ∧ cardInstances (cleanupCardCache 3601200 s) !! "old" = None
       ∧ (∀ now', fire 0 now' (cleanupCardCache 3601200 s) = None)
       ∧ cardInstances (cleanupCardCache 3601200 s) !! "new"
         = Some (mkCard "new" "conv" 3000000 3000000)
       ∧ ∃ s'', complete 0 PutOk 3601300 (cleanupCardCache 3601200 s) = Some s''
                ∧ cardUpdateTimeouts s'' !! "old" = Some (length (timers s)).
Proof.
  eexists. split; [vm_compute; reflexivity|]. split; [vm_compute; reflexivity|].
  match goal with |- cardInstances (cleanupCardCache _ ?s) !! _ = _ ∧ _ =>
    destruct (sweep_evicts_exactly_stale s 3601200 "old")
      as (Hold & _);
    destruct (sweep_evicts_exactly_stale s 3601200 "new")
      as (_ & Hnew & _)
  end.
  destruct (Hold (mkCard "old" "conv" 1000 1000)
              ltac:(vm_compute; reflexivity) ltac:(vm_compute; reflexivity))
    as (Hgone & _ & _ & Htimer & Hflight).
  destruct (Hnew (mkCard "new" "conv" 3000000 3000000)
              ltac:(vm_compute; reflexivity)
              ltac:(vm_compute; discriminate)) as (Hkept & _).
  split; [exact Hgone|]. split.
  { intros now'.
    exact (proj2 (Htimer 0%nat _ ltac:(vm_compute; reflexivity)
                    ltac:(vm_compute; reflexivity)) [] _ eq_refl now'). }
  split; [exact Hkept|].
  destruct (Hflight 0%nat _ 3601300 ltac:(vm_compute; reflexivity) eq_refl eq_refl
              eq_refl) as (s'' & Hs'' & _ & Hto & _).
  exists s''. split; [exact Hs'' | exact Hto].
Defined.

(** C7, counterexample: a timer fires for a card after the sweep evicted it.
    The card was registered at 1000 and not updated since.  An update
    called at 3601500 is in flight when the sweep runs at 3601600 and evicts
    the card; no timer is recorded for it, so none is cleared.  The round
    trip ends at 3601700 and arms the inactivity timer (handle 0) for the
    evicted card, which fires at 3661700. *)
Lemma timer_fires_after_eviction :
  ∃ s, run init [Send "card" "conv" 1000; UpdateThrottled "card" "a" 3601500]
       = Some s
       ∧ cardInstances s !! "card" = Some (mkCard "card" "conv" 1000 1000)
       ∧ cardInstances (cleanupCardCache 3601600 s) !! "card" = None
       ∧ ∃ s', run (cleanupCardCache 3601600 s) [Complete 0 PutOk 3601700] = Some s'
               ∧ cardInstances s' !! "card" = None
               ∧ timers s' !! 0%nat
                 = Some (mkTimer 3601700 60000 (InactivityTimeout "card") true)
               ∧ is_Some (fire 0 3661700 s')
               ∧ ¬ (∀ h now', fire h now' s' = None).
Proof.
  eexists. split; [vm_compute; reflexivity|].
  split; [vm_compute; reflexivity|]. split; [vm_compute; reflexivity|].
  eexists. split; [vm_compute; reflexivity|].
  split; [vm_compute; reflexivity|]. split; [vm_compute; reflexivity|].
  split; [vm_compute; by eexists|].
  intros Hnone. specialize (Hnone 0%nat 3661700). vm_compute in Hnone. discriminate.
Qed.

End SweepFacts.

Section RegistryFacts.
Import Card Runs.

Implicit Types (s : state) (id text : string) (now : Z) (h k p : nat).

(** ** The registry *)

Lemma step_registry s e s' id i' :
  step s e = Some s' → is_send e = false →
  cardInstances s' !! id = Some i' →
  ∃ i, cardInstances s !! id = Some i
       ∧ cardBizId i' = cardBizId i ∧ conversationId i' = conversationId i
       ∧ createdAt i' = createdAt i.
Proof.
  intros Hstep Hsend Hi'.
  destruct e as [id0 conv now|id0 text now|id0 text now|h now|k out now|now];
    simpl in Hstep; try discriminate.
  - injection Hstep as <-. simpl in Hi'. by exists i'.
  - injection Hstep as <-. rewrite throttled_registry in Hi'. by exists i'.
  - apply fire_fields in Hstep as (t & _ & _ & _ & _ & Hreg & _).
    rewrite Hreg in Hi'. by exists i'.
  - apply complete_fields in Hstep as (_ & _ & _ & _ & r & _ & _ & Hreg & _).
    rewrite Hreg in Hi'. destruct out as [| |status]; simpl in Hi'.
    + by exists i'.
    + destruct (decide (r_card r = id)) as [Heq|Hne].
      * rewrite Heq, lookup_alter_eq in Hi'.
        destruct (cardInstances s !! id) as [i|]; [|discriminate].
        injection Hi' as <-. by exists i.
      * rewrite lookup_alter_ne in Hi' by done. by exists i'.
    + destruct (is_terminal status); [|by exists i'].
      destruct (decide (r_card r = id)) as [Heq|Hne].
      * by rewrite Heq, lookup_delete_eq in Hi'.
      * rewrite lookup_delete_ne in Hi' by done. by exists i'.
  - injection Hstep as <-.
    destruct (cleanup_inv now s) as (Hreg & _).
    rewrite Hreg in Hi'. destruct (swept now (cardInstances s) id); [discriminate|].
    by exists i'.
Qed.

(** X17.  Only [sendInteractiveCard] adds a record to the registry.  Over a
    run with no registration, every record present at the end was present at
    the start, with the same id, conversation and creation time: an update,
    successful or not, never brings back a record that was evicted. *)
Theorem registry_grows_only_by_send (es : list event) (s s' : state)
    (id : string) (i' : CardInstance) :
  run s es = Some s' → Forall (λ e, is_send e = false) es →
  cardInstances s' !! id = Some i' →
  ∃ i, cardInstances s !! id = Some i
       ∧ cardBizId i' = cardBizId i ∧ conversationId i' = conversationId i
       ∧ createdAt i' = createdAt i.
Proof.
  revert s. induction es as [|e es IH]; intros s; simpl.
  - intros [= <-] _ Hi'. by exists i'.
  - destruct (step s e) as [s1|] eqn:Hstep; [|discriminate].
    intros Hrun [Hsend Hrest]%Forall_cons Hi'.
    destruct (IH s1 Hrun Hrest Hi') as (i1 & Hi1 & H1 & H2 & H3).
    destruct (step_registry _ _ _ _ _ Hstep Hsend Hi1) as (i & Hi & H4 & H5 & H6).
    exists i. repeat split; congruence.
Qed.

Lemma registry_grows_only_by_send_witness :
  ∃ s s', run init [Send "card" "conv" 1000; Update "card" "x" 2000;
                    Complete 0 (PutFailed (Some 404)) 2100] = Some s
          ∧ run s [Update "card" "y" 3000; Complete 1 PutOk 3100] = Some s'
          ∧ cardInstances s' !! "card" = None.
Proof.
  eexists. eexists. split; [vm_compute; reflexivity|].
  match goal with |- run ?s _ = Some _ ∧ _ => pose (s0 := s) end.
  split; [vm_compute; reflexivity|].
  match goal with |- cardInstances ?s' !! _ = None =>
    destruct (cardInstances s' !! "card") as [i'|] eqn:E; [|reflexivity];
    destruct (registry_grows_only_by_send
                [Update "card" "y" 3000; Complete 1 PutOk 3100] s0 s' "card" i'
                ltac:(vm_compute; reflexivity) ltac:(repeat constructor) E)
      as (i & Hi & _)
  end.
  vm_compute in Hi. discriminate.
Defined.

(** ** The sweep, again *)

Lemma state_eq s1 s2 :
  cardInstances s1 = cardInstances s2 →
  cardUpdateTimestamps s1 = cardUpdateTimestamps s2 →
  cardUpdateTimeouts s1 = cardUpdateTimeouts s2 →
  timers s1 = timers s2 → inflight s1 = inflight s2 →
  promises s1 = promises s2 → dispatched s1 = dispatched s2 →
  s1 = s2.
Proof. destruct s1, s2. simpl. by intros -> -> -> -> -> -> ->. Qed.

(** X18.  A sweep that finds no record older than the TTL changes nothing
    at all, and a sweep run twice at the same time does what it does
    once. *)
Theorem sweep_is_idempotent (s : state) (now : Z) :
  ((∀ id instance, cardInstances s !! id = Some instance →
                   now - lastUpdated instance ≤ CARD_CACHE_TTL) →
   cleanupCardCache now s = s)
  ∧ cleanupCardCache now (cleanupCardCache now s) = cleanupCardCache now s.
Proof.
  assert (Hfix : ∀ s0, (∀ id instance, cardInstances s0 !! id = Some instance →
                          now - lastUpdated instance ≤ CARD_CACHE_TTL) →
                       cleanupCardCache now s0 = s0).
  { intros s0 Hyoung.
    destruct (cleanup_inv now s0)
      as (Hreg & Hts & Hto & _ & _ & Hkeep & Hin & Hpr & Hd).
    assert (Hsw : ∀ j, swept now (cardInstances s0) j = false).
    { intros j. unfold swept.
      destruct (cardInstances s0 !! j) as [i|] eqn:E; [|done]. simpl.
      apply Z.ltb_ge. by eapply Hyoung. }
    apply state_eq; try done.
    - apply map_eq. intros j. by rewrite Hreg, Hsw.
    - apply map_eq. intros j. by rewrite Hts, Hsw.
    - apply map_eq. intros j. by rewrite Hto, Hsw.
    - apply list_eq. intros h. apply Hkeep. intros j Hj.
      rewrite Hsw in Hj. discriminate. }
  split; [apply Hfix|].
  apply Hfix. intros id instance Hid.
  destruct (cleanup_inv now s) as (Hreg & _).
  rewrite Hreg in Hid.
  destruct (swept now (cardInstances s) id) eqn:Hsw; [discriminate|].
  rewrite (swept_stale _ _ _ _ Hid) in Hsw.
  apply bool_decide_eq_false in Hsw. lia.
Qed.

Lemma sweep_is_idempotent_witness :
  let s := sendInteractiveCard_register "card" "conv" 1000 init in
  cleanupCardCache 2000 s = s.
Proof.
  intros s. apply (proj1 (sweep_is_idempotent s 2000)).
  intros id instance Hid.
  destruct (decide (id = "card")) as [->|Hne].
  - vm_compute in Hid. injection Hid as <-. vm_compute. discriminate.
  - unfold s in Hid. simpl in Hid. rewrite lookup_insert_ne in Hid by done.
    by rewrite lookup_empty in Hid.
Defined.

(** ** Failed and direct updates *)

(** X19.  When a throttled update that was dispatched at once fails, its
    promise is rejected, no inactivity timer is armed and
    [cardUpdateTimeouts] is left as it was; the failed dispatch still counts
    as the card's last dispatch, so a retry less than
    [CARD_UPDATE_MIN_INTERVAL] later is delayed, not sent at once. *)
Theorem failed_update_still_throttles (s : state) (id text : string) (now now' : Z)
    (out : outcome) :
  CARD_UPDATE_MIN_INTERVAL ≤ now - lastUpdateOf s id → out ≠ PutOk →
  ∃ s2, complete (length (inflight s)) out now'
          (updateInteractiveCardThrottled id text now s) = Some s2
        ∧ promises s2 !! length (promises s) = Some Rejected
        ∧ timers s2 = timers (updateInteractiveCardThrottled id text now s)
        ∧ cardUpdateTimeouts s2 = cardUpdateTimeouts s
        ∧ lastUpdateOf s2 id = now
        ∧ ∀ text2 now2, now2 - now < CARD_UPDATE_MIN_INTERVAL →
            dispatched (updateInteractiveCardThrottled id text2 now2 s2)
            = dispatched s ++ [(id, text, now)]
            ∧ timers (updateInteractiveCardThrottled id text2 now2 s2)
              !! length (timers s2)
              = Some (mkTimer now2 (CARD_UPDATE_MIN_INTERVAL - (now2 - now))
                              (DelayedUpdate id text2 (S (length (promises s)))) true).
Proof.
  intros Hge Hout.
  set (s1 := updateInteractiveCardThrottled id text now s).
  destruct (throttled_fields id text now s)
    as (_ & [(_ & Hd & Htm & Hto & Hin & Hpr)|(Hlt & _)]); [|lia].
  fold s1 in Hd, Htm, Hto, Hin, Hpr.
  assert (Hk : inflight s1 !! length (inflight s)
               = Some (mkRequest id text (length (promises s)) Throttled true)).
  { rewrite Hin. by apply list_lookup_middle. }
  destruct (complete (length (inflight s)) out now' s1) as [s2|] eqn:Hc.
  2:{ unfold complete in Hc. rewrite Hk in Hc. simpl in Hc.
      by destruct (updateInteractiveCard_settle id now' out (cardInstances s1)). }
  exists s2. split; [done|].
  pose proof (complete_fields _ _ _ _ _ Hc)
    as (Hd2 & Hts2 & _ & _ & r & Hr & _ & _ & Hcases).
  rewrite Hk in Hr. injection Hr as <-. simpl in Hcases.
  destruct Hcases as [(? & _)|[(? & _)|(_ & Htm2 & Hto2 & Hpr2)]]; try done.
  assert (Hlast : lastUpdateOf s2 id = now).
  { unfold lastUpdateOf. rewrite Hts2.
    pose proof (immediate_lastUpdateOf id text now s Hge) as H.
    unfold lastUpdateOf in H. by fold s1 in H. }
  split.
  { rewrite Hpr2, Hpr. apply list_lookup_insert_eq.
    rewrite length_app. simpl. lia. }
  split; [done|]. split; [congruence|]. split; [done|].
  intros text2 now2 Hsoon.
  assert (Hlt : now2 - lastUpdateOf s2 id < CARD_UPDATE_MIN_INTERVAL) by (by rewrite Hlast).
  destruct (delayed_call_fields s2 id text2 now2 Hlt) as (Hd3 & _).
  split; [congruence|].
  rewrite (delayed_call_mine s2 id text2 now2 Hlt).
  unfold delayed_timer. rewrite Hlast, Hpr2, length_insert, Hpr, length_app.
  simpl. repeat f_equal. lia.
Qed.

Lemma failed_update_still_throttles_witness :
  ∃ s2, complete 0 (PutFailed (Some 500)) 1100
          (updateInteractiveCardThrottled "card" "a" 1000 init) = Some s2
        ∧ promises s2 !! 0%nat = Some Rejected.
Proof.
  destruct (failed_update_still_throttles init "card" "a" 1000 1100
              (PutFailed (Some 500)) ltac:(vm_compute; discriminate)
              ltac:(discriminate)) as (s2 & H1 & H2 & _).
  exists s2. split; [exact H1 | exact H2].
Defined.

(** X20.  A direct [updateInteractiveCard] is outside the throttle: it is
    dispatched whenever it is called, it records no dispatch time and arms no
    timer, also when it succeeds, so a throttled call right after it is
    judged by the last throttled dispatch alone. *)
Theorem direct_update_bypasses_throttle (s : state) (id text : string) (now : Z) :
  let s1 := updateInteractiveCard id text now s in
  dispatched s1 = dispatched s ++ [(id, text, now)]
  ∧ cardUpdateTimestamps s1 = cardUpdateTimestamps s
  ∧ cardUpdateTimeouts s1 = cardUpdateTimeouts s
  ∧ timers s1 = timers s
  ∧ (∀ now' s2, complete (length (inflight s)) PutOk now' s1 = Some s2 →
       timers s2 = timers s ∧ cardUpdateTimestamps s2 = cardUpdateTimestamps s
       ∧ cardUpdateTimeouts s2 = cardUpdateTimeouts s
       ∧ promises s2 !! length (promises s) = Some Resolved)
  ∧ (∀ text2 now2, CARD_UPDATE_MIN_INTERVAL ≤ now2 - lastUpdateOf s id →
       dispatched (updateInteractiveCardThrottled id text2 now2 s1)
       = dispatched s ++ [(id, text, now); (id, text2, now2)]).
Proof.
  intros s1. subst s1. unfold updateInteractiveCard, new_promise. simpl.
  repeat split; try done.
  - apply complete_fields in H
      as (_ & _ & _ & _ & r & Hr & _ & _ & Hcases).
    simpl in Hr. rewrite list_lookup_middle in Hr by done. injection Hr as <-.
    simpl in Hcases.
    destruct Hcases as [(_ & ? & _)|[(_ & _ & -> & _)|(? & _)]]; done.
  - apply complete_fields in H as (_ & -> & _). done.
  - apply complete_fields in H
      as (_ & _ & _ & _ & r & Hr & _ & _ & Hcases).
    simpl in Hr. rewrite list_lookup_middle in Hr by done. injection Hr as <-.
    simpl in Hcases.
    destruct Hcases as [(_ & ? & _)|[(_ & _ & _ & -> & _)|(? & _)]]; done.
  - apply complete_fields in H
      as (_ & _ & _ & _ & r & Hr & _ & _ & Hcases).
    simpl in Hr. rewrite list_lookup_middle in Hr by done. injection Hr as <-.
    simpl in Hcases.
    destruct Hcases as [(_ & ? & _)|[(_ & _ & _ & _ & ->)|(? & _)]]; try done.
    simpl. apply list_lookup_insert_eq. rewrite length_app. simpl. lia.
  - intros text2 now2 Hge. rewrite immediate_dispatched; [|done].
    simpl. by rewrite <- app_assoc.
Qed.

Lemma direct_update_bypasses_throttle_witness :
  let s := updateInteractiveCardThrottled "card" "a" 1000 init in
  dispatched (updateInteractiveCardThrottled "card" "c" 1600
                (updateInteractiveCard "card" "b" 1599 s))
  = dispatched s ++ [("card", "b", 1599); ("card", "c", 1600)].
Proof.
  intros s.
  apply (proj2 (proj2 (proj2 (proj2 (proj2
           (direct_update_bypasses_throttle s "card" "b" 1599)))))).
  vm_compute. discriminate.
Defined.

End RegistryFacts.

Section WellFormed.
Import Card Runs.

Implicit Types (s : state) (id text : string) (now : Z) (h k p : nat).

Lemma timer_of_stop id t : timer_of id (stop_timer t) ↔ timer_of id t.
Proof. done. Qed.

Lemma complete_inflight k out now s s' j r' :
  complete k out now s = Some s' → inflight s' !! j = Some r' →
  ∃ r, inflight s !! j = Some r ∧ r_promise r' = r_promise r.
Proof.
  unfold complete.
  destruct (inflight s !! k) as [r|] eqn:Hk; [|discriminate].
  destruct (r_open r); [|discriminate].
  destruct (updateInteractiveCard_settle (r_card r) now out (cardInstances _))
    as [reg res] eqn:Hset.
  assert (Hgen : ∀ l, l = <[k := mkRequest (r_card r) (r_text r) (r_promise r)
                              (r_caller r) false]> (inflight s) →
                      l !! j = Some r' →
                      ∃ r0, inflight s !! j = Some r0 ∧ r_promise r' = r_promise r0).
  { intros l -> Hj. destruct (decide (k = j)) as [<-|Hne].
    - rewrite list_lookup_insert_eq in Hj by (by eapply lookup_lt_Some).
      injection Hj as <-. by exists r.
    - rewrite list_lookup_insert_ne in Hj by done. by exists r'. }
  destruct res, (r_caller r); intros [= <-]; simpl; by apply Hgen.
Qed.

(** The old timers of a state after one step, and the new ones. *)
Lemma step_timers_from s e s' h t' :
  step s e = Some s' → timers s' !! h = Some t' →
  (∃ t, timers s !! h = Some t ∧ action t' = action t)
  ∨ (h = length (timers s)
     ∧ ((∃ id, action t' = InactivityTimeout id
               ∧ cardUpdateTimeouts s' !! id = Some h)
        ∨ (∃ id text, action t' = DelayedUpdate id text (length (promises s))
                      ∧ cardUpdateTimeouts s' !! id = Some h
                      ∧ S (length (promises s)) = length (promises s')))).
Proof.
  intros Hstep Ht'.
  assert (Hfrom : ∀ ts : list timer, (∀ h0, ts !! h0 = timers s !! h0
                               ∨ ts !! h0 = stop_timer <$> timers s !! h0) →
                        ts !! h = Some t' →
                        ∃ t, timers s !! h = Some t ∧ action t' = action t).
  { intros ts Hany Hh. destruct (Hany h) as [E|E]; rewrite E in Hh.
    - by exists t'.
    - destruct (timers s !! h) as [t|]; [|discriminate].
      injection Hh as <-. by exists t. }
  destruct e as [id conv now|id text now|id text now|h0 now|k out now|now];
    simpl in Hstep.
  - injection Hstep as <-. left. by exists t'.
  - injection Hstep as <-. left. by exists t'.
  - injection Hstep as <-.
    destruct (clear_existing_fields id s) as (_ & _ & _ & _ & _ & _ & Hlen).
    destruct (throttled_fields id text now s)
      as (_ & [(_ & _ & Htm & _)|(_ & _ & Htm & Hto & _ & Hpr)]);
      rewrite Htm in Ht'.
    + left. apply (Hfrom _ (clear_existing_timers id s) Ht').
    + apply lookup_app_Some in Ht' as [Hold|[Hge Hnew]].
      * left. apply (Hfrom _ (clear_existing_timers id s) Hold).
      * apply list_lookup_singleton_Some in Hnew as [Hz <-].
        right. split; [lia|]. right. exists id, text. simpl.
        split; [done|]. rewrite Hto, Hpr, length_app. simpl.
        split; [|lia]. assert (h = length (timers s)) as -> by lia.
        apply lookup_insert_eq.
  - apply fire_fields in Hstep as (t0 & _ & _ & _ & Htm & _).
    rewrite Htm in Ht'. left. apply (Hfrom _ (alter_stop_any (timers s) h0) Ht').
  - apply complete_fields in Hstep
      as (_ & _ & _ & _ & r & _ & _ & _ & [(_ & _ & Htm & Hto & _)|[(_ & _ & Htm & _)|(_ & Htm & _)]]);
      rewrite Htm in Ht'; try (left; by exists t').
    apply lookup_app_Some in Ht' as [Hold|[Hge Hnew]]; [left; by exists t'|].
    apply list_lookup_singleton_Some in Hnew as [Hz <-].
    right. split; [lia|]. left. exists (r_card r). simpl. split; [done|].
    rewrite Hto. assert (h = length (timers s)) as -> by lia.
    apply lookup_insert_eq.
  - injection Hstep as <-.
    destruct (cleanup_inv now s) as (_ & _ & _ & Hany & _).
    left. by apply (Hfrom _ Hany).
Qed.

Lemma step_timeouts_from s e s' id h :
  step s e = Some s' → cardUpdateTimeouts s' !! id = Some h →
  cardUpdateTimeouts s !! id = Some h
  ∨ ∃ t, timers s' !! h = Some t ∧ timer_of id t.
Proof.
  intros Hstep Hh.
  destruct e as [id0 conv now|id0 text now|id0 text now|h0 now|k out now|now];
    simpl in Hstep.
  - injection Hstep as <-. by left.
  - injection Hstep as <-. by left.
  - injection Hstep as <-.
    destruct (clear_existing_fields id0 s) as (_ & _ & _ & _ & _ & _ & Hlen).
    destruct (throttled_fields id0 text now s)
      as (_ & [(_ & _ & _ & Hto & _)|(_ & _ & Htm & Hto & _)]); rewrite Hto in Hh.
    + by left.
    + destruct (decide (id0 = id)) as [->|Hne].
      * rewrite lookup_insert_eq in Hh. injection Hh as <-. right.
        exists (delayed_timer id text now s). split; [|done].
        rewrite Htm, <- Hlen. by apply list_lookup_middle.
      * rewrite lookup_insert_ne in Hh by done. by left.
  - apply fire_fields in Hstep
      as (t0 & _ & _ & _ & _ & _ & _ & [(? & ? & ? & _ & _ & _ & _ & Hto)|(id1 & _ & _ & _ & _ & Hto)]);
      rewrite Hto in Hh; [by left|].
    destruct (decide (id1 = id)) as [->|Hne].
    + by rewrite lookup_delete_eq in Hh.
    + rewrite lookup_delete_ne in Hh by done. by left.
  - apply complete_fields in Hstep
      as (_ & _ & _ & _ & r & _ & _ & _ & [(_ & _ & Htm & Hto & _)|[(_ & _ & _ & Hto & _)|(_ & _ & Hto & _)]]);
      rewrite Hto in Hh; try (by left).
    destruct (decide (r_card r = id)) as [Heq|Hne].
    + rewrite Heq, lookup_insert_eq in Hh. injection Hh as <-. right.
      eexists. split; [rewrite Htm; by apply list_lookup_middle|]. exact Heq.
    + rewrite lookup_insert_ne in Hh by done. by left.
  - injection Hstep as <-.
    destruct (cleanup_inv now s) as (_ & _ & Hto & _).
    rewrite Hto in Hh. destruct (swept now (cardInstances s) id); [discriminate|].
    by left.
Qed.

Lemma step_promises_length s e s' :
  step s e = Some s' → (length (promises s) ≤ length (promises s'))%nat.
Proof.
  destruct e as [id0 conv now|id0 text now|id0 text now|h0 now|k out now|now];
    simpl.
  - by intros [= <-].
  - intros [= <-]. simpl. rewrite length_app. lia.
  - intros [= <-].
    destruct (throttled_fields id0 text now s)
      as (_ & [(_ & _ & _ & _ & _ & ->)|(_ & _ & _ & _ & _ & ->)]);
      rewrite length_app; lia.
  - intros (t0 & _ & _ & _ & _ & _ & -> & _)%fire_fields. done.
  - intros (_ & _ & _ & -> & _)%complete_fields. done.
  - intros [= <-].
    by destruct (cleanup_inv now s) as (_ & _ & _ & _ & _ & _ & _ & -> & _).
Qed.

Lemma step_inflight_from s e s' j r' :
  well_formed s → step s e = Some s' → inflight s' !! j = Some r' →
  (r_promise r' < length (promises s'))%nat.
Proof.
  intros (_ & HB & HC) Hstep Hj.
  pose proof (step_promises_length _ _ _ Hstep) as Hlen.
  destruct e as [id0 conv now|id0 text now|id0 text now|h0 now|k out now|now];
    simpl in Hstep.
  - injection Hstep as <-. by eapply HC.
  - injection Hstep as <-. simpl in *. rewrite length_app in *. simpl.
    apply lookup_app_Some in Hj as [Hold|[_ Hnew]].
    + apply HC in Hold. lia.
    + apply list_lookup_singleton_Some in Hnew as [_ <-]. simpl. lia.
  - injection Hstep as <-.
    destruct (throttled_fields id0 text now s)
      as (_ & [(_ & _ & _ & _ & Hin & Hpr)|(_ & _ & _ & _ & Hin & Hpr)]);
      rewrite Hin in Hj; rewrite Hpr, length_app; simpl.
    + apply lookup_app_Some in Hj as [Hold|[_ Hnew]].
      * apply HC in Hold. lia.
      * apply list_lookup_singleton_Some in Hnew as [_ <-]. simpl. lia.
    + apply HC in Hj. lia.
  - apply fire_fields in Hstep
      as (t0 & Ht0 & _ & _ & _ & _ & Hpr & [(id & text & p & Hact & _ & Hin & _)|(id & _ & _ & Hin & _)]);
      rewrite Hin in Hj; rewrite Hpr.
    + apply lookup_app_Some in Hj as [Hold|[_ Hnew]]; [by eapply HC|].
      apply list_lookup_singleton_Some in Hnew as [_ <-]. simpl.
      by eapply HB.
    + by eapply HC.
  - destruct (complete_inflight _ _ _ _ _ _ _ Hstep Hj) as (r & Hr & ->).
    apply HC in Hr. lia.
  - injection Hstep as <-.
    destruct (cleanup_inv now s) as (_ & _ & _ & _ & _ & _ & Hin & Hpr & _).
    rewrite Hin in Hj. rewrite Hpr. by eapply HC.
Qed.

Lemma well_formed_step s e s' : well_formed s → step s e = Some s' → well_formed s'.
Proof.
  intros Hwf Hstep. pose proof Hwf as (HA & HB & HC).
  pose proof (step_promises_length _ _ _ Hstep) as Hlen.
  split; [|split].
  - intros id h Hh.
    destruct (step_timeouts_from _ _ _ _ _ Hstep Hh) as [Hold|Hnew]; [|done].
    destruct (HA id h Hold) as (t & Ht & Hof).
    destruct (step_timers _ _ _ h t Hstep Ht) as [E|E]; eauto.
  - intros h t' id text p Ht' Hact.
    destruct (step_timers_from _ _ _ _ _ Hstep Ht')
      as [(t & Ht & Heq)|(_ & [(id1 & Hact1 & _)|(id1 & text1 & Hact1 & _ & Hl)])].
    + rewrite Heq in Hact. specialize (HB _ _ _ _ _ Ht Hact). lia.
    + congruence.
    + rewrite Hact1 in Hact. injection Hact as _ _ <-. lia.
  - intros k r Hk. by eapply step_inflight_from.
Qed.

(** ** Who can settle a promise *)

Lemma refers_to_delayed p cb :
  refers_to p cb = true ↔ ∃ id text, cb = DelayedUpdate id text p.
Proof.
  destruct cb as [id text q|id]; simpl; split.
  - intros ->%bool_decide_eq_true. eauto.
  - intros (? & ? & [= _ _ ->]). by apply bool_decide_eq_true_2.
  - discriminate.
  - by intros (? & ? & ?).
Qed.

Lemma timer_from_any (ts ts' : list timer) h t' :
  (ts' !! h = ts !! h ∨ ts' !! h = stop_timer <$> ts !! h) →
  ts' !! h = Some t' →
  ∃ t, ts !! h = Some t ∧ (t' = t ∨ t' = stop_timer t).
Proof.
  intros [E|E] Ht'; rewrite E in Ht'.
  - exists t'. auto.
  - destruct (ts !! h) as [t|]; [|discriminate]. injection Ht' as <-.
    exists t. auto.
Qed.

(** A step that arms no timer holding a promise keeps [sole_holder], given
    that it settles no promise but those of its requests and that a new
    request takes its promise from a timer it stops. *)
Lemma sole_holder_preserved s s' :
  sole_holder s →
  (∀ h t', timers s' !! h = Some t' →
           (∃ t, timers s !! h = Some t ∧ (t' = t ∨ t' = stop_timer t))
           ∨ ∀ p, refers_to p (action t') = false) →
  (∀ p, promises s !! p = Some Pending →
        (∀ k r, inflight s !! k = Some r → r_promise r ≠ p) →
        promises s' !! p = Some Pending) →
  (∀ h t p, timers s !! h = Some t → live t = true →
            refers_to p (action t) = true → timers s' !! h = Some t →
            ∀ k r, inflight s' !! k = Some r → r_promise r ≠ p) →
  sole_holder s'.
Proof.
  intros Hsole Htm Hpr Hrq h t' p Ht' Hl Hr.
  destruct (Htm h t' Ht') as [(t & Ht & [->| ->])|Hno];
    [|discriminate|by rewrite Hno in Hr].
  destruct (Hsole h t p Ht Hl Hr) as (Hp & Hu & Hq).
  split; [by apply Hpr|]. split.
  - intros h' t'' Ht'' Hr''.
    destruct (Htm h' t'' Ht'') as [(t1 & Ht1 & E)|Hno];
      [|by rewrite Hno in Hr''].
    apply (Hu h' t1 Ht1). by destruct E as [-> | ->].
  - by apply (Hrq h t p).
Qed.

Lemma sole_holder_step s e s' :
  well_formed s → sole_holder s → step s e = Some s' → sole_holder s'.
Proof.
  intros (_ & HB & HC) Hsole Hstep.
  destruct e as [id conv now|id text now|id text now|h0 now|k out now|now];
    simpl in Hstep.
  - injection Hstep as <-. exact Hsole.
  - injection Hstep as <-. apply (sole_holder_preserved s); [done|..]; simpl.
    + intros h t' Ht'. left. exists t'. auto.
    + intros p Hp _. by apply lookup_app_l_Some.
    + intros h t p Ht Hl Hr _ k r [Hold|[_ Hnew]]%lookup_app_Some.
      * by eapply (proj2 (proj2 (Hsole h t p Ht Hl Hr))).
      * apply list_lookup_singleton_Some in Hnew as [_ <-]. simpl.
        destruct (Hsole h t p Ht Hl Hr) as (Hp%lookup_lt_Some & _). lia.
  - injection Hstep as <-.
    destruct (throttled_fields id text now s)
      as (_ & [(_ & _ & Htm & _ & Hin & Hpr)|(_ & _ & Htm & _ & Hin & Hpr)]).
    + apply (sole_holder_preserved s); [done|..].
      * intros h t' Ht'. left. rewrite Htm in Ht'.
        by apply (timer_from_any _ _ _ _ (clear_existing_timers id s h)).
      * intros p Hp _. rewrite Hpr. by apply lookup_app_l_Some.
      * intros h t p Ht Hl Hr _ k r. rewrite Hin.
        intros [Hold|[_ Hnew]]%lookup_app_Some.
        -- by eapply (proj2 (proj2 (Hsole h t p Ht Hl Hr))).
        -- apply list_lookup_singleton_Some in Hnew as [_ <-]. simpl.
           destruct (Hsole h t p Ht Hl Hr) as (Hp%lookup_lt_Some & _). lia.
    + destruct (clear_existing_fields id s) as (_ & _ & _ & _ & _ & _ & Hlen).
      assert (Hold : ∀ h t', timers (clear_existing id s) !! h = Some t' →
                             ∃ t, timers s !! h = Some t
                                  ∧ (t' = t ∨ t' = stop_timer t)).
      { intros h t'. apply timer_from_any, clear_existing_timers. }
      assert (Hfresh : ∀ h t', timers (clear_existing id s) !! h = Some t' →
                               refers_to (length (promises s)) (action t') = false).
      { intros h t' (t & Ht & E)%Hold.
        destruct (refers_to _ (action t')) eqn:Hr; [|done].
        apply refers_to_delayed in Hr as (i & x & Hact).
        assert (Hact0 : action t = DelayedUpdate i x (length (promises s))).
        { by destruct E as [-> | ->]. }
        specialize (HB _ _ _ _ _ Ht Hact0). lia. }
      intros h t' p. rewrite Htm, Hpr, Hin.
      intros [Ht'|[Hge Hnew]]%lookup_app_Some Hl Hr.
      * destruct (Hold h t' Ht') as (t & Ht & [->| ->]); [|discriminate].
        destruct (Hsole h t p Ht Hl Hr) as (Hp & Hu & Hq).
        split; [by apply lookup_app_l_Some|]. split; [|done].
        intros h' t'' [Ht''|[Hge' Hnew']]%lookup_app_Some Hr''.
        -- destruct (Hold h' t'' Ht'') as (t1 & Ht1 & E).
           apply (Hu h' t1 Ht1). by destruct E as [-> | ->].
        -- apply list_lookup_singleton_Some in Hnew' as [_ <-].
           simpl in Hr''. apply bool_decide_eq_true in Hr''.
           apply lookup_lt_Some in Hp. lia.
      * apply list_lookup_singleton_Some in Hnew as [Hz <-].
        simpl in Hr. apply bool_decide_eq_true in Hr. subst p.
        split; [by apply list_lookup_middle|]. split.
        -- intros h' t'' [Ht''|[Hge' Hnew']]%lookup_app_Some Hr''.
           ++ by rewrite (Hfresh h' t'' Ht'') in Hr''.
           ++ apply list_lookup_singleton_Some in Hnew' as [Hz' _]. lia.
        -- intros k r Hk Heq. specialize (HC k r Hk). lia.
  - apply fire_fields in Hstep
      as (t0 & Ht0 & Hl0 & _ & Htm & _ & Hpr & Hcase).
    apply (sole_holder_preserved s); [done|..].
    + intros h t' Ht'. left. rewrite Htm in Ht'.
      by apply (timer_from_any _ _ _ _ (alter_stop_any (timers s) h0 h)).
    + intros p Hp _. by rewrite Hpr.
    + intros h t p Ht Hl Hr Ht' k r Hk.
      destruct (Hsole h t p Ht Hl Hr) as (_ & Hu & Hq).
      destruct Hcase as [(i & x & p0 & Hact & _ & Hin & _)|(i & _ & _ & Hin & _)];
        rewrite Hin in Hk; [|by apply (Hq k r)].
      apply lookup_app_Some in Hk as [Hold|[_ Hnew]]; [by apply (Hq k r)|].
      apply list_lookup_singleton_Some in Hnew as [_ <-]. simpl. intros ->.
      assert (h0 = h) as ->.
      { apply (Hu h0 t0 Ht0). rewrite Hact. simpl. by apply bool_decide_eq_true_2. }
      rewrite Htm, list_lookup_alter_eq, Ht in Ht'. injection Ht' as Heq.
      rewrite <- Heq in Hl. discriminate.
  - pose proof Hstep as Hstep'.
    apply complete_fields in Hstep
      as (_ & _ & _ & _ & r0 & Hk0 & _ & _ & Hcase).
    assert (Htm : ∀ h t', timers s' !! h = Some t' →
                          (∃ t, timers s !! h = Some t ∧ (t' = t ∨ t' = stop_timer t))
                          ∨ ∀ p, refers_to p (action t') = false).
    { intros h t' Ht'.
      destruct Hcase as [(_ & _ & E & _)|[(_ & _ & E & _)|(_ & E & _)]];
        rewrite E in Ht'; try (left; exists t'; by auto).
      apply lookup_app_Some in Ht' as [Hold|[_ Hnew]]; [left; exists t'; by auto|].
      apply list_lookup_singleton_Some in Hnew as [_ <-]. by right. }
    assert (Hpr : ∃ v, promises s' = <[r_promise r0 := v]> (promises s)).
    { destruct Hcase as [(_ & _ & _ & _ & E)|[(_ & _ & _ & _ & E)|(_ & _ & _ & E)]];
        eauto. }
    destruct Hpr as (v & Hpr).
    apply (sole_holder_preserved s); [done|done|..].
    + intros p Hp Hq. rewrite Hpr. rewrite list_lookup_insert_ne; [done|].
      by apply (Hq k r0).
    + intros h t p Ht Hl Hr _ j r Hj.
      destruct (complete_inflight _ _ _ _ _ _ _ Hstep' Hj) as (r1 & Hr1 & ->).
      by eapply (proj2 (proj2 (Hsole h t p Ht Hl Hr))).
  - injection Hstep as <-.
    destruct (cleanup_inv now s) as (_ & _ & _ & Hany & _ & _ & Hin & Hpr & _).
    apply (sole_holder_preserved s); [done|..].
    + intros h t' Ht'. left. by apply (timer_from_any _ _ _ _ (Hany h)).
    + intros p Hp _. by rewrite Hpr.
    + intros h t p Ht Hl Hr _ k r. rewrite Hin. by eapply (proj2 (proj2 (Hsole h t p Ht Hl Hr))).
Qed.

End WellFormed.

Section ReachableFacts.
Import Card Runs.

Implicit Types (s : state) (id text : string) (now : Z) (h k p : nat).

Lemma well_formed_run es : ∀ s s', well_formed s → run s es = Some s' → well_formed s'.
Proof.
  induction es as [|e es IH]; intros s s' Hwf; simpl.
  - by intros [= <-].
  - destruct (step s e) as [s1|] eqn:Hstep; [|discriminate].
    apply IH. by eapply well_formed_step.
Qed.

Lemma well_formed_init : well_formed init.
Proof.
  repeat split; simpl.
  - intros id h H. by rewrite lookup_empty in H.
  - intros h t id text p H. by rewrite lookup_nil in H.
  - intros k r H. by rewrite lookup_nil in H.
Qed.

Lemma well_formed_unreferenced s :
  well_formed s → unreferenced (length (promises s)) s = true.
Proof.
  intros (_ & HB & HC). unfold unreferenced.
  apply andb_true_iff. split; apply List.forallb_forall.
  - intros t Hin. apply list_elem_of_In, list_elem_of_lookup in Hin as [h Ht].
    apply negb_true_iff. destruct (action t) as [id text p|id] eqn:Hact; [|done].
    simpl. apply bool_decide_eq_false_2. intros ->.
    specialize (HB _ _ _ _ _ Ht Hact). lia.
  - intros r Hin. apply list_elem_of_In, list_elem_of_lookup in Hin as [k Hk].
    apply negb_true_iff, bool_decide_eq_false_2. intros Heq.
    specialize (HC _ _ Hk). lia.
Qed.

(** X21.  In every reachable state each entry of [cardUpdateTimeouts] names
    an existing timer that belongs to that card (its inactivity timer or one
    of its delayed updates), and every promise that a delayed update or an
    open request is to settle exists. *)
Theorem reachable_is_well_formed (s : state) :
  reachable s →
  (∀ id h, cardUpdateTimeouts s !! id = Some h →
           ∃ t, timers s !! h = Some t
                ∧ (action t = InactivityTimeout id
                   ∨ ∃ text p, action t = DelayedUpdate id text p))
  ∧ (∀ h t id text p, timers s !! h = Some t →
                      action t = DelayedUpdate id text p →
                      (p < length (promises s))%nat)
  ∧ (∀ k r, inflight s !! k = Some r → (r_promise r < length (promises s))%nat).
Proof.
  intros [es Hrun].
  pose proof (well_formed_run es init s well_formed_init Hrun) as (HA & HB & HC).
  split; [|by split].
  intros id h Hh. destruct (HA id h Hh) as (t & Ht & Hof).
  exists t. split; [done|]. unfold timer_of in Hof.
  destruct (action t) as [id' text p|id']; subst; eauto.
Qed.

Lemma reachable_is_well_formed_witness :
  ∃ s, run init [UpdateThrottled "card" "a" 1000; UpdateThrottled "card" "b" 1100]
       = Some s
       ∧ ∃ t, timers s !! 0%nat = Some t
              ∧ (action t = InactivityTimeout "card"
                 ∨ ∃ text p, action t = DelayedUpdate "card" text p).
Proof.
  eexists. split; [vm_compute; reflexivity|].
  match goal with |- ∃ t, timers ?s !! _ = _ ∧ _ =>
    exact (proj1 (reachable_is_well_formed s
             (ex_intro (λ es, run init es = Some s)
                [UpdateThrottled "card" "a" 1000; UpdateThrottled "card" "b" 1100]
                ltac:(vm_compute; reflexivity)))
           "card" 0%nat ltac:(vm_compute; reflexivity))
  end.
Defined.

(** X22.  From any reachable state in which the card's pending delayed
    update is the recorded timer: when two throttled calls follow each other
    inside the interval, the promise returned by the first never settles,
    whatever happens afterwards, and no timer that holds it can fire. *)
Theorem superseded_call_waits_forever (s : state) (id b c : string) (t1 t2 : Z)
    (es : list event) (s' : state) :
  reachable s → tracked s id = true →
  t1 - lastUpdateOf s id < CARD_UPDATE_MIN_INTERVAL →
  t2 - lastUpdateOf s id < CARD_UPDATE_MIN_INTERVAL →
  run (updateInteractiveCardThrottled id c t2
         (updateInteractiveCardThrottled id b t1 s)) es = Some s' →
  promises s' !! length (promises s) = Some Pending
  ∧ ∀ h t text, timers s' !! h = Some t →
                action t = DelayedUpdate id text (length (promises s)) →
                ∀ now, fire h now s' = None.
Proof.
  intros [es0 Hreach] Htr Hlt1 Hlt2 Hrun.
  pose proof (well_formed_run es0 init s well_formed_init Hreach) as Hwf.
  destruct (superseded_promise_never_settles s id b c t1 t2 es s' Htr
              (well_formed_unreferenced s Hwf) Hlt1 Hlt2 Hrun) as (Hp & Hdead).
  split; [done|]. intros h t text Ht Hact now.
  apply (Hdead h t Ht). rewrite Hact. simpl. by apply bool_decide_eq_true_2.
Qed.

Lemma superseded_call_waits_forever_witness :
  let s := updateInteractiveCardThrottled "card" "a" 1000 init in
  ∃ s', run (updateInteractiveCardThrottled "card" "c" 1300
               (updateInteractiveCardThrottled "card" "b" 1100 s))
            [Fire 1 1500; Complete 0 PutOk 1510; Complete 1 PutOk 1600] = Some s'
        ∧ promises s' !! 1%nat = Some Pending.
Proof.
  intros s. eexists. split; [vm_compute; reflexivity|].
  match goal with |- promises ?s' !! _ = _ =>
    exact (proj1 (superseded_call_waits_forever s "card" "b" "c" 1100 1300
             [Fire 1 1500; Complete 0 PutOk 1510; Complete 1 PutOk 1600] s'
             (ex_intro (λ es, run init es = Some s)
                [UpdateThrottled "card" "a" 1000] eq_refl)
             ltac:(vm_compute; reflexivity)
             ltac:(vm_compute; reflexivity) ltac:(vm_compute; reflexivity)
             ltac:(vm_compute; reflexivity)))
  end.
Defined.

End ReachableFacts.

(** * Properties of [stopCardCacheCleanup] *)

Section ShutdownFacts.
Import Card Runs Shutdown.

Implicit Types (s : state) (id text : string) (now : Z) (h k p : nat).

Lemma clear_all_inv s :
  let r := map_fold (λ _ h acc, clearTimeout h acc) s (cardUpdateTimeouts s) in
  (∀ h, timers r !! h = timers s !! h ∨ timers r !! h = stop_timer <$> timers s !! h)
  ∧ (∀ j h, cardUpdateTimeouts s !! j = Some h →
            timers r !! h = stop_timer <$> timers s !! h)
  ∧ (∀ h, (∀ j, cardUpdateTimeouts s !! j ≠ Some h) → timers r !! h = timers s !! h)
  ∧ cardInstances r = cardInstances s
  ∧ cardUpdateTimestamps r = cardUpdateTimestamps s
  ∧ inflight r = inflight s ∧ promises r = promises s
  ∧ dispatched r = dispatched s.
Proof.
  simpl.
  apply (map_fold_weak_ind
    (λ (r : state) (m : gmap string nat),
       (∀ h, timers r !! h = timers s !! h
             ∨ timers r !! h = stop_timer <$> timers s !! h)
       ∧ (∀ j h, m !! j = Some h → timers r !! h = stop_timer <$> timers s !! h)
       ∧ (∀ h, (∀ j, m !! j ≠ Some h) → timers r !! h = timers s !! h)
       ∧ cardInstances r = cardInstances s
       ∧ cardUpdateTimestamps r = cardUpdateTimestamps s
       ∧ inflight r = inflight s ∧ promises r = promises s
       ∧ dispatched r = dispatched s)).
  - repeat split; auto. intros j h H. by rewrite lookup_empty in H.
  - intros i x m r Hi (Hany & Hstop & Hkeep & H1 & H2 & H3 & H4 & H5).
    assert (Hlook : ∀ h, timers (clearTimeout x r) !! h
                         = if decide (x = h) then stop_timer <$> timers r !! h
                           else timers r !! h).
    { intros h. simpl. case_decide as E.
      - subst. apply list_lookup_alter_eq.
      - by apply list_lookup_alter_ne. }
    repeat split; try done.
    + intros h. rewrite Hlook. case_decide.
      * right. destruct (Hany h) as [-> | ->]; [done|apply stop_timer_idem].
      * apply Hany.
    + intros j h. rewrite Hlook. rewrite lookup_insert. case_decide as Hij.
      * intros [= ->]. rewrite decide_True by done.
        destruct (Hany h) as [-> | ->]; [done|apply stop_timer_idem].
      * intros Hj. rewrite (Hstop j h Hj). case_decide; [apply stop_timer_idem|done].
    + intros h Hnone. rewrite Hlook. rewrite decide_False.
      * apply Hkeep. intros j Hj. apply (Hnone j).
        rewrite lookup_insert_ne; [done|]. intros ->. congruence.
      * intros ->. apply (Hnone i). by rewrite lookup_insert_eq.
Qed.

(** X23.  [stopCardCacheCleanup] drops the sweep's interval, empties
    [cardUpdateTimeouts] and clears every timer that was recorded there, so
    none of those can fire.  A timer that was not recorded is left as it
    was, and so are the registry, the recorded dispatch times, the promises
    and the dispatch log.  Calling it again changes nothing. *)
Theorem stop_clears_recorded_timers (cleanupIntervalId : option nat) (s : state) :
  let r := stopCardCacheCleanup cleanupIntervalId s in
  r.1 = None
  ∧ cardUpdateTimeouts r.2 = ∅
  ∧ (∀ id h, cardUpdateTimeouts s !! id = Some h → ∀ now, fire h now r.2 = None)
  ∧ (∀ h, (∀ id, cardUpdateTimeouts s !! id ≠ Some h) →
          timers r.2 !! h = timers s !! h)
  ∧ cardInstances r.2 = cardInstances s
  ∧ cardUpdateTimestamps r.2 = cardUpdateTimestamps s
  ∧ promises r.2 = promises s
  ∧ dispatched r.2 = dispatched s
  ∧ stopCardCacheCleanup r.1 r.2 = r.
Proof.
  destruct (clear_all_inv s) as (Hany & Hstop & Hkeep & H1 & H2 & H3 & H4 & H5).
  unfold stopCardCacheCleanup. simpl.
  split; [done|]. split; [done|]. split.
  { intros id h Hh now. unfold fire. simpl. rewrite (Hstop id h Hh).
    by destruct (timers s !! h). }
  split; [exact Hkeep|].
  split; [done|]. split; [done|]. split; [done|]. split; [done|].
  by rewrite map_fold_empty.
Qed.

Lemma stop_clears_recorded_timers_witness :
  let s := updateInteractiveCardThrottled "card" "b" 1100
             (updateInteractiveCardThrottled "card" "a" 1000 init) in
  fire 0 1500 (stopCardCacheCleanup (Some 7%nat) s).2 = None.
Proof.
  intros s.
  apply (proj1 (proj2 (proj2 (stop_clears_recorded_timers (Some 7%nat) s)))
           "card" 0%nat).
  vm_compute. reflexivity.
Defined.

Lemma reachable_inv (es : list event) : ∀ s s',
  well_formed s → sole_holder s → run s es = Some s' →
  well_formed s' ∧ sole_holder s'.
Proof.
  induction es as [|e es IH]; intros s s' Hwf Hsole; simpl.
  - by intros [= <-].
  - destruct (step s e) as [s1|] eqn:Hstep; [|discriminate].
    apply IH; [by eapply well_formed_step | by eapply sole_holder_step].
Qed.

Lemma sole_holder_init : sole_holder init.
Proof. intros h t p H. simpl in H. by rewrite lookup_nil in H. Qed.

(** X24.  [stopCardCacheCleanup] abandons the delayed calls whose timer is
    the one recorded in [cardUpdateTimeouts], and only those.  In any
    reachable state, a waiting call whose timer is the recorded one is
    dropped without notice: the timer never fires and the promise the call
    returned stays pending for the rest of the run.  A waiting call whose
    timer is no longer recorded (the entry was overwritten in between) is
    not stopped: its timer is still armed after the stop and dispatches the
    call's text when it fires. *)
Theorem stop_abandons_recorded_updates (s : state) (iv : option nat) :
  reachable s →
  (∀ id h t text p es s',
     cardUpdateTimeouts s !! id = Some h →
     timers s !! h = Some t → live t = true →
     action t = DelayedUpdate id text p →
     run (stopCardCacheCleanup iv s).2 es = Some s' →
     promises s' !! p = Some Pending ∧ ∀ now', fire h now' s' = None)
  ∧ (∀ h t id text p now',
       timers s !! h = Some t → live t = true →
       action t = DelayedUpdate id text p →
       (∀ j, cardUpdateTimeouts s !! j ≠ Some h) →
       armed_at t + delay t ≤ now' →
       ∃ s'', fire h now' (stopCardCacheCleanup iv s).2 = Some s''
              ∧ dispatched s'' = dispatched s ++ [(id, text, now')]
              ∧ inflight s'' = inflight s ++ [mkRequest id text p Throttled true]).
Proof.
  intros [es0 Hreach].
  destruct (reachable_inv es0 init s well_formed_init sole_holder_init Hreach)
    as (Hwf & Hsole).
  destruct (clear_all_inv s) as (Hany & Hstop & Hkeep & _ & _ & Hin & Hpr & Hd).
  split.
  - intros id h t text p es s' Hh Ht Hl Hact Hrun.
    assert (Hr : refers_to p (action t) = true).
    { rewrite Hact. simpl. by apply bool_decide_eq_true_2. }
    destruct (Hsole h t p Ht Hl Hr) as (Hp & Hu & Hq).
    assert (Hmine : timers (stopCardCacheCleanup iv s).2 !! h = Some (stop_timer t)).
    { unfold stopCardCacheCleanup. simpl. by rewrite (Hstop id h Hh), Ht. }
    assert (Horph : orphaned p (stopCardCacheCleanup iv s).2).
    { split; [|split].
      - unfold stopCardCacheCleanup. simpl. by rewrite Hpr.
      - intros h' t' Ht' Hr'.
        assert (h' = h) as ->.
        { unfold stopCardCacheCleanup in Ht'. simpl in Ht'.
          destruct (timer_from_any _ _ _ _ (Hany h') Ht') as (t0 & Ht0 & E).
          apply (Hu h' t0 Ht0). by destruct E as [-> | ->]. }
        rewrite Hmine in Ht'. by injection Ht' as <-.
      - unfold stopCardCacheCleanup. simpl. rewrite Hin.
        intros k r Hk Heq. by destruct (Hq k r Hk). }
    pose proof (orphaned_run _ es _ s' Horph Hrun) as (Hp' & _).
    split; [done|]. intros now'.
    destruct (run_timers es _ s' h _ Hrun Hmine) as [E|E]; by eapply fire_dead.
  - intros h t id text p now' Ht Hl Hact Hfree Hdue.
    assert (Hmine : timers (stopCardCacheCleanup iv s).2 !! h = Some t).
    { unfold stopCardCacheCleanup. simpl. by rewrite (Hkeep h Hfree). }
    rewrite (fire_delayed h now' _ t id text p Hmine Hl Hact Hdue).
    eexists. split; [reflexivity|]. simpl. by rewrite Hd, Hin.
Qed.

Lemma stop_abandons_recorded_updates_witness :
  let s := updateInteractiveCardThrottled "card" "b" 1100
             (updateInteractiveCardThrottled "card" "a" 1000 init) in
  (∃ s', run (stopCardCacheCleanup None s).2 [Complete 0 PutOk 1200] = Some s'
         ∧ promises s' !! 1%nat = Some Pending
         ∧ fire 0 1500 s' = None)
  ∧ ∃ s2, complete 0 PutOk 1200 s = Some s2
          ∧ ∃ s'', fire 0 1500 (stopCardCacheCleanup None s2).2 = Some s''
                   ∧ dispatched s'' = dispatched s2 ++ [("card", "b", 1500)].
Proof.
  intros s. split.
  - eexists. split; [vm_compute; reflexivity|].
    match goal with |- promises ?s' !! _ = _ ∧ _ =>
      destruct (proj1 (stop_abandons_recorded_updates s None
                  (ex_intro (λ es, run init es = Some s)
                     [UpdateThrottled "card" "a" 1000;
                      UpdateThrottled "card" "b" 1100] eq_refl))
                "card" 0%nat (mkTimer 1100 400 (DelayedUpdate "card" "b" 1) true)
                "b" 1%nat [Complete 0 PutOk 1200] s'
                ltac:(vm_compute; reflexivity) ltac:(vm_compute; reflexivity)
                eq_refl eq_refl ltac:(vm_compute; reflexivity))
        as (Hp & Hf)
    end.
    split; [exact Hp | exact (Hf 1500)].
  - eexists. split; [vm_compute; reflexivity|].
    match goal with |- ∃ s'', fire _ _ (stopCardCacheCleanup _ ?s2).2 = _ ∧ _ =>
      assert (Hto : cardUpdateTimeouts s2 = {["card" := 1%nat]})
        by (vm_compute; reflexivity);
      assert (Hfree : ∀ j, cardUpdateTimeouts s2 !! j ≠ Some 0%nat)
        by (intros j; rewrite Hto; destruct (decide (j = "card")) as [->|Hne];
            [rewrite lookup_singleton_eq; discriminate
            |rewrite lookup_singleton_ne by done; discriminate]);
      destruct (proj2 (stop_abandons_recorded_updates s2 None
                  (ex_intro (λ es, run init es = Some s2)
                     [UpdateThrottled "card" "a" 1000;
                      UpdateThrottled "card" "b" 1100;
                      Complete 0 PutOk 1200] ltac:(vm_compute; reflexivity)))
                0%nat (mkTimer 1100 400 (DelayedUpdate "card" "b" 1) true)
                "card" "b" 1%nat 1500
                ltac:(vm_compute; reflexivity) eq_refl eq_refl
                Hfree ltac:(vm_compute; discriminate))
        as (s'' & Hs'' & Hd'' & _)
    end.
    exists s''. split; [exact Hs'' | exact Hd''].
Defined.

End ShutdownFacts.

(** * Properties of runs of the token cache *)

Section TokenRunFacts.
Import Token Runs.

Lemma served_tokens_step (s s' : sys) (e : event) (seen : list string) :
  (∀ k tok f, calls s !! k = Some (Returned tok f) → tok ∈ seen) →
  (∀ tok, accessToken (store s) = Some tok → tok ∈ seen) →
  step s e = Some s' →
  (∀ k tok f, calls s' !! k = Some (Returned tok f) → tok ∈ seen ++ answered [e])
  ∧ (∀ tok, accessToken (store s') = Some tok → tok ∈ seen ++ answered [e]).
Proof.
  intros Hcalls Hstore.
  destruct e as [config now|k resp|k]; simpl.
  - destruct (getAccessToken_enter config now (store s)) as [tok|req] eqn:E;
      intros [= <-]; simpl; rewrite app_nil_r; (split; [|done]);
      intros k tok' f [Hold|[_ Hnew]]%lookup_app_Some; eauto.
    + apply list_lookup_singleton_Some in Hnew as [_ [= <- _]].
      apply enter_cached_inv in E as [E _]. eauto.
    + by apply list_lookup_singleton_Some in Hnew as [_ ?].
  - destruct (calls s !! k) as [[cfg t0|tok f|]|] eqn:Hk; try discriminate.
    intros [= <-]. simpl. split.
    + intros j tok f Hj. apply elem_of_app.
      destruct (decide (k = j)) as [<-|Hne].
      * rewrite list_lookup_insert_eq in Hj by (by eapply lookup_lt_Some).
        injection Hj as <- _. right. by left.
      * rewrite list_lookup_insert_ne in Hj by done. left. eauto.
    + intros tok [= <-]. apply elem_of_app. right. by left.
  - destruct (calls s !! k) as [[cfg t0|tok f|]|] eqn:Hk; try discriminate.
    intros [= <-]. simpl. rewrite app_nil_r. split; [|done].
    intros j tok f Hj. destruct (decide (k = j)) as [<-|Hne].
    + rewrite list_lookup_insert_eq in Hj by (by eapply lookup_lt_Some).
      discriminate.
    + rewrite list_lookup_insert_ne in Hj by done. eauto.
Qed.

Lemma answered_cons e es : answered (e :: es) = answered [e] ++ answered es.
Proof. by destruct e. Qed.

(** X25.  Every token [getAccessToken] hands out in a run, from the cache or
    from a fetch, is a token the token endpoint answered with earlier in that
    run, and so is the token left in the cache: nothing is served that was
    not fetched. *)
Theorem served_tokens_were_fetched (es : list event) (s : sys) :
  run init es = Some s →
  (∀ k tok f, calls s !! k = Some (Returned tok f) → tok ∈ answered es)
  ∧ (∀ tok, accessToken (store s) = Some tok → tok ∈ answered es).
Proof.
  assert (Hgen : ∀ es s0 s' seen,
             (∀ k tok f, calls s0 !! k = Some (Returned tok f) → tok ∈ seen) →
             (∀ tok, accessToken (store s0) = Some tok → tok ∈ seen) →
             run s0 es = Some s' →
             (∀ k tok f, calls s' !! k = Some (Returned tok f) →
                         tok ∈ seen ++ answered es)
             ∧ (∀ tok, accessToken (store s') = Some tok → tok ∈ seen ++ answered es)).
  { clear. induction es as [|e es IH]; intros s0 s' seen Hc Hs Hrun;
      simpl in Hrun.
    - injection Hrun as <-. simpl. rewrite app_nil_r. done.
    - destruct (step s0 e) as [s1|] eqn:Hstep; [|discriminate].
      destruct (served_tokens_step s0 s1 e seen Hc Hs Hstep) as (Hc1 & Hs1).
      destruct (IH s1 s' _ Hc1 Hs1 Hrun) as (Hc2 & Hs2).
      rewrite answered_cons, app_assoc. done. }
  intros Hrun.
  apply (Hgen es init s [] ); [| |done].
  - intros k tok f H. simpl in H. by rewrite lookup_nil in H.
  - intros tok H. discriminate.
Qed.

Lemma served_tokens_were_fetched_witness :
  ∃ s, run init [Call cfgA 1000; Response 0 (mkTokenInfo "t1" 7200); Call cfgB 2000]
       = Some s
       ∧ "t1" ∈ answered [Call cfgA 1000; Response 0 (mkTokenInfo "t1" 7200);
                          Call cfgB 2000].
Proof.
  eexists. split; [vm_compute; reflexivity|].
  match goal with |- _ ∈ answered ?es =>
    eapply (proj2 (served_tokens_were_fetched es _ ltac:(vm_compute; reflexivity)))
  end.
  vm_compute. reflexivity.
Defined.

Lemma cache_miss_later (c : cache) (now now' : Z) :
  cache_hit c now = false → now ≤ now' → cache_hit c now' = false.
Proof.
  unfold cache_hit. intros H Hle.
  apply andb_false_iff in H as [H|H]; apply andb_false_iff; [by left|right].
  apply Z.ltb_ge in H. apply Z.ltb_ge. lia.
Qed.

(** X26.  Once the cache misses at some time, it misses at every later
    time until a fetch answers: failed fetches leave the cache as it was, the
    stale token included, and every call in between starts a fetch of its
    own; none is served from the cache. *)
Theorem expired_token_is_not_served (es : list event) (s s' : sys) (since : Z) :
  cache_hit (store s) since = false →
  Forall (unanswered since) es →
  run s es = Some s' →
  store s' = store s
  ∧ (∀ k tok, calls s' !! k = Some (Returned tok false) →
              calls s !! k = Some (Returned tok false))
  ∧ (length (fetches s') + length (calls s)
     = length (fetches s) + length (calls s'))%nat.
Proof.
  intros Hmiss Hall. revert s Hmiss.
  induction Hall as [|e es He Hes IH]; intros s Hmiss; simpl.
  - intros [= <-]. repeat split; try done.
  - destruct (step s e) as [s1|] eqn:Hstep; [|discriminate].
    intros Hrun.
    assert (Hs1 : store s1 = store s
                  ∧ (∀ k tok, calls s1 !! k = Some (Returned tok false) →
                              calls s !! k = Some (Returned tok false))
                  ∧ (length (fetches s1) + length (calls s)
                     = length (fetches s) + length (calls s1))%nat).
    { destruct e as [config now|k resp|k]; simpl in He, Hstep; [| done |].
      - rewrite (enter_miss config now (store s)) in Hstep
          by (by eapply cache_miss_later).
        injection Hstep as <-. simpl. rewrite !length_app. simpl.
        repeat split; try lia.
        intros k tok [Hold|[_ Hnew]]%lookup_app_Some; [done|].
        by apply list_lookup_singleton_Some in Hnew as [_ ?].
      - destruct (calls s !! k) as [[cfg t0|tok f|]|] eqn:Hk; try discriminate.
        injection Hstep as <-. simpl. rewrite length_insert.
        repeat split; try lia.
        intros j tok Hj. destruct (decide (k = j)) as [<-|Hne].
        + rewrite list_lookup_insert_eq in Hj by (by eapply lookup_lt_Some).
          discriminate.
        + by rewrite list_lookup_insert_ne in Hj. }
    destruct Hs1 as (Hst & Hc & Hl).
    destruct (IH s1 ltac:(by rewrite Hst) Hrun) as (Hst' & Hc' & Hl').
    split; [congruence|]. split; [eauto|]. lia.
Qed.

Lemma expired_token_is_not_served_witness :
  let s := mkSys (mkCache (Some "old") 50000) [] [] in
  ∃ s', run s [Call cfgA 1000; Failure 0; Call cfgA 1200] = Some s'
        ∧ store s' = store s.
Proof.
  intros s. eexists. split; [vm_compute; reflexivity|].
  match goal with |- store ?s' = _ =>
    exact (proj1 (expired_token_is_not_served
             [Call cfgA 1000; Failure 0; Call cfgA 1200] s s' 1000
             ltac:(vm_compute; reflexivity)
             ltac:(repeat constructor; vm_compute; discriminate)
             ltac:(vm_compute; reflexivity)))
  end.
Defined.

End TokenRunFacts.
